(** * Potential algebra and HMC kernel of pyro: a shallow embedding

    The development follows three source files:
    - [pyro/ops/gaussian_sqrt.py]  (module [GaussianSqrt]),
    - [pyro/ops/studentt.py]       (module [StudentTOps]),
    - [pyro/infer/mcmc/hmc.py]     (module [Hmc]).

    Conventions.  Tensors are modelled without batch dimensions
    ([batch_shape = ()]): a 0-d tensor is a rational, a 1-d tensor a list of
    rationals, a 2-d tensor a list of rows together with its number of
    columns (a torch tensor keeps its column count even when it has no
    rows).  Finite floating-point arithmetic is idealised as exact rational
    arithmetic: sums and products neither round nor overflow.  The one
    exception is the float division of [HMC.num_steps], whose rounding and
    overflow decide what [int()] returns or raises: its quotient is a
    parameter of the kernel.  A Python exception is a value of [exn]; a
    call that can raise returns a [result]. *)

From Stdlib Require Import String.
From Stdlib Require Import List ZArith QArith Qround Bool Lia Lqa.
Import ListNotations.

Local Open Scope Z_scope.

(** ** Python exceptions *)

Inductive exn : Type :=
| AssertionError
| NotImplementedError
| NameError (name : string)
| AttributeError
| IndexError
| RuntimeError
| TypeError
| ZeroDivisionError
| OverflowError
| ValueError.

Inductive result (A : Type) : Type :=
| Ok (a : A)
| Raise (e : exn).

Arguments Ok {A} a.
Arguments Raise {A} e.

Definition rbind {A B} (c : result A) (k : A -> result B) : result B :=
  match c with
  | Ok a => k a
  | Raise e => Raise e
  end.

Notation "x <- c ;; k" := (rbind c (fun x => k))
  (at level 61, c at next level, right associativity).

(** [assert cond] *)
Definition py_assert (cond : bool) : result unit :=
  if cond then Ok tt else Raise AssertionError.

Definition raises {A} (c : result A) : Prop := exists e, c = Raise e.

(** ** Tensors of dimension at most two *)

Module Tensor.

Notation "'tensor1'" := (list Q) (only parsing).

Record tensor2 : Type := mk2 { cols : nat; rows : list (list Q) }.

(** [v.size(-1)] *)
Definition size1 (v : tensor1) : Z := Z.of_nat (length v).

(** [m.shape[-2:]] *)
Definition shape2 (m : tensor2) : Z * Z :=
  (Z.of_nat (length (rows m)), Z.of_nat (cols m)).

Definition shape_eqb (s t : Z * Z) : bool :=
  (fst s =? fst t) && (snd s =? snd t).

(** A Python slice [l[start:stop]] (step 1): negative bounds count from the
    end, and both bounds are clipped to the length. *)
Definition slice_bound (len : Z) (i : Z) : Z :=
  if i <? 0 then Z.max 0 (len + i) else Z.min i len.

Definition py_slice {A} (start stop : option Z) (l : list A) : list A :=
  let len := Z.of_nat (length l) in
  let lo := match start with Some i => slice_bound len i | None => 0 end in
  let hi := match stop with Some i => slice_bound len i | None => len end in
  firstn (Z.to_nat (hi - lo)) (skipn (Z.to_nat lo) l).

Fixpoint map2 {A B C} (f : A -> B -> C) (u : list A) (v : list B) : list C :=
  match u, v with
  | a :: u', b :: v' => f a b :: map2 f u' v'
  | _, _ => []
  end.

(** [t.sum(-1)] of a 1-d tensor *)
Definition vsum (v : tensor1) : Q := fold_right Qplus 0%Q v.

(** [t.pow(2)] *)
Definition vpow2 (v : tensor1) : tensor1 := map (fun x => (x * x)%Q) v.

Definition dot (u v : tensor1) : Q := vsum (map2 Qmult u v).

(** Broadcasting of one axis: equal sizes, or one of them is 1. *)
Definition bdim (a b : nat) : result nat :=
  if (a =? b)%nat then Ok a
  else if (a =? 1)%nat then Ok b
  else if (b =? 1)%nat then Ok a
  else Raise RuntimeError.

Definition expand_to {A} (n : nat) (l : list A) : list A :=
  if (length l =? n)%nat then l
  else match l with
       | [x] => repeat x n
       | _ => l
       end.

(** An elementwise binary operation on 1-d tensors, with broadcasting. *)
Definition ewise1 (f : Q -> Q -> Q) (u v : tensor1) : result tensor1 :=
  n <- bdim (length u) (length v) ;;
  Ok (map2 f (expand_to n u) (expand_to n v)).

(** The same on 2-d tensors. *)
Definition ewise2 (f : Q -> Q -> Q) (a b : tensor2) : result tensor2 :=
  r <- bdim (length (rows a)) (length (rows b)) ;;
  c <- bdim (cols a) (cols b) ;;
  Ok (mk2 c (map2 (fun ra rb => map2 f (expand_to c ra) (expand_to c rb))
                  (expand_to r (rows a)) (expand_to r (rows b)))).

(** 0-d tensor combined with a 1-d tensor: always broadcasts. *)
Definition scalar_ewise1 (f : Q -> Q -> Q) (s : Q) (v : tensor1) : tensor1 :=
  map (f s) v.

Definition column (j : nat) (m : tensor2) : tensor1 :=
  map (fun r => nth j r 0%Q) (rows m).

Definition columns (m : tensor2) : list tensor1 :=
  map (fun j => column j m) (seq 0 (cols m)).

(** [m.transpose(-1, -2)] *)
Definition transpose (m : tensor2) : tensor2 :=
  mk2 (length (rows m)) (columns m).

(** [torch.matmul] by the dimensions of its arguments. *)
Definition matmul_1_2 (v : tensor1) (m : tensor2) : result tensor1 :=
  if (length v =? length (rows m))%nat
  then Ok (map (dot v) (columns m))
  else Raise RuntimeError.

Definition matmul_2_1 (m : tensor2) (v : tensor1) : result tensor1 :=
  if (cols m =? length v)%nat
  then Ok (map (fun r => dot r v) (rows m))
  else Raise RuntimeError.

Definition matmul_2_2 (a b : tensor2) : result tensor2 :=
  if (cols a =? length (rows b))%nat
  then Ok (mk2 (cols b) (map (fun r => map (dot r) (columns b)) (rows a)))
  else Raise RuntimeError.

(** [torch.nn.functional.pad(v, (left, right))] with non-negative amounts. *)
Definition pad1 (left right : nat) (v : tensor1) : tensor1 :=
  repeat 0%Q left ++ v ++ repeat 0%Q right.

(** [pad(m, (left, right))]: only the last axis is padded;
    [pad(m, (left, right, 0, 0))] is the same tensor. *)
Definition pad2 (left right : nat) (m : tensor2) : tensor2 :=
  mk2 (left + cols m + right) (map (pad1 left right) (rows m)).

(** [m[..., start:stop, :]] *)
Definition row_slice (start stop : option Z) (m : tensor2) : tensor2 :=
  mk2 (cols m) (py_slice start stop (rows m)).

(** [m[..., :, start:stop]] *)
Definition col_slice (start stop : option Z) (m : tensor2) : tensor2 :=
  mk2 (length (py_slice start stop (repeat tt (cols m))))
      (map (py_slice start stop) (rows m)).

(** [v.unsqueeze(-1)] *)
Definition unsqueeze_last (v : tensor1) : tensor2 :=
  mk2 1 (map (fun x => [x]) v).

(** [m.squeeze(-1)] of a tensor whose last axis has size 1 *)
Definition squeeze_last (m : tensor2) : tensor1 := column 0 m.

(** [m.diagonal(dim1=-2, dim2=-1)] *)
Definition diagonal (m : tensor2) : tensor1 :=
  map (fun i => nth i (nth i (rows m) []) 0%Q)
      (seq 0 (Nat.min (length (rows m)) (cols m))).

(** Every row of a 2-d tensor has as many entries as the tensor has
    columns. *)
Definition well_shaped (m : tensor2) : Prop :=
  Forall (fun r => length r = cols m) (rows m).

(** [pad(m, (left, right, left, right))]: both axes are padded. *)
Definition pad2_both (left right : nat) (m : tensor2) : tensor2 :=
  let c := (left + cols m + right)%nat in
  mk2 c (repeat (repeat 0%Q c) left
         ++ map (pad1 left right) (rows m)
         ++ repeat (repeat 0%Q c) right).

Fixpoint mapM {A B} (f : A -> result B) (l : list A) : result (list B) :=
  match l with
  | [] => Ok []
  | a :: l' =>
      b <- f a ;;
      bs <- mapM f l' ;;
      Ok (b :: bs)
  end.

(** One entry of an index tensor applied to an axis: a negative index
    counts from the end, an index outside [[-n, n)] raises [IndexError]. *)
Definition index_at {A} (l : list A) (i : Z) : result A :=
  let n := Z.of_nat (length l) in
  let j := if i <? 0 then i + n else i in
  if (0 <=? j) && (j <? n) then
    match nth_error l (Z.to_nat j) with
    | Some a => Ok a
    | None => Raise IndexError
    end
  else Raise IndexError.

(** [v[..., perm]] for an index tensor [perm] *)
Definition take {A} (l : list A) (perm : list Z) : result (list A) :=
  mapM (index_at l) perm.

(** [m[..., perm]]: the bounds are those of the column axis, whether or not
    the tensor has rows. *)
Definition col_take (m : tensor2) (perm : list Z) : result tensor2 :=
  _ <- take (seq 0 (cols m)) perm ;;
  rs <- mapM (fun r => take r perm) (rows m) ;;
  Ok (mk2 (length perm) rs).

(** [m[..., perm, :]] *)
Definition row_take (m : tensor2) (perm : list Z) : result tensor2 :=
  rs <- take (rows m) perm ;;
  Ok (mk2 (cols m) rs).

(** [torch.nn.functional.pad] with the amounts as the integers they are.
    A negative amount crops that side of the axis, the left side first,
    and cropping more than the axis holds raises; a non-negative amount
    pads with zeros. *)
Definition crop {A} (left right : Z) (l : list A) : list A :=
  let l1 := skipn (Z.to_nat (- left)) l in
  firstn (length l1 - Z.to_nat (- right)) l1.

Definition check_crop (left right : Z) (n : nat) : result unit :=
  if (0 <=? Z.of_nat n + Z.min left 0)
     && (0 <=? Z.of_nat n + Z.min left 0 + Z.min right 0)
  then Ok tt else Raise RuntimeError.

Definition cropped_size (left right : Z) (n : nat) : nat :=
  length (crop left right (repeat tt n)).

(** [pad(v, (left, right))] *)
Definition pad1_int (left right : Z) (v : tensor1) : result tensor1 :=
  _ <- check_crop left right (length v) ;;
  Ok (pad1 (Z.to_nat left) (Z.to_nat right) (crop left right v)).

(** [pad(m, (left, right, 0, 0))]: the last axis *)
Definition pad2_int (left right : Z) (m : tensor2) : result tensor2 :=
  _ <- check_crop left right (cols m) ;;
  Ok (pad2 (Z.to_nat left) (Z.to_nat right)
        (mk2 (cropped_size left right (cols m))
             (map (crop left right) (rows m)))).

(** [pad(m, (left, right, left, right))]: both axes *)
Definition pad2_both_int (left right : Z) (m : tensor2) : result tensor2 :=
  _ <- check_crop left right (length (rows m)) ;;
  _ <- check_crop left right (cols m) ;;
  Ok (pad2_both (Z.to_nat left) (Z.to_nat right)
        (mk2 (cropped_size left right (cols m))
             (map (crop left right) (crop left right (rows m))))).

(** [torch.eye(n)] *)
Definition eye (n : nat) : tensor2 :=
  mk2 n (map (fun i => map (fun j => if (i =? j)%nat then 1%Q else 0%Q)
                           (seq 0 n))
             (seq 0 n)).

End Tensor.

Import Tensor.

(** ** [pyro/ops/gaussian_sqrt.py] *)

Module GaussianSqrt.

Record GaussianS : Type := mkGaussianS {
  log_normalizer : Q;
  info_vec : tensor1;
  prec_sqrt : tensor2
}.

(** [GaussianS.__init__].  The first two assertions ([info_vec.dim() >= 1],
    [prec_sqrt.dim() >= 2]) hold by the types of the fields; the third is
    [prec_sqrt.shape[-2:] == info_vec.shape[-1:] * 2], where the right-hand
    side is the tuple [(n, n)]. *)
Definition GaussianS_init (ln : Q) (info : tensor1) (p : tensor2)
  : result GaussianS :=
  _ <- py_assert (shape_eqb (shape2 p) (size1 info, size1 info)) ;;
  Ok (mkGaussianS ln info p).

(** The instances that exist at run time are those the constructor let
    through. *)
Definition constructed (g : GaussianS) : Prop :=
  shape2 (prec_sqrt g) = (size1 (info_vec g), size1 (info_vec g)).

(** [GaussianS.dim] *)
Definition dim (g : GaussianS) : Z := size1 (info_vec g).

(** [GaussianS.precision] *)
Definition precision (g : GaussianS) : result tensor2 :=
  matmul_2_2 (prec_sqrt g) (transpose (prec_sqrt g)).

(** [GaussianS.event_pad] *)
Definition event_pad (left right : Z) (self : GaussianS)
  : result GaussianS :=
  let log_normalizer := log_normalizer self in
  info_vec <- pad1_int left right (info_vec self) ;;
  prec_sqrt <- pad2_int left right (prec_sqrt self) ;;
  GaussianS_init log_normalizer info_vec prec_sqrt.

(** [GaussianS.event_permute]: the body starts with
    [raise NotImplementedError]; the statements after it are never run. *)
Definition event_permute (perm : list Z) (self : GaussianS)
  : result GaussianS :=
  Raise NotImplementedError.

(** [GaussianS.__add__] *)
Definition __add__ (self other : GaussianS) : result GaussianS :=
  _ <- py_assert (dim self =? dim other) ;;
  let ln := (log_normalizer self + log_normalizer other)%Q in
  iv <- ewise1 Qplus (info_vec self) (info_vec other) ;;
  ps <- ewise2 Qplus (pad2 0 (Z.to_nat (dim other)) (prec_sqrt self))
                     (pad2 (Z.to_nat (dim self)) 0 (prec_sqrt other)) ;;
  GaussianS_init ln iv ps.

(** [GaussianS.log_density] *)
Definition log_density (self : GaussianS) (value : tensor1) : result Q :=
  if size1 value =? 0 then Ok (log_normalizer self)
  else
    result <- matmul_1_2 value (prec_sqrt self) ;;
    let result := (- (1 # 2) * vsum (vpow2 result))%Q in
    let result := scalar_ewise1 Qplus result (info_vec self) in
    result <- ewise1 Qmult value result ;;
    let result := vsum result in
    Ok (result + log_normalizer self)%Q.

(** [GaussianS.condition] *)
Definition condition (self : GaussianS) (value : tensor1)
  : result GaussianS :=
  _ <- py_assert (size1 value <=? size1 (info_vec self)) ;;
  let n := dim self - size1 value in
  let info_a := py_slice None (Some n) (info_vec self) in
  let info_b := py_slice (Some n) None (info_vec self) in
  let Psqrt_a := row_slice None (Some n) (prec_sqrt self) in
  let Psqrt_b := row_slice (Some n) None (prec_sqrt self) in
  let b := value in
  Psqrt_b_b <- matmul_1_2 b Psqrt_b ;;
  Pa_Pbb <- matmul_2_1 Psqrt_a Psqrt_b_b ;;
  info_vec <- ewise1 Qminus info_a Pa_Pbb ;;
  let prec_sqrt := Psqrt_a in
  b_info_b <- ewise1 Qmult b info_b ;;
  let log_normalizer :=
    (log_normalizer self + - (1 # 2) * vsum (vpow2 Psqrt_b_b)
     + vsum b_info_b)%Q in
  GaussianS_init log_normalizer info_vec prec_sqrt.

(** [torch.arange(lo, hi)] *)
Definition arange (lo hi : Z) : list Z :=
  map (fun i => lo + Z.of_nat i) (seq 0 (Z.to_nat (hi - lo))).

Section LinearAlgebraPrimitives.

(** The torch primitives whose results are not rational functions of
    their arguments are left open. *)
Variable qr_R : tensor2 -> tensor2.
  (* [A.qr(some=True).R] *)
Variable triangular_solve : tensor2 -> tensor2 -> tensor2.
  (* [b.triangular_solve(A, upper=False).solution], as a function of [b]
     and [A] *)
Variable tlog : Q -> Q.
  (* [x.log()] *)
Variable log_2pi : Q.
  (* [math.log(2 * math.pi)] *)

(** [triangularize] *)
Definition triangularize (A : tensor2) : tensor2 :=
  transpose (qr_R (transpose A)).

(** [GaussianS.marginalize] *)
Definition marginalize (self : GaussianS) (left right : Z)
  : result GaussianS :=
  if (left =? 0) && (right =? 0) then Ok self
  else if (left >? 0) && (right >? 0) then Raise NotImplementedError
  else
    let n := dim self in
    let n_b := left + right in
    let a := (Some left, Some (n - right)) in
    let b := if negb (left =? 0) then (None, Some left)
             else (Some (n - right), None) in
    let Psqrt_a := row_slice (fst a) (snd a) (prec_sqrt self) in
    let Psqrt_b := row_slice (fst b) (snd b) (prec_sqrt self) in
    let Psqrt_b_tril := triangularize Psqrt_b in
    let B_sqrt := triangular_solve Psqrt_b Psqrt_b_tril in
    B <- matmul_2_2 (transpose B_sqrt) B_sqrt ;;
    Psqrt_a_B <- matmul_2_2 Psqrt_a B ;;
    prec_sqrt <- ewise2 Qminus Psqrt_a Psqrt_a_B ;;
    let info_a := py_slice (fst a) (snd a) (info_vec self) in
    let info_b := py_slice (fst b) (snd b) (info_vec self) in
    let b_tmp := triangular_solve (unsqueeze_last info_b) Psqrt_b_tril in
    PaB_b <- matmul_2_2 Psqrt_a_B b_tmp ;;
    info_vec <- ewise1 Qminus info_a (squeeze_last PaB_b) ;;
    let log_normalizer :=
      (log_normalizer self
       + (1 # 2) * inject_Z n_b * log_2pi
       - (1 # 2) * vsum (map tlog (vpow2 (diagonal Psqrt_b_tril)))
       + (1 # 2) * vsum (vpow2 (squeeze_last b_tmp)))%Q in
    GaussianS_init log_normalizer info_vec prec_sqrt.

(** [gaussian_tensordotS] *)
Definition gaussian_tensordotS (x y : GaussianS) (dims : Z)
  : result GaussianS :=
  let na := dim x - dims in
  let nb := dims in
  let nc := dim y - dims in
  _ <- py_assert (na >=? 0) ;;
  _ <- py_assert (nb >=? 0) ;;
  _ <- py_assert (nc >=? 0) ;;
  let perm := arange 0 na ++ arange (dim x) (dim x + nc)
              ++ arange na (dim x) in
  xp <- event_pad 0 nc x ;;
  yp <- event_pad na 0 y ;;
  s <- __add__ xp yp ;;
  p <- event_permute perm s ;;
  marginalize p 0 nb.

End LinearAlgebraPrimitives.

(** The value the docstring of [log_density] announces:
    [-0.5 * value.T @ precision @ value + value.T @ info_vec + log_normalizer]. *)
Definition documented_log_density (g : GaussianS) (value : tensor1)
  : result Q :=
  P <- precision g ;;
  Pv <- matmul_2_1 P value ;;
  Ok (- (1 # 2) * dot value Pv + dot value (info_vec g)
      + log_normalizer g)%Q.

(** Small instances used in the examples below. *)
Definition unit1 : GaussianS := mkGaussianS 0 [0%Q] (mk2 1 [[1%Q]]).
Definition unit2 : GaussianS :=
  mkGaussianS 0 [0%Q; 0%Q] (mk2 2 [[1%Q; 0%Q]; [0%Q; 1%Q]]).
Definition empty0 : GaussianS := mkGaussianS 0 [] (mk2 0 []).

(** *** [AffineNormalS] and the conversions from distributions *)

Record AffineNormalS : Type := mkAffineNormalS {
  matrix : tensor2;
  loc : tensor1;
  scale : tensor1
}.

(** [AffineNormalS.__init__]: [assert loc.shape == scale.shape];
    unpacking [matrix.shape[-2:]] cannot fail on a 2-d tensor. *)
Definition AffineNormalS_init (matrix : tensor2) (loc scale : tensor1)
  : result AffineNormalS :=
  _ <- py_assert (size1 loc =? size1 scale) ;;
  Ok (mkAffineNormalS matrix loc scale).

(** The attributes of [torch.Tensor] that [gaussian_sqrt.py] reads. *)
Inductive tensor_method : Type :=
| m_transpose | m_qr | m_matmul | m_pow | m_sum | m_mul | m_log | m_size
| m_dim | m_shape | m_expand | m_reshape | m_unsqueeze | m_squeeze
| m_triangular_solve | m_diagonal | m_device | m_dtype.

Definition tensor_attributes : list (string * tensor_method) :=
  [ ("transpose", m_transpose); ("qr", m_qr); ("matmul", m_matmul);
    ("pow", m_pow); ("sum", m_sum); ("mul", m_mul); ("log", m_log);
    ("size", m_size); ("dim", m_dim); ("shape", m_shape);
    ("expand", m_expand); ("reshape", m_reshape);
    ("unsqueeze", m_unsqueeze); ("squeeze", m_squeeze);
    ("triangular_solve", m_triangular_solve); ("diagonal", m_diagonal);
    ("device", m_device); ("dtype", m_dtype) ]%string.

(** [t.name] on a tensor *)
Definition tensor_getattr (name : string) : result tensor_method :=
  match find (fun kv => String.eqb (fst kv) name) tensor_attributes with
  | Some kv => Ok (snd kv)
  | None => Raise AttributeError
  end.

(** [t.name(-1, -2)] for a looked-up method; of the methods above,
    [transpose] takes two axes. *)
Definition call_axes_method (f : tensor_method) (t : tensor2)
  : result tensor2 :=
  match f with
  | m_transpose => Ok (transpose t)
  | _ => Raise TypeError
  end.

(** [torch.distributions.MultivariateNormal], by [loc] and [scale_tril];
    [Independent(Normal(loc, scale), 1)], by the (broadcast) [loc] and
    [scale] of its base distribution; any other object. *)
Inductive distribution : Type :=
| MultivariateNormal (mvn_loc : tensor1) (scale_tril : tensor2)
| IndependentNormal (base_loc base_scale : tensor1)
| OtherDistribution.

(** [mvn.event_shape[-1]] *)
Definition event_size (d : distribution) : result Z :=
  match d with
  | MultivariateNormal mvn_loc _ => Ok (size1 mvn_loc)
  | IndependentNormal base_loc _ => Ok (size1 base_loc)
  | OtherDistribution => Raise AttributeError
  end.

Section Conversions.

Variable triangular_solve : tensor2 -> tensor2 -> tensor2.
Variable tlog : Q -> Q.
Variable log_2pi : Q.

(** [AffineNormalS.condition] *)
Definition AffineNormalS_condition (self : AffineNormalS) (value : tensor1)
  : result GaussianS :=
  _ <- py_assert (size1 value =? size1 (loc self)) ;;
  (* [self.scale.unsqueeze(-2)] is the 1 x y_dim tensor with row [scale] *)
  prec_sqrt <- ewise2 Qdiv (matrix self)
                 (mk2 (length (scale self)) [scale self]) ;;
  diff <- ewise1 Qminus value (loc self) ;;
  delta <- ewise1 Qdiv diff (scale self) ;;
  iv <- matmul_2_2 prec_sqrt (unsqueeze_last delta) ;;
  let info_vec := squeeze_last iv in
  let log_normalizer :=
    (- (1 # 2) * inject_Z (size1 (loc self)) * log_2pi
     - (1 # 2) * vsum (vpow2 delta) - vsum (map tlog (scale self)))%Q in
  GaussianS_init log_normalizer info_vec prec_sqrt.

(** [_scale_tril_to_prec_sqrt]: the solution of the triangular system is
    computed, then its attribute [tranpose] is read. *)
Definition _scale_tril_to_prec_sqrt (L : tensor2) : result tensor2 :=
  let identity := eye (cols L) in
  let solution := triangular_solve identity L in
  tranpose <- tensor_getattr "tranpose" ;;
  call_axes_method tranpose solution.

(** [mvn_to_gaussianS], after its [isinstance] assertion *)
Definition mvn_to_gaussianS (mvn_loc : tensor1) (scale_tril : tensor2)
  : result GaussianS :=
  let n := size1 mvn_loc in
  prec_sqrt <- _scale_tril_to_prec_sqrt scale_tril ;;
  P <- matmul_2_2 prec_sqrt (transpose prec_sqrt) ;;
  iv <- matmul_2_2 P (unsqueeze_last mvn_loc) ;;
  let info_vec := squeeze_last iv in
  iv_loc <- ewise1 Qmult info_vec mvn_loc ;;
  let log_normalizer :=
    (- (1 # 2) * inject_Z n * log_2pi
     + - (1 # 2) * vsum iv_loc
     - vsum (map tlog (diagonal scale_tril)))%Q in
  GaussianS_init log_normalizer info_vec prec_sqrt.

(** [matrix_and_mvn_to_gaussianS].  Without batch dimensions the two
    [expand] calls return their arguments. *)
Definition matrix_and_mvn_to_gaussianS (matrix : tensor2) (mvn : distribution)
  : result (AffineNormalS + GaussianS) :=
  _ <- py_assert (match mvn with OtherDistribution => false | _ => true end) ;;
  let x_dim := fst (shape2 matrix) in
  let y_dim := snd (shape2 matrix) in
  e <- event_size mvn ;;
  _ <- py_assert (e =? y_dim) ;;
  match mvn with
  | IndependentNormal base_loc base_scale =>
      a <- AffineNormalS_init matrix base_loc base_scale ;;
      Ok (inl a)
  | MultivariateNormal mvn_loc scale_tril =>
      y_gaussian <- mvn_to_gaussianS mvn_loc scale_tril ;;
      neg_m <- matmul_2_2 matrix (prec_sqrt y_gaussian) ;;
      let top := mk2 (cols neg_m) (map (map Qopp) (rows neg_m)) in
      (* [torch.cat([top, y_gaussian.prec_sqrt], -2)] *)
      _ <- (if (cols top =? cols (prec_sqrt y_gaussian))%nat
            then Ok tt else Raise RuntimeError) ;;
      let prec_sqrt :=
        mk2 (cols top) (rows top ++ rows (prec_sqrt y_gaussian)) in
      let info_y := info_vec y_gaussian in
      ix <- matmul_2_2 matrix (unsqueeze_last info_y) ;;
      let info_x := map Qopp (squeeze_last ix) in
      let info_vec := info_x ++ info_y in
      let log_normalizer := log_normalizer y_gaussian in
      result <- GaussianS_init log_normalizer info_vec prec_sqrt ;;
      _ <- py_assert (dim result =? x_dim + y_dim) ;;
      Ok (inr result)
  | OtherDistribution => Raise AssertionError
  end.

End Conversions.

(** A 1 x 2 affine map and a 2 x 2 one, for the examples. *)
Definition affine_1_2 : AffineNormalS :=
  mkAffineNormalS (mk2 2 [[1; 2]]%Q) [0; 0]%Q [1; 1]%Q.
Definition affine_2_2 : AffineNormalS :=
  mkAffineNormalS (mk2 2 [[1; 2]; [3; 4]]%Q) [0; 0]%Q [1; 2]%Q.

End GaussianSqrt.

(** ** [pyro/ops/studentt.py] *)

Module StudentTOps.

Record StudentT : Type := mkStudentT {
  log_normalizer : Q;
  info_vec : tensor1;
  precision : tensor2;
  df : Q;
  rank : Q
}.

(** [StudentT.__init__] *)
Definition StudentT_init (ln : Q) (info : tensor1) (p : tensor2) (df rank : Q)
  : result StudentT :=
  _ <- py_assert (shape_eqb (shape2 p) (size1 info, size1 info)) ;;
  Ok (mkStudentT ln info p df rank).

Definition constructed (g : StudentT) : Prop :=
  shape2 (precision g) = (size1 (info_vec g), size1 (info_vec g)).

(** [StudentT.dim] *)
Definition dim (g : StudentT) : Z := size1 (info_vec g).

(** The names bound at the top level of [studentt.py]: its imports, and
    its [def] and [class] statements. *)
Inductive global : Type :=
| g_math
| g_torch
| g_lazy_property
| g_pad
| g_broadcast_shape
| g_Gamma
| g_absolute_central_moment_matching
| g_StudentT
| g_mvt_to_studentt
| g_matrix_and_mvt_to_studentt
| g_studentt_tensordot.

Definition module_globals : list (string * global) :=
  [ ("math", g_math);
    ("torch", g_torch);
    ("lazy_property", g_lazy_property);
    ("pad", g_pad);
    ("broadcast_shape", g_broadcast_shape);
    ("Gamma", g_Gamma);
    ("absolute_central_moment_matching", g_absolute_central_moment_matching);
    ("StudentT", g_StudentT);
    ("mvt_to_studentt", g_mvt_to_studentt);
    ("matrix_and_mvt_to_studentt", g_matrix_and_mvt_to_studentt);
    ("studentt_tensordot", g_studentt_tensordot) ]%string.

(** Evaluation of a global name inside a function body. *)
Definition lookup_global (name : string) : result global :=
  match find (fun kv => String.eqb (fst kv) name) module_globals with
  | Some kv => Ok (snd kv)
  | None => Raise (NameError name)
  end.

(** A call [f(log_normalizer, info_vec, precision, df, rank)] of a looked-up
    object; of the objects above, the class [StudentT] takes these five
    arguments. *)
Definition call5 (f : global) (ln : Q) (info : tensor1) (p : tensor2)
  (df rank : Q) : result StudentT :=
  match f with
  | g_StudentT => StudentT_init ln info p df rank
  | _ => Raise TypeError
  end.

(** [StudentT.condition] *)
Definition condition (self : StudentT) (value : tensor1) : result StudentT :=
  _ <- py_assert (size1 value <=? size1 (info_vec self)) ;;
  let n := dim self - size1 value in
  let info_a := py_slice None (Some n) (info_vec self) in
  let info_b := py_slice (Some n) None (info_vec self) in
  let P_aa := col_slice None (Some n) (row_slice None (Some n) (precision self)) in
  let P_ab := col_slice (Some n) None (row_slice None (Some n) (precision self)) in
  let P_bb := col_slice (Some n) None (row_slice (Some n) None (precision self)) in
  let b := value in
  P_ab_b <- matmul_2_2 P_ab (unsqueeze_last b) ;;
  info_vec <- ewise1 Qminus info_a (squeeze_last P_ab_b) ;;
  let precision := P_aa in
  let log_normalizer := log_normalizer self in
  let df := (df self + inject_Z (size1 value))%Q in
  let rank := (rank self - inject_Z (size1 value))%Q in
  GammaGaussian <- lookup_global "GammaGaussian" ;;
  call5 GammaGaussian log_normalizer info_vec precision df rank.

(** An instance with one event variable, [df = 3] and [rank = 1]. *)
Definition st1 : StudentT := mkStudentT 0 [0%Q] (mk2 1 [[1%Q]]) 3 1.

(** [StudentT.event_pad] *)
Definition event_pad (left right : Z) (self : StudentT) : result StudentT :=
  info_vec <- pad1_int left right (info_vec self) ;;
  precision <- pad2_both_int left right (precision self) ;;
  StudentT_init (log_normalizer self) info_vec precision (df self) (rank self).

(** [StudentT.event_permute] *)
Definition event_permute (perm : list Z) (self : StudentT) : result StudentT :=
  _ <- py_assert (Z.of_nat (length perm) =? dim self) ;;
  info_vec <- take (info_vec self) perm ;;
  by_columns <- col_take (precision self) perm ;;
  precision <- row_take by_columns perm ;;
  StudentT_init (log_normalizer self) info_vec precision (df self) (rank self).

(** [absolute_central_moment_matching]: the body is a docstring, so the
    call returns [None]. *)
Definition absolute_central_moment_matching (st : StudentT) (new_df : Q)
  : option StudentT :=
  None.

(** [obj.field] where [obj] may be [None] *)
Definition getattr_of {A} (obj : option StudentT) (field : StudentT -> A)
  : result A :=
  match obj with
  | Some st => Ok (field st)
  | None => Raise AttributeError
  end.

(** [StudentT.nonexact_add]; [torch.min] and [torch.max] of two scalars
    are written out. *)
Definition nonexact_add (self other : StudentT) : result StudentT :=
  _ <- py_assert (dim self =? dim other) ;;
  _ <- py_assert (Qeq_bool (rank self) (rank other)) ;;
  let df := if Qle_bool (df self) (df other) then df self else df other in
  let self_st := absolute_central_moment_matching self df in
  let other_st := absolute_central_moment_matching other df in
  let rank :=
    if Qle_bool (rank self) (rank other) then rank other else rank self in
  ln1 <- getattr_of self_st log_normalizer ;;
  ln2 <- getattr_of other_st log_normalizer ;;
  iv1 <- getattr_of self_st info_vec ;;
  iv2 <- getattr_of other_st info_vec ;;
  iv <- ewise1 Qplus iv1 iv2 ;;
  p1 <- getattr_of self_st precision ;;
  p2 <- getattr_of other_st precision ;;
  p <- ewise2 Qplus p1 p2 ;;
  StudentT_init (ln1 + ln2)%Q iv p df rank.

(** None of the objects bound at the top level of the module is a
    tensor. *)
Definition global_as_scalar (g : global) : result Q := Raise TypeError.

Section Factorizations.

(** [P.cholesky()], which raises on a matrix that is not positive
    definite; [b.triangular_solve(A, upper=False).solution]; [x.log()];
    [math.log(2 * math.pi)]. *)
Variable cholesky : tensor2 -> result tensor2.
Variable triangular_solve : tensor2 -> tensor2 -> tensor2.
Variable tlog : Q -> Q.
Variable log_2pi : Q.

(** [StudentT.marginalize] *)
Definition marginalize (self : StudentT) (left right : Z) : result StudentT :=
  if (left =? 0) && (right =? 0) then Ok self
  else if (left >? 0) && (right >? 0) then Raise NotImplementedError
  else
    let n := dim self in
    let n_b := left + right in
    let a := (Some left, Some (n - right)) in
    let b := if negb (left =? 0) then (None, Some left)
             else (Some (n - right), None) in
    let P_aa := col_slice (fst a) (snd a)
                  (row_slice (fst a) (snd a) (precision self)) in
    let P_ba := col_slice (fst a) (snd a)
                  (row_slice (fst b) (snd b) (precision self)) in
    let P_bb := col_slice (fst b) (snd b)
                  (row_slice (fst b) (snd b) (precision self)) in
    P_b <- cholesky P_bb ;;
    let P_a := triangular_solve P_ba P_b in
    let P_at := transpose P_a in
    PtP <- matmul_2_2 P_at P_a ;;
    precision <- ewise2 Qminus P_aa PtP ;;
    let info_a := py_slice (fst a) (snd a) (info_vec self) in
    let info_b := py_slice (fst b) (snd b) (info_vec self) in
    let b_tmp := triangular_solve (unsqueeze_last info_b) P_b in
    info_vec <-
      (if n_b <? n then
         Pb <- matmul_2_2 P_at b_tmp ;;
         ewise1 Qminus info_a (squeeze_last Pb)
       else Ok info_a) ;;
    let df := df self in
    let rank := (rank self - inject_Z n_b)%Q in
    let log_normalizer :=
      (log_normalizer self + (1 # 2) * inject_Z n_b * log_2pi
       - vsum (map tlog (diagonal P_b)))%Q in
    (* [GammaGaussian(log_normalizer, info_vec, precision, self.df, beta)];
       [rank] is computed and not used *)
    GammaGaussian <- lookup_global "GammaGaussian" ;;
    beta <- lookup_global "beta" ;;
    beta <- global_as_scalar beta ;;
    call5 GammaGaussian log_normalizer info_vec precision df beta.

(** [studentt_tensordot] *)
Definition studentt_tensordot (x y : StudentT) (dims : Z) : result StudentT :=
  GammaGaussian <- lookup_global "GammaGaussian" ;;
  (* [assert isinstance(x, GammaGaussian)], [assert isinstance(y, ...)] *)
  _ <- py_assert (match GammaGaussian with g_StudentT => true | _ => false end) ;;
  let na := dim x - dims in
  let nb := dims in
  let nc := dim y - dims in
  _ <- py_assert (na >=? 0) ;;
  _ <- py_assert (nb >=? 0) ;;
  _ <- py_assert (nc >=? 0) ;;
  let perm := map (fun i => Z.of_nat i) (seq 0 (Z.to_nat na))
              ++ map (fun i => dim x + Z.of_nat i) (seq 0 (Z.to_nat nc))
              ++ map (fun i => na + Z.of_nat i) (seq 0 (Z.to_nat (dim x - na))) in
  xp <- event_pad 0 nc x ;;
  yp <- event_pad na 0 y ;;
  s <- nonexact_add xp yp ;;
  p <- event_permute perm s ;;
  marginalize p 0 nb.

End Factorizations.

(** Two event variables, for the examples. *)
Definition st2 : StudentT :=
  mkStudentT 0 [1; 2]%Q (mk2 2 [[2; 1]; [1; 3]]%Q) 3 2.

End StudentTOps.

(** ** [pyro/infer/mcmc/hmc.py] *)

Module Hmc.

(** *** Scalars with the IEEE special values

    Energies can be infinite or NaN, and the kernel branches on that.  The
    finite values are rationals. *)

Inductive tfloat : Type :=
| Fin (q : Q)
| PInf
| NInf
| NaN.

Definition tf_neg (x : tfloat) : tfloat :=
  match x with
  | Fin q => Fin (- q)
  | PInf => NInf
  | NInf => PInf
  | NaN => NaN
  end.

Definition tf_add (x y : tfloat) : tfloat :=
  match x, y with
  | NaN, _ => NaN
  | _, NaN => NaN
  | PInf, NInf => NaN
  | NInf, PInf => NaN
  | PInf, _ => PInf
  | _, PInf => PInf
  | NInf, _ => NInf
  | _, NInf => NInf
  | Fin a, Fin b => Fin (a + b)
  end.

Definition tf_sub (x y : tfloat) : tfloat := tf_add x (tf_neg y).

Definition inf_times (positive : bool) (a : Q) : tfloat :=
  match (a ?= 0)%Q with
  | Eq => NaN
  | Gt => if positive then PInf else NInf
  | Lt => if positive then NInf else PInf
  end.

Definition tf_mul (x y : tfloat) : tfloat :=
  match x, y with
  | NaN, _ => NaN
  | _, NaN => NaN
  | Fin a, Fin b => Fin (a * b)
  | Fin a, PInf => inf_times true a
  | PInf, Fin a => inf_times true a
  | Fin a, NInf => inf_times false a
  | NInf, Fin a => inf_times false a
  | PInf, PInf => PInf
  | NInf, NInf => PInf
  | PInf, NInf => NInf
  | NInf, PInf => NInf
  end.

Definition Qltb (a b : Q) : bool := negb (Qle_bool b a).

(** [x < y]: false as soon as one side is NaN. *)
Definition tf_ltb (x y : tfloat) : bool :=
  match x, y with
  | NaN, _ => false
  | _, NaN => false
  | Fin a, Fin b => Qltb a b
  | NInf, NInf => false
  | NInf, _ => true
  | _, NInf => false
  | PInf, _ => false
  | Fin _, PInf => true
  end.

(** [x > y] *)
Definition tf_gtb (x y : tfloat) : bool := tf_ltb y x.

(** [x.clamp(max=m)] *)
Definition tf_clamp_max (m : Q) (x : tfloat) : tfloat :=
  match x with
  | NaN => NaN
  | _ => if tf_ltb (Fin m) x then Fin m else x
  end.

(** Modelled from the spec: [pyro.util.torch_isnan] is imported by
    [hmc.py] and is not among the sources.  The spec does not describe the
    helper; what is used here is what [hmc.py] says about it, by its name
    and by the comment at its call site ("handle the NaN case"): the NaN
    test, false on both infinities. *)
Definition torch_isnan (x : tfloat) : bool :=
  match x with
  | NaN => true
  | _ => false
  end.

(** Modelled from the spec: [pyro.distributions.util.scalar_like(prototype,
    fill_value)] is not among the sources; a scalar holding [fill_value]. *)
Definition scalar_like (prototype fill_value : tfloat) : tfloat := fill_value.

Definition is_finite (x : tfloat) : bool :=
  match x with
  | Fin _ => true
  | _ => false
  end.

(** *** Parameters, momenta and the mass matrix *)

(** A dict from site names to (flattened) tensors, in insertion order. *)
Definition Params := list (string * list tfloat).

Inductive MassMatrix : Type :=
| Diag (v : list tfloat)                       (* [dim() == 1] *)
| Dense (n : nat) (m : list (list tfloat)).    (* [dim() == 2], n columns *)

Fixpoint insert_item (kv : string * list tfloat) (l : Params) : Params :=
  match l with
  | [] => [kv]
  | kv' :: l' =>
      if String.leb (fst kv) (fst kv') then kv :: l
      else kv' :: insert_item kv l'
  end.

(** [sorted(d.items())] *)
Definition sorted_items (d : Params) : Params :=
  fold_right insert_item [] d.

Definition tf_sum (v : list tfloat) : tfloat := fold_right tf_add (Fin 0) v.

(** [u.dot(v)] *)
Definition tf_dot (u v : list tfloat) : result tfloat :=
  if (length u =? length v)%nat
  then Ok (tf_sum (map2 tf_mul u v))
  else Raise RuntimeError.

(** [m.matmul(v)] for a 2-d [m] *)
Definition tf_matmul (n : nat) (m : list (list tfloat)) (v : list tfloat)
  : result (list tfloat) :=
  if (n =? length v)%nat
  then Ok (map (fun row => tf_sum (map2 tf_mul row v)) m)
  else Raise RuntimeError.

(** [torch.cat([r[site_name].reshape(-1) for site_name in sorted(r)])];
    [torch.cat] rejects an empty list. *)
Definition flatten_sorted (r : Params) : result (list tfloat) :=
  match r with
  | [] => Raise RuntimeError
  | _ => Ok (concat (map snd (sorted_items r)))
  end.

(** [HMC._kinetic_energy], given [self.inverse_mass_matrix] *)
Definition _kinetic_energy (inverse_mass_matrix : MassMatrix) (r : Params)
  : result tfloat :=
  r_flat <- flatten_sorted r ;;
  match inverse_mass_matrix with
  | Dense n m =>
      Mr <- tf_matmul n m r_flat ;;
      d <- tf_dot Mr r_flat ;;
      Ok (tf_mul (Fin (1 # 2)) d)
  | Diag v =>
      d <- tf_dot v (map (fun x => tf_mul x x) r_flat) ;;
      Ok (tf_mul (Fin (1 # 2)) d)
  end.

(** [int(q)]: truncation towards zero *)
Definition py_int (q : Q) : Z := Z.quot (Qnum q) (Zpos (Qden q)).

(** [self._direction_threshold = math.log(0.8)], to sixteen digits *)
Definition _direction_threshold : Q :=
  (- (2231435513142097 # 10000000000000000))%Q.

(** [self._max_sliced_energy] *)
Definition _max_sliced_energy : Q := 1000.

(** *** Collaborators that are not among the sources

    The kernel is written against an adapter, a potential function, an
    integrator and a sampling primitive. *)

Class Collaborators (Adapter : Type) : Type := {
  (** [pyro.infer.mcmc.adaptation.WarmupAdapter]: what the kernel reads
      from it and the methods it calls. *)
  adapter_step_size : Adapter -> Q;
  adapter_inverse_mass_matrix : Adapter -> MassMatrix;
  adapter_is_diag_mass : Adapter -> bool;
  adapter_adapt_step_size : Adapter -> bool;
  adapter_configure : Adapter -> option Z -> MassMatrix -> Adapter;
  adapter_step : Adapter -> Z -> Params -> tfloat -> Adapter;
  (** What [reset_step_size_adaptation] does with the step size that the
      search function it was configured with returns. *)
  adapter_restart_from : Adapter -> Q -> Adapter;

  (** The potential function: the one given to the constructor, or the one
      [initialize_model] derives from the model. *)
  potential_fn : Params -> tfloat;
  (** [None] for a kernel built from [potential_fn]; for a kernel built
      from a model, the initial parameters [initialize_model] finds. *)
  model_init_params : option Params;

  (** [pyro.ops.integrator.velocity_verlet(z, r, potential_fn,
      inverse_mass_matrix, step_size, num_steps, z_grads)], which returns
      [(z_new, r_new, z_grads_new, potential_energy_new)]. *)
  velocity_verlet :
    Params -> Params -> MassMatrix -> Q -> Z -> option Params ->
    Params * Params * Params * tfloat;

  (** [pyro.sample]: the k-th draw of the run, of a momentum vector from the
      adapter's [r_dist], and of a [Uniform(0, 1)] variate. *)
  pyro_sample_r : nat -> Adapter -> list tfloat;
  pyro_sample_uniform : nat -> Q;

  (** [x.exp()] on finite values *)
  exp_finite : Q -> tfloat;
  (** [a / b] on Python floats, for [b] other than zero: the quotient
      rounded to a float, an infinity when it overflows. *)
  py_float_div : Q -> Q -> tfloat;

  (** [self.trajectory_length] *)
  trajectory_length : Q
}.

Section Kernel.

Context {Adapter : Type} `{Collaborators Adapter}.

Definition tf_exp (x : tfloat) : tfloat :=
  match x with
  | Fin q => exp_finite q
  | PInf => PInf
  | NInf => Fin 0
  | NaN => NaN
  end.

(** *** Kernel state *)

Record HMC : Type := mkHMC {
  _t : Z;
  _accept_cnt : Z;
  _num_diverging : Z;
  _initial_params : option Params;
  _z_last : option Params;
  _potential_energy_last : option tfloat;
  _z_grads_last : option Params;
  _warmup_steps : option Z;
  _adapter : Adapter;
  draws : nat   (* number of [pyro.sample] calls made so far *)
}.

Definition set_t v s :=
  mkHMC v (_accept_cnt s) (_num_diverging s) (_initial_params s)
    (_z_last s) (_potential_energy_last s) (_z_grads_last s)
    (_warmup_steps s) (_adapter s) (draws s).
Definition set_accept_cnt v s :=
  mkHMC (_t s) v (_num_diverging s) (_initial_params s)
    (_z_last s) (_potential_energy_last s) (_z_grads_last s)
    (_warmup_steps s) (_adapter s) (draws s).
Definition set_num_diverging v s :=
  mkHMC (_t s) (_accept_cnt s) v (_initial_params s)
    (_z_last s) (_potential_energy_last s) (_z_grads_last s)
    (_warmup_steps s) (_adapter s) (draws s).
Definition set_initial_params v s :=
  mkHMC (_t s) (_accept_cnt s) (_num_diverging s) v
    (_z_last s) (_potential_energy_last s) (_z_grads_last s)
    (_warmup_steps s) (_adapter s) (draws s).
Definition set_cache z pe zg s :=
  mkHMC (_t s) (_accept_cnt s) (_num_diverging s) (_initial_params s)
    z pe zg (_warmup_steps s) (_adapter s) (draws s).
Definition set_warmup_steps v s :=
  mkHMC (_t s) (_accept_cnt s) (_num_diverging s) (_initial_params s)
    (_z_last s) (_potential_energy_last s) (_z_grads_last s)
    v (_adapter s) (draws s).
Definition set_adapter v s :=
  mkHMC (_t s) (_accept_cnt s) (_num_diverging s) (_initial_params s)
    (_z_last s) (_potential_energy_last s) (_z_grads_last s)
    (_warmup_steps s) v (draws s).
Definition set_draws v s :=
  mkHMC (_t s) (_accept_cnt s) (_num_diverging s) (_initial_params s)
    (_z_last s) (_potential_energy_last s) (_z_grads_last s)
    (_warmup_steps s) (_adapter s) v.

(** *** Methods: state passing with exceptions

    A method maps the kernel state to an outcome and the state it leaves
    behind; the state changes made before an exception stay.  [None] is
    the outcome of a loop that was cut off by its iteration budget. *)

Definition M (A : Type) : Type := HMC -> option (result A * HMC).

Definition ret {A} (a : A) : M A := fun s => Some (Ok a, s).
Definition raise {A} (e : exn) : M A := fun s => Some (Raise e, s).
Definition cut_off {A} : M A := fun _ => None.
Definition bind {A B} (c : M A) (k : A -> M B) : M B :=
  fun s =>
    match c s with
    | Some (Ok a, s') => k a s'
    | Some (Raise e, s') => Some (Raise e, s')
    | None => None
    end.
Definition get {A} (f : HMC -> A) : M A := fun s => Some (Ok (f s), s).
Definition modify (f : HMC -> HMC) : M unit := fun s => Some (Ok tt, f s).
Definition lift {A} (r : result A) : M A := fun s => Some (r, s).

Notation "'let*' x ':=' c 'in' k" := (bind c (fun x => k))
  (at level 10, x pattern, c at level 100, k at level 200).

(** [HMC.__init__] ends with [self._reset()] and the construction of the
    adapter: the state of a fresh kernel. *)
Definition HMC_init (adapter : Adapter) : HMC :=
  mkHMC 0 0 0 None None None None None adapter 0.

(** [HMC._reset] *)
Definition _reset : M unit :=
  modify (fun s =>
    mkHMC 0 0 0 None None None None None (_adapter s) (draws s)).

(** [HMC.inverse_mass_matrix], [HMC.step_size] *)
Definition inverse_mass_matrix (s : HMC) : MassMatrix :=
  adapter_inverse_mass_matrix (_adapter s).
Definition step_size (s : HMC) : Q := adapter_step_size (_adapter s).

(** [HMC.num_steps]: [max(1, int(self.trajectory_length / self.step_size))],
    a division of Python floats; [int] of an infinity raises
    [OverflowError], [int] of a NaN raises [ValueError]. *)
Definition num_steps : M Z :=
  let* step_size := get step_size in
  if Qeq_bool step_size 0 then raise ZeroDivisionError
  else match py_float_div trajectory_length step_size with
       | Fin quotient => ret (Z.max 1 (py_int quotient))
       | PInf | NInf => raise OverflowError
       | NaN => raise ValueError
       end.

(** [HMC._cache], [HMC.clear_cache], [HMC._fetch_from_cache] *)
Definition _cache (z : Params) (potential_energy : tfloat)
  (z_grads : option Params) : M unit :=
  modify (set_cache (Some z) (Some potential_energy) z_grads).

Definition clear_cache : M unit := modify (set_cache None None None).

Definition _fetch_from_cache
  : M (option Params * option tfloat * option Params) :=
  get (fun s => (_z_last s, _potential_energy_last s, _z_grads_last s)).

(** The loop of [_sample_r]: [r_flat[pos:next_pos].reshape(param.shape)]
    for every site, which fails when the slice is too short. *)
Fixpoint unflatten (r_flat : list tfloat) (items : Params) (pos : nat)
  : result (Params * nat) :=
  match items with
  | [] => Ok ([], pos)
  | (name, param) :: items' =>
      let next_pos := (pos + length param)%nat in
      let piece := firstn (next_pos - pos) (skipn pos r_flat) in
      if (length piece =? length param)%nat then
        rest <- unflatten r_flat items' next_pos ;;
        Ok ((name, piece) :: fst rest, snd rest)
      else Raise RuntimeError
  end.

(** [HMC._sample_r] *)
Definition _sample_r : M (Params * list tfloat) :=
  let* r_dist := get _adapter in
  let* k := get draws in
  let r_flat := pyro_sample_r k r_dist in
  let* _ := modify (set_draws (S k)) in
  let* initial_params := get _initial_params in
  match initial_params with
  | None => raise AttributeError
  | Some ip =>
      let* rp := lift (unflatten r_flat (sorted_items ip) 0) in
      let* _ := lift (py_assert (snd rp =? length r_flat)%nat) in
      ret (fst rp, r_flat)
  end.

(** The block that [_find_reasonable_step_size] runs once before its loop
    and once in every iteration: draw a momentum, take one leapfrog step
    of the given size, return [delta_energy]. *)
Definition trial_delta_energy (z : Params) (potential_energy : tfloat)
  (step_size : Q) : M tfloat :=
  let* rr := _sample_r in
  let r := fst rr in
  let* Minv := get inverse_mass_matrix in
  let* kinetic := lift (_kinetic_energy Minv r) in
  let energy_current := tf_add kinetic potential_energy in
  let '(z_new, r_new, z_grads_new, potential_energy_new) :=
    velocity_verlet z r Minv step_size 1 None in
  let* kinetic_new := lift (_kinetic_energy Minv r_new) in
  let energy_new := tf_add kinetic_new potential_energy_new in
  ret (tf_sub energy_new energy_current).

(** [1 if self._direction_threshold < -delta_energy else -1] *)
Definition direction_of (delta_energy : tfloat) : Z :=
  if tf_ltb (Fin _direction_threshold) (tf_neg delta_energy) then 1
  else -1.

(** The [while direction_new == direction] loop.  It is entered with
    [direction_new == direction], so its body runs before the first
    test; [fuel] bounds the number of iterations. *)
Fixpoint step_size_loop (fuel : nat) (z : Params) (potential_energy : tfloat)
  (direction : Z) (step_size_scale step_size : Q) : M Q :=
  match fuel with
  | O => cut_off
  | S fuel' =>
      let step_size := (step_size_scale * step_size)%Q in
      let* delta_energy := trial_delta_energy z potential_energy step_size in
      let direction_new := direction_of delta_energy in
      if direction_new =? direction
      then step_size_loop fuel' z potential_energy direction
                          step_size_scale step_size
      else ret step_size
  end.

(** [HMC._find_reasonable_step_size] *)
Definition _find_reasonable_step_size (fuel : nat) (z : Params) : M Q :=
  let* step_size := get step_size in
  let potential_energy := potential_fn z in
  let* delta_energy := trial_delta_energy z potential_energy step_size in
  let direction := direction_of delta_energy in
  let step_size_scale := Qpower 2 direction in
  step_size_loop fuel z potential_energy direction step_size_scale
                 step_size.

(** [eye_like(site_value, n)] *)
Definition eye (n : nat) : list (list tfloat) :=
  map (fun i => map (fun j => if (i =? j)%nat then Fin 1 else Fin 0)
                    (seq 0 n))
      (seq 0 n).

(** [HMC._initialize_adapter].  [reset_step_size_adaptation] runs the
    search function it was configured with on the initial parameters and
    restarts dual averaging from the step size found. *)
Definition _initialize_adapter (fuel : nat) (initial_params : Params)
  : M unit :=
  let mass_matrix_size :=
    fold_right Nat.add 0%nat (map (fun kv => length (snd kv)) initial_params) in
  let* is_diag := get (fun s => adapter_is_diag_mass (_adapter s)) in
  let initial_mass_matrix :=
    if is_diag then Diag (repeat (Fin 1) mass_matrix_size)
    else Dense mass_matrix_size (eye mass_matrix_size) in
  let* _ := modify (fun s =>
    set_adapter (adapter_configure (_adapter s) (_warmup_steps s)
                                   initial_mass_matrix) s) in
  let* adapt := get (fun s => adapter_adapt_step_size (_adapter s)) in
  if adapt then
    let* found := _find_reasonable_step_size fuel initial_params in
    modify (fun s => set_adapter (adapter_restart_from (_adapter s) found) s)
  else ret tt.

(** [HMC._initialize_model_properties], as far as the kernel state goes *)
Definition _initialize_model_properties (init_params : Params) : M unit :=
  let* current := get _initial_params in
  match current with
  | None => modify (set_initial_params (Some init_params))
  | Some _ => ret tt
  end.

(** [HMC.setup].  A potential function applied to [None] raises. *)
Definition setup (fuel : nat) (warmup_steps : Z) : M unit :=
  let* _ := modify (set_warmup_steps (Some warmup_steps)) in
  let* _ := match model_init_params with
            | Some init_params => _initialize_model_properties init_params
            | None => ret tt
            end in
  let* initial_params := get _initial_params in
  match initial_params with
  | None => raise TypeError
  | Some ip =>
      let potential_energy := potential_fn ip in
      let* _ := _cache ip potential_energy None in
      if negb (length ip =? 0)%nat then _initialize_adapter fuel ip
      else ret tt
  end.

(** [HMC.cleanup] *)
Definition cleanup : M unit := _reset.

(** [HMC.sample], first part: lines 284-308, up to the computation of
    [delta_energy]. *)
Inductive proposal : Type :=
| EarlyReturn (params : Params)
| Proposed (z z_new z_grads_new : Params)
           (potential_energy_new delta_energy : tfloat).

Definition propose_from (z : Params) (potential_energy : option tfloat)
  (z_grads : option Params) : M proposal :=
  let* rr := _sample_r in
  let r := fst rr in
  let* Minv := get inverse_mass_matrix in
  let* kinetic := lift (_kinetic_energy Minv r) in
  let* potential_energy :=
    lift (match potential_energy with
          | Some e => Ok e
          | None => Raise TypeError
          end) in
  let energy_current := tf_add kinetic potential_energy in
  (* [self._t < self._warmup_steps], the argument of [optional] *)
  let* t := get _t in
  let* warmup_steps := get _warmup_steps in
  let* _ := match warmup_steps with
            | Some w => ret (t <? w)
            | None => raise TypeError
            end in
  let* step_size := get step_size in
  let* num_steps := num_steps in
  let '(z_new, r_new, z_grads_new, potential_energy_new) :=
    velocity_verlet z r Minv step_size num_steps z_grads in
  let* kinetic_new := lift (_kinetic_energy Minv r_new) in
  let energy_proposal := tf_add kinetic_new potential_energy_new in
  let delta_energy := tf_sub energy_proposal energy_current in
  ret (Proposed z z_new z_grads_new potential_energy_new delta_energy).

Definition sample_propose (params : Params) : M proposal :=
  let* cached := _fetch_from_cache in
  let '(z, potential_energy, z_grads) := cached in
  match z with
  | None =>
      (* recompute PE when cache is cleared *)
      let z := params in
      let potential_energy := potential_fn z in
      let* _ := _cache z potential_energy None in
      propose_from z (Some potential_energy) z_grads
  | Some z =>
      if (length z =? 0)%nat then
        (* return early if no sample sites *)
        let* _ := modify (fun s => set_accept_cnt (_accept_cnt s + 1) s) in
        let* _ := modify (fun s => set_t (_t s + 1) s) in
        ret (EarlyReturn params)
      else propose_from z potential_energy z_grads
  end.

(** The value of [delta_energy] after line 311 *)
Definition nan_to_inf (delta_energy : tfloat) : tfloat :=
  if torch_isnan delta_energy then scalar_like delta_energy PInf
  else delta_energy.

(** [(-delta_energy).exp().clamp(max=1.)] *)
Definition accept_prob_of (delta_energy : tfloat) : tfloat :=
  tf_clamp_max 1 (tf_exp (tf_neg delta_energy)).

(** [HMC.sample], second part: lines 311-328. *)
Definition sample_metropolis (z z_new z_grads_new : Params)
  (potential_energy_new delta_energy : tfloat) : M Params :=
  let delta_energy := nan_to_inf delta_energy in
  let* t := get _t in
  let* warmup_steps := get _warmup_steps in
  let* _ :=
    if tf_gtb delta_energy (Fin _max_sliced_energy) then
      match warmup_steps with
      | None => raise TypeError
      | Some w =>
          if t >=? w
          then modify (fun s => set_num_diverging (_num_diverging s + 1) s)
          else ret tt
      end
    else ret tt in
  let accept_prob := accept_prob_of delta_energy in
  let* k := get draws in
  let rand := pyro_sample_uniform k in
  let* _ := modify (set_draws (S k)) in
  let* z :=
    if tf_ltb (Fin rand) accept_prob then
      let* _ := modify (fun s => set_accept_cnt (_accept_cnt s + 1) s) in
      let z := z_new in
      let* _ := _cache z potential_energy_new (Some z_grads_new) in
      ret z
    else ret z in
  let* _ :=
    match warmup_steps with
    | None => raise TypeError
    | Some w =>
        if t <? w
        then modify (fun s =>
               set_adapter (adapter_step (_adapter s) t z accept_prob) s)
        else ret tt
    end in
  let* _ := modify (fun s => set_t (_t s + 1) s) in
  ret z.

(** [HMC.sample] *)
Definition sample (params : Params) : M Params :=
  let* p := sample_propose params in
  match p with
  | EarlyReturn params => ret params
  | Proposed z z_new z_grads_new potential_energy_new delta_energy =>
      sample_metropolis z z_new z_grads_new potential_energy_new
                        delta_energy
  end.

(** [HMC.diagnostics]: the three values, before they are formatted. *)
Record Diagnostics : Type := mkDiagnostics {
  diag_step_size : Q;
  diag_acc_rate : Q;
  diag_diverging : Z
}.

Definition diagnostics : M Diagnostics :=
  let* step_size := get step_size in
  let* accept_cnt := get _accept_cnt in
  let* t := get _t in
  let* acc_rate :=
    if t =? 0 then raise ZeroDivisionError
    else ret (inject_Z accept_cnt / inject_Z t)%Q in
  let* num_diverging := get _num_diverging in
  ret (mkDiagnostics step_size acc_rate num_diverging).

(** *** Sequences of calls *)

Inductive call : Type :=
| CallSetInitialParams (params : Params)   (* [kernel.initial_params = params] *)
| CallSetup (warmup_steps : Z)
| CallSample (params : Params)
| CallDiagnostics
| CallClearCache
| CallCleanup.

(** The state a call leaves behind, when it comes back (normally or with
    an exception). *)
Definition after_call (fuel : nat) (c : call) (s : HMC) : option HMC :=
  match c with
  | CallSetInitialParams params => Some (set_initial_params (Some params) s)
  | CallSetup w => option_map snd (setup fuel w s)
  | CallSample params => option_map snd (sample params s)
  | CallDiagnostics => option_map snd (diagnostics s)
  | CallClearCache => option_map snd (clear_cache s)
  | CallCleanup => option_map snd (cleanup s)
  end.

(** The states after each call of a sequence, up to the first call that
    does not come back. *)
Fixpoint states_after (fuel : nat) (cs : list call) (s : HMC) : list HMC :=
  match cs with
  | [] => []
  | c :: cs' =>
      match after_call fuel c s with
      | Some s' => s' :: states_after fuel cs' s'
      | None => []
      end
  end.

(** *** Vocabulary of the properties below *)

(** A method that comes back leaves the counters as they were. *)
Definition keeps_counters {A} (c : M A) : Prop :=
  forall s r s', c s = Some (r, s') ->
    _t s' = _t s /\ _accept_cnt s' = _accept_cnt s /\
    _num_diverging s' = _num_diverging s.

(** A method that comes back leaves everything but the draw count. *)
Definition only_draws {A} (c : M A) : Prop :=
  forall s r s', c s = Some (r, s') -> exists k, s' = set_draws k s.

(** No method but the step-size search can be cut off. *)
Definition comes_back {A} (c : M A) : Prop :=
  forall s, exists r s', c s = Some (r, s').

(** The Metropolis test and the divergence test of [sample], as
    functions of the number of draws made and of [delta_energy]. *)
Definition accepts (k : nat) (delta_energy : tfloat) : bool :=
  tf_ltb (Fin (pyro_sample_uniform k)) (accept_prob_of (nan_to_inf delta_energy)).

Definition diverges (t w : Z) (delta_energy : tfloat) : bool :=
  tf_gtb (nan_to_inf delta_energy) (Fin _max_sliced_energy) && (t >=? w).

(** The bound on the acceptance counter. *)
Definition counted (s : HMC) : Prop :=
  0 <= _accept_cnt s <= _t s.

(** The direction that [_find_reasonable_step_size] reads off one
    leapfrog step of size [eps] from [z], when [k] draws have been made
    before. *)
Definition direction_at (z : Params) (s : HMC) (k : nat) (eps : Q)
  : option Z :=
  match trial_delta_energy z (potential_fn z) eps (set_draws k s) with
  | Some (Ok delta_energy, _) => Some (direction_of delta_energy)
  | _ => None
  end.





(** The number of entries of all sites together *)
Definition numel (d : Params) : nat :=
  fold_right Nat.add 0%nat (map (fun kv => length (snd kv)) d).

(** The mass matrix has the size of a momentum of [n] entries. *)
Definition mass_matrix_fits (Minv : MassMatrix) (n : nat) : Prop :=
  match Minv with
  | Diag v => length v = n
  | Dense c m => c = n /\ length m = n
  end.

(** A kernel on which [sample] finds what it needs.  [setup] has run:
    there are initial parameters with at least one site, a warm-up length,
    a cached point with its potential energy.  The step size is not zero
    and goes into the trajectory length a finite number of times.  The
    mass matrix and the next momentum draw have the size of the
    parameters. *)
Definition ready (s : HMC) : Prop :=
  exists ip z potential_energy warmup_steps quotient,
    _initial_params s = Some ip /\ ip <> [] /\
    _z_last s = Some z /\ z <> [] /\
    _potential_energy_last s = Some potential_energy /\
    _warmup_steps s = Some warmup_steps /\
    ~ (step_size s == 0)%Q /\
    py_float_div trajectory_length (step_size s) = Fin quotient /\
    mass_matrix_fits (inverse_mass_matrix s) (numel ip) /\
    length (pyro_sample_r (draws s) (_adapter s)) = numel ip.

(** The contract of the integrator on momenta: the momentum it returns
    flattens to a vector of the size of the one it was given (it has the
    same sites, of the same shapes). *)
Definition integrator_keeps_layout : Prop :=
  forall z r Minv step_size num_steps z_grads r_flat,
    flatten_sorted r = Ok r_flat ->
    let '(_, r_new, _, _) :=
      velocity_verlet z r Minv step_size num_steps z_grads in
    exists r_new_flat,
      flatten_sorted r_new = Ok r_new_flat /\
      length r_new_flat = length r_flat.

(** The cache is empty, or holds a point together with the potential
    energy of that point. *)
Definition cache_coherent (s : HMC) : Prop :=
  match _z_last s, _potential_energy_last s with
  | Some z, Some potential_energy => potential_energy = potential_fn z
  | None, None => True
  | _, _ => False
  end.

(** The contract of the integrator that the cache relies on: the
    potential energy it returns is the one of the point it returns. *)
Definition integrator_reports_potential : Prop :=
  forall z r Minv step_size num_steps z_grads,
    let '(z_new, _, _, potential_energy_new) :=
      velocity_verlet z r Minv step_size num_steps z_grads in
    potential_energy_new = potential_fn z_new.

(** The dict has one entry per name, in increasing order of the names:
    what [sorted(d.items())] returns. *)
Fixpoint name_sorted (d : Params) : Prop :=
  match d with
  | [] => True
  | kv :: d' =>
      match d' with
      | [] => True
      | kv' :: _ => String.leb (fst kv) (fst kv') = true
      end /\ name_sorted d'
  end.

End Kernel.

Arguments HMC Adapter : clear implicits.
Arguments M Adapter A : clear implicits.

(** *** A one-site kernel, for the examples

    One site ["x"]; the potential is [+inf] left of the origin, the
    identity on [[0, 3)] and NaN from 3 on.  The integrator moves the site
    by the step size and leaves the momentum alone; every momentum draw is
    1 and every uniform draw 1/2.  The adapter has no state: the step size
    stays 1 and the inverse mass matrix the 1 x 1 identity.  The kernel is
    built from a model whose initial parameters put the site at 0. *)

Definition site_at (x : tfloat) : Params := [("x"%string, [x])].

Definition toy_potential (z : Params) : tfloat :=
  match z with
  | [(_, [Fin q])] =>
      if Qltb q 0 then PInf else if Qltb q 3 then Fin q else NaN
  | _ => NaN
  end.

Definition toy_verlet (z r : Params) (Minv : MassMatrix) (step_size : Q)
  (num_steps : Z) (z_grads : option Params)
  : Params * Params * Params * tfloat :=
  let z_new :=
    match z with
    | [(_, [x])] => site_at (tf_add x (Fin step_size))
    | _ => z
    end in
  (z_new, r, z, toy_potential z_new).

Definition toy_exp (q : Q) : tfloat :=
  match (q ?= 0)%Q with
  | Eq => Fin 1
  | Lt => Fin (1 # 2)
  | Gt => Fin 2
  end.

#[export] Instance toy : Collaborators unit := {|
  adapter_step_size := fun _ => 1%Q;
  adapter_inverse_mass_matrix := fun _ => Diag [Fin 1];
  adapter_is_diag_mass := fun _ => true;
  adapter_adapt_step_size := fun _ => true;
  adapter_configure := fun a _ _ => a;
  adapter_step := fun a _ _ _ => a;
  adapter_restart_from := fun a _ => a;
  potential_fn := toy_potential;
  model_init_params := Some (site_at (Fin 0));
  velocity_verlet := toy_verlet;
  pyro_sample_r := fun _ _ => [Fin 1];
  pyro_sample_uniform := fun _ => (1 # 2)%Q;
  exp_finite := toy_exp;
  py_float_div := fun a b => Fin (a / b);
  trajectory_length := 1%Q
|}.

(** The kernel after [setup(0)], holding the site at [x] with potential
    energy [toy_potential x]. *)
Definition toy_at (x : tfloat) : HMC unit :=
  mkHMC 0 0 0 (Some (site_at (Fin 0))) (Some (site_at x))
        (Some (toy_potential (site_at x))) None (Some 0) tt 0.

(** A run of a fresh one-site kernel: [setup], two [sample] calls,
    [diagnostics]. *)
Definition toy_calls : list call :=
  [CallSetup 0; CallSample []; CallSample []; CallDiagnostics].

(** *** A standard normal target, for the examples

    One site ["x"] with the potential [x^2 / 2], unit mass, and the
    leapfrog integrator of this potential in exact arithmetic.  Every
    momentum draw is [momentum]; every uniform draw is 1/2; the adapter
    has no state and the step size stays 1. *)






End Hmc.

Import Hmc.

(** * Properties *)

(** ** Lists, slices and shapes *)

Section ListFacts.

Context {A B C : Type}.

Lemma map2_length (f : A -> B -> C) (u : list A) (v : list B) :
  length (map2 f u v) = Nat.min (length u) (length v).
Proof.
  revert v; induction u as [|a u IH]; intros [|b v]; simpl; auto.
Qed.

Lemma expand_to_same (n : nat) (l : list A) :
  length l = n -> expand_to n l = l.
Proof.
  intros H. unfold expand_to. now rewrite H, Nat.eqb_refl.
Qed.

Lemma py_slice_prefix_length (n : Z) (l : list A) :
  0 <= n <= Z.of_nat (length l) ->
  length (py_slice None (Some n) l) = Z.to_nat n.
Proof.
  intros H. unfold py_slice, slice_bound.
  destruct (Z.ltb_spec n 0) as [Hn|Hn]; [lia|].
  rewrite length_firstn. simpl skipn. lia.
Qed.

Lemma py_slice_suffix_length (n : Z) (l : list A) :
  0 <= n <= Z.of_nat (length l) ->
  length (py_slice (Some n) None l) = (length l - Z.to_nat n)%nat.
Proof.
  intros H. unfold py_slice, slice_bound.
  destruct (Z.ltb_spec n 0) as [Hn|Hn]; [lia|].
  rewrite length_firstn, length_skipn. lia.
Qed.

End ListFacts.

Lemma bdim_same (n : nat) : bdim n n = Ok n.
Proof. unfold bdim. now rewrite Nat.eqb_refl. Qed.

Lemma columns_length (m : tensor2) : length (columns m) = cols m.
Proof. unfold columns. now rewrite length_map, length_seq. Qed.

Lemma ewise1_same_length (f : Q -> Q -> Q) (u v : tensor1) :
  length u = length v ->
  ewise1 f u v = Ok (map2 f u v).
Proof.
  intros H. unfold ewise1. rewrite <- H, bdim_same. simpl.
  now rewrite !expand_to_same by auto.
Qed.

Lemma shape_eqb_eq (s t : Z * Z) : shape_eqb s t = true <-> s = t.
Proof.
  destruct s as [a b], t as [c d]. unfold shape_eqb. simpl.
  rewrite andb_true_iff, !Z.eqb_eq. split.
  - intros [-> ->]. reflexivity.
  - intros H. inversion H. auto.
Qed.

(** ** [GaussianS] *)

Import GaussianSqrt.

Lemma vsum_cons (x : Q) (v : tensor1) : vsum (x :: v) = (x + vsum v)%Q.
Proof. reflexivity. Qed.

Lemma vsum_scalar_shift (q : Q) (v w : tensor1) :
  length v = length w ->
  (vsum (map2 Qmult v (scalar_ewise1 Qplus q w))
   == q * vsum v + dot v w)%Q.
Proof.
  unfold dot, scalar_ewise1.
  revert w; induction v as [|x v IH]; intros [|y w] H; simpl in H;
    try discriminate.
  - simpl. ring.
  - injection H as H. simpl map. simpl map2. rewrite !vsum_cons.
    rewrite (IH w H). ring.
Qed.

(** What [log_density] computes on an instance the constructor accepts, at
    a value of the event size [n >= 1]: the quadratic term is a 0-d tensor
    by the time [info_vec] is added to it, so it is broadcast over the
    event axis and gets multiplied by every component of [value]. *)
Lemma log_density_computes (g : GaussianS) (value : tensor1) :
  constructed g ->
  size1 value = dim g ->
  1 <= dim g ->
  exists vP r,
    matmul_1_2 value (prec_sqrt g) = Ok vP /\
    log_density g value = Ok r /\
    (r == - (1 # 2) * dot vP vP * vsum value
          + dot value (info_vec g) + log_normalizer g)%Q.
Proof.
  intros Hc Hv Hn. unfold constructed, shape2 in Hc. unfold dim, size1 in *.
  injection Hc as Hrows Hcols.
  assert (Hlen : length value = length (rows (prec_sqrt g))) by lia.
  unfold log_density, size1.
  destruct (Z.eqb_spec (Z.of_nat (length value)) 0) as [H0|H0]; [lia|].
  unfold matmul_1_2. rewrite Hlen, Nat.eqb_refl.
  eexists; eexists. split; [reflexivity|]. simpl rbind.
  rewrite ewise1_same_length
    by (unfold scalar_ewise1; rewrite length_map; lia).
  simpl rbind. split; [reflexivity|].
  rewrite vsum_scalar_shift by lia.
  unfold dot, vpow2.
  assert (E : forall u : tensor1,
             map2 Qmult u u = map (fun x => (x * x)%Q) u).
  { induction u as [|x u IH]; simpl; [reflexivity | now rewrite IH]. }
  rewrite E. ring.
Qed.

Lemma log_density_computes_witness :
  constructed unit2 /\ size1 [1%Q; 1%Q] = dim unit2 /\ 1 <= dim unit2 /\
  exists vP r,
    matmul_1_2 [1%Q; 1%Q] (prec_sqrt unit2) = Ok vP /\
    log_density unit2 [1%Q; 1%Q] = Ok r /\
    (r == - (1 # 2) * dot vP vP * vsum [1%Q; 1%Q]
          + dot [1%Q; 1%Q] (info_vec unit2) + log_normalizer unit2)%Q.
Proof.
  assert (Hc : constructed unit2) by reflexivity.
  assert (Hv : size1 [1%Q; 1%Q] = dim unit2) by reflexivity.
  assert (Hn : 1 <= dim unit2) by (vm_compute; discriminate).
  exact (conj Hc (conj Hv (conj Hn
           (log_density_computes unit2 [1%Q; 1%Q] Hc Hv Hn)))).
Defined.

(** The zero-dimensional case of [log_density]: the normalizer. *)
Lemma log_density_empty (g : GaussianS) :
  log_density g [] = Ok (log_normalizer g).
Proof. reflexivity. Qed.

(** C1 (evaluation at a failing input).  For the one-dimensional Gaussian
    with [log_normalizer = 0], [info_vec = [0]], [prec_sqrt = [[1]]] and the
    value [[2]], the documented density
    [-1/2 * v^T (prec_sqrt @ prec_sqrt^T) v + v^T info_vec + log_normalizer]
    is [-2], and [log_density] returns [-4]. *)
Theorem log_density_differs_from_documented :
  constructed unit1 /\ size1 [2%Q] = dim unit1 /\
  exists r d,
    log_density unit1 [2%Q] = Ok r /\
    documented_log_density unit1 [2%Q] = Ok d /\
    (r == -4)%Q /\ (d == -2)%Q /\ ~ (r == d)%Q.
Proof.
  split; [reflexivity|]. split; [reflexivity|].
  eexists; eexists.
  split; [vm_compute; reflexivity|].
  split; [vm_compute; reflexivity|].
  repeat split; try reflexivity.
  intros H. vm_compute in H. discriminate.
Qed.

(** The square-root factor that [__add__] hands to the constructor has
    as many rows as the operands and twice as many columns. *)
Lemma add_factor_shape (g1 g2 : GaussianS) :
  constructed g1 -> constructed g2 -> dim g1 = dim g2 ->
  exists ps,
    ewise2 Qplus (pad2 0 (Z.to_nat (dim g2)) (prec_sqrt g1))
                 (pad2 (Z.to_nat (dim g1)) 0 (prec_sqrt g2)) = Ok ps /\
    shape2 ps = (dim g1, dim g1 + dim g1).
Proof.
  unfold constructed, shape2, dim, size1.
  intros H1 H2 Hd. injection H1 as Hr1 Hc1. injection H2 as Hr2 Hc2.
  apply Nat2Z.inj in Hr1, Hc1, Hr2, Hc2, Hd.
  unfold ewise2, pad2. cbn [rows cols].
  rewrite !Nat2Z.id, !length_map, Hr1, Hr2, Hc1, Hc2, <- Hd.
  rewrite bdim_same. simpl rbind.
  rewrite Nat.add_0_r, bdim_same. simpl rbind.
  eexists. split; [reflexivity|]. cbn [rows cols].
  rewrite map2_length.
  rewrite !expand_to_same by (rewrite length_map; lia).
  rewrite !length_map, Hr1, Hr2, <- Hd. f_equal; lia.
Qed.

(** With operands of equal dimension, [__add__] comes down to the call of
    the constructor on that factor. *)
Lemma add_calls_constructor (g1 g2 : GaussianS) :
  constructed g1 -> constructed g2 -> dim g1 = dim g2 ->
  exists ps,
    shape2 ps = (dim g1, dim g1 + dim g1) /\
    __add__ g1 g2
    = GaussianS_init (log_normalizer g1 + log_normalizer g2)
                     (map2 Qplus (info_vec g1) (info_vec g2)) ps.
Proof.
  intros H1 H2 Hd. unfold __add__.
  replace (dim g1 =? dim g2) with true by (symmetry; now apply Z.eqb_eq).
  simpl rbind.
  rewrite ewise1_same_length by (unfold dim, size1 in Hd; lia).
  simpl rbind.
  destruct (add_factor_shape g1 g2 H1 H2 Hd) as (ps & -> & Hs).
  simpl rbind. exists ps. split; [exact Hs | reflexivity].
Qed.

(** The constructor rejects a factor with twice as many columns as rows. *)
Lemma init_rejects_wide_factor ln (iv : list Q) (ps : tensor2) (n : Z) :
  size1 iv = n -> shape2 ps = (n, n + n) -> 1 <= n ->
  GaussianS_init ln iv ps = Raise AssertionError.
Proof.
  intros Hi Hs Hn. unfold GaussianS_init.
  replace (shape_eqb _ _) with false; [reflexivity|].
  symmetry. apply not_true_is_false. rewrite shape_eqb_eq, Hs, Hi.
  intros E. injection E as E. lia.
Qed.

(** C2.  On instances the constructor accepts, with one event variable or
    more, [g1 + g2] does not return: the combined factor is [n x 2n] and the
    constructor asserts a square [n x n] one. *)
Theorem add_raises (g1 g2 : GaussianS) :
  constructed g1 -> constructed g2 -> 1 <= dim g1 ->
  __add__ g1 g2 = Raise AssertionError.
Proof.
  intros H1 H2 Hn.
  destruct (Z.eq_dec (dim g1) (dim g2)) as [Hd|Hd].
  - destruct (add_calls_constructor g1 g2 H1 H2 Hd) as (ps & Hs & ->).
    apply init_rejects_wide_factor with (n := dim g1); auto.
    unfold size1. rewrite map2_length.
    unfold dim, size1 in *. lia.
  - unfold __add__. apply Z.eqb_neq in Hd. rewrite Hd. reflexivity.
Qed.

Lemma add_raises_witness :
  constructed unit1 /\ constructed unit1 /\ 1 <= dim unit1 /\
  __add__ unit1 unit1 = Raise AssertionError.
Proof.
  assert (Hc : constructed unit1) by reflexivity.
  assert (Hn : 1 <= dim unit1) by (vm_compute; discriminate).
  exact (conj Hc (conj Hc (conj Hn (add_raises unit1 unit1 Hc Hc Hn)))).
Defined.

(** The factor of [add_factor_shape] on an example: the two factors side
    by side, whose outer product is the sum of the two precisions. *)
Example add_factor_side_by_side :
  let P1 := mk2 2 [[1; 2]; [3; 4]]%Q in
  let P2 := mk2 2 [[5; 6]; [7; 8]]%Q in
  let ps := mk2 4 [[1; 2; 5; 6]; [3; 4; 7; 8]]%Q in
  ewise2 Qplus (pad2 0 2 P1) (pad2 2 0 P2) = Ok ps /\
  (P11 <- matmul_2_2 P1 (transpose P1) ;;
   P22 <- matmul_2_2 P2 (transpose P2) ;;
   ewise2 Qplus P11 P22) = matmul_2_2 ps (transpose ps).
Proof. split; vm_compute; reflexivity. Qed.

(** An instance that the constructor has let through is constructed. *)
Lemma GaussianS_init_constructed ln info p g :
  GaussianS_init ln info p = Ok g ->
  constructed g /\ info_vec g = info /\ prec_sqrt g = p.
Proof.
  unfold GaussianS_init, constructed.
  destruct (shape_eqb (shape2 p) (size1 info, size1 info)) eqn:E;
    simpl; [|discriminate].
  intros Eg. injection Eg as <-. simpl.
  apply shape_eqb_eq in E. auto.
Qed.

(** Padding with integer amounts: what is cropped, and when. *)
Lemma check_crop_spec (left right : Z) (n : nat) :
  check_crop left right n
  = if 0 <=? Z.of_nat n + Z.min left 0 + Z.min right 0
    then Ok tt else Raise RuntimeError.
Proof.
  unfold check_crop.
  destruct (Z.leb_spec 0 (Z.of_nat n + Z.min left 0 + Z.min right 0));
    destruct (Z.leb_spec 0 (Z.of_nat n + Z.min left 0)); try reflexivity.
  lia.
Qed.

Lemma crop_length {A} (left right : Z) (l : list A) :
  0 <= Z.of_nat (length l) + Z.min left 0 + Z.min right 0 ->
  Z.of_nat (length (crop left right l))
  = Z.of_nat (length l) + Z.min left 0 + Z.min right 0.
Proof.
  intros H. unfold crop. rewrite length_firstn, length_skipn. lia.
Qed.

Lemma cropped_size_spec (left right : Z) (n : nat) :
  0 <= Z.of_nat n + Z.min left 0 + Z.min right 0 ->
  Z.of_nat (cropped_size left right n)
  = Z.of_nat n + Z.min left 0 + Z.min right 0.
Proof.
  intros H. unfold cropped_size.
  rewrite crop_length; rewrite repeat_length; [reflexivity | exact H].
Qed.

Lemma crop_nonneg {A} (left right : Z) (l : list A) :
  0 <= left -> 0 <= right -> crop left right l = l.
Proof.
  intros Hl Hr. unfold crop.
  replace (Z.to_nat (- left)) with 0%nat by lia.
  replace (Z.to_nat (- right)) with 0%nat by lia.
  simpl skipn. rewrite Nat.sub_0_r. apply firstn_all.
Qed.

Lemma check_crop_nonneg (left right : Z) (n : nat) :
  0 <= left -> 0 <= right -> check_crop left right n = Ok tt.
Proof.
  intros Hl Hr. rewrite check_crop_spec.
  destruct (Z.leb_spec 0 (Z.of_nat n + Z.min left 0 + Z.min right 0));
    [reflexivity | lia].
Qed.

Lemma pad1_int_nonneg (left right : Z) (v : tensor1) :
  0 <= left -> 0 <= right ->
  pad1_int left right v = Ok (pad1 (Z.to_nat left) (Z.to_nat right) v).
Proof.
  intros Hl Hr. unfold pad1_int.
  now rewrite check_crop_nonneg, crop_nonneg by assumption.
Qed.

Lemma pad2_int_nonneg (left right : Z) (m : tensor2) :
  0 <= left -> 0 <= right ->
  pad2_int left right m = Ok (pad2 (Z.to_nat left) (Z.to_nat right) m).
Proof.
  intros Hl Hr. unfold pad2_int, cropped_size.
  rewrite check_crop_nonneg, crop_nonneg, repeat_length by assumption.
  simpl rbind. do 2 f_equal. destruct m as [c rs]. cbn [rows cols]. f_equal.
  rewrite <- (map_id rs) at 2. apply map_ext. intros r.
  now apply crop_nonneg.
Qed.

Lemma pad2_both_int_nonneg (left right : Z) (m : tensor2) :
  0 <= left -> 0 <= right ->
  pad2_both_int left right m
  = Ok (pad2_both (Z.to_nat left) (Z.to_nat right) m).
Proof.
  intros Hl Hr. unfold pad2_both_int, cropped_size.
  rewrite !check_crop_nonneg, !crop_nonneg, repeat_length by assumption.
  simpl rbind. do 2 f_equal. destruct m as [c rs]. cbn [rows cols]. f_equal.
  rewrite <- (map_id rs) at 2. apply map_ext. intros r.
  now apply crop_nonneg.
Qed.

(** [event_pad] with a pad of one variable or more does not return. *)
Lemma event_pad_raises (left right : Z) (g : GaussianS) :
  constructed g -> 0 <= left -> 0 <= right -> 1 <= left + right ->
  event_pad left right g = Raise AssertionError.
Proof.
  intros Hc Hl Hr Hp. unfold event_pad.
  rewrite pad1_int_nonneg, pad2_int_nonneg by assumption. simpl rbind.
  revert Hc.
  unfold constructed, GaussianS_init, shape2, size1, pad1, pad2.
  intros Hc. injection Hc as Hrows Hcols. cbn [rows cols].
  replace (shape_eqb _ _) with false; [reflexivity|].
  symmetry. apply not_true_is_false. rewrite shape_eqb_eq.
  rewrite length_map, !length_app, !repeat_length.
  intros E. injection E as E1 E2. lia.
Qed.

(** [event_pad] with no pad returns an instance of the same dimension. *)
Lemma event_pad_zero (g : GaussianS) :
  constructed g ->
  exists g', event_pad 0 0 g = Ok g' /\ constructed g' /\ dim g' = dim g.
Proof.
  intros Hc. unfold event_pad.
  rewrite pad1_int_nonneg, pad2_int_nonneg by lia. simpl rbind.
  change (Z.to_nat 0) with 0%nat. unfold GaussianS_init.
  assert (E : shape_eqb (shape2 (pad2 0 0 (prec_sqrt g)))
                (size1 (pad1 0 0 (info_vec g)), size1 (pad1 0 0 (info_vec g)))
              = true).
  { apply shape_eqb_eq. unfold constructed in Hc.
    unfold pad1, pad2, shape2, size1 in *. cbn [rows cols].
    injection Hc as Hrows Hcols.
    rewrite length_map, !length_app. simpl. f_equal; lia. }
  rewrite E. simpl rbind. eexists. split; [reflexivity|]. split.
  - unfold constructed. cbn [prec_sqrt info_vec]. now apply shape_eqb_eq.
  - unfold dim, size1, pad1. cbn [info_vec]. rewrite !length_app. simpl. lia.
Qed.

(** Two zero-dimensional instances can be added. *)
Lemma add_zero_dimensional (g1 g2 : GaussianS) :
  constructed g1 -> constructed g2 -> dim g1 = 0 -> dim g2 = 0 ->
  exists s, __add__ g1 g2 = Ok s.
Proof.
  unfold constructed, shape2, dim, size1, __add__.
  destruct g1 as [ln1 [|a iv1] [c1 [|r rs1]]];
    destruct g2 as [ln2 [|b iv2] [c2 [|r' rs2]]];
    cbn [info_vec prec_sqrt rows cols length];
    intros H1 H2 D1 D2; try discriminate.
  injection H1 as H1. injection H2 as H2.
  destruct c1; [|discriminate]. destruct c2; [|discriminate].
  eexists. vm_compute. reflexivity.
Qed.

(** The exception of [gaussian_tensordotS] on constructed operands: on the
    three zero-dimensional operands the call gets as far as
    [event_permute]; on all others an assertion fails before. *)
Lemma gaussian_tensordotS_exception
  (qr_R : tensor2 -> tensor2) (triangular_solve : tensor2 -> tensor2 -> tensor2)
  (tlog : Q -> Q) (log_2pi : Q) (x y : GaussianS) (dims : Z) :
  constructed x -> constructed y ->
  gaussian_tensordotS qr_R triangular_solve tlog log_2pi x y dims
  = if (dim x =? 0) && (dim y =? 0) && (dims =? 0)
    then Raise NotImplementedError
    else Raise AssertionError.
Proof.
  intros Hx Hy. unfold gaussian_tensordotS.
  assert (Hdx : 0 <= dim x) by (unfold dim, size1; lia).
  assert (Hdy : 0 <= dim y) by (unfold dim, size1; lia).
  assert (Hfalse : forall P : Prop,
            ~ (dim x = 0 /\ dim y = 0 /\ dims = 0) ->
            (dim x =? 0) && (dim y =? 0) && (dims =? 0) = false).
  { intros _ Hn. apply not_true_is_false.
    rewrite !andb_true_iff, !Z.eqb_eq. tauto. }
  destruct (Z.geb_spec (dim x - dims) 0) as [Ha|Ha]; simpl rbind;
    [|rewrite (Hfalse True) by lia; reflexivity].
  destruct (Z.geb_spec dims 0) as [Hb|Hb]; simpl rbind;
    [|rewrite (Hfalse True) by lia; reflexivity].
  destruct (Z.geb_spec (dim y - dims) 0) as [Hc|Hc]; simpl rbind;
    [|rewrite (Hfalse True) by lia; reflexivity].
  destruct (Z.eq_dec (dim y - dims) 0) as [Ec|Ec].
  2:{ rewrite event_pad_raises by (auto; lia). simpl rbind.
      rewrite (Hfalse True) by lia; reflexivity. }
  rewrite Ec.
  destruct (event_pad_zero x Hx) as (xp & -> & Hxp & Dxp). simpl rbind.
  destruct (Z.eq_dec (dim x - dims) 0) as [Ea|Ea].
  2:{ rewrite event_pad_raises by (auto; lia). simpl rbind.
      rewrite (Hfalse True) by lia; reflexivity. }
  rewrite Ea.
  destruct (event_pad_zero y Hy) as (yp & -> & Hyp & Dyp). simpl rbind.
  destruct (Z.eq_dec (dim x) 0) as [E0|E0].
  - destruct (add_zero_dimensional xp yp Hxp Hyp) as (s & ->); try lia.
    simpl rbind.
    replace (_ && _) with true
      by (symmetry; rewrite !andb_true_iff, !Z.eqb_eq; lia).
    reflexivity.
  - destruct (add_calls_constructor xp yp Hxp Hyp) as (ps & Hs & ->);
      [lia|].
    rewrite init_rejects_wide_factor with (n := dim xp); auto; try lia.
    + simpl rbind. rewrite (Hfalse True) by lia; reflexivity.
    + unfold size1. rewrite map2_length. unfold dim, size1 in *. lia.
Qed.

Lemma gaussian_tensordotS_exception_witness :
  constructed unit1 /\ constructed unit1 /\
  gaussian_tensordotS (fun m => m) (fun b _ => b) (fun q => q) 0 unit1 unit1 1
  = Raise AssertionError.
Proof.
  assert (Hc : constructed unit1) by reflexivity.
  exact (conj Hc (conj Hc
           (gaussian_tensordotS_exception (fun m => m) (fun b _ => b)
              (fun q => q) 0 unit1 unit1 1 Hc Hc))).
Defined.

(** C3.  [gaussian_tensordotS] returns on no input: whatever the torch
    primitives do, the call ends in an exception, because
    [event_permute], through which every call that gets that far must go,
    raises [NotImplementedError]. *)
Theorem gaussian_tensordotS_raises
  (qr_R : tensor2 -> tensor2) (triangular_solve : tensor2 -> tensor2 -> tensor2)
  (tlog : Q -> Q) (log_2pi : Q) (x y : GaussianS) (dims : Z) :
  raises (gaussian_tensordotS qr_R triangular_solve tlog log_2pi x y dims).
Proof.
  unfold gaussian_tensordotS, raises.
  destruct (py_assert (dim x - dims >=? 0)) as [[]|e]; simpl rbind; eauto.
  destruct (py_assert (dims >=? 0)) as [[]|e]; simpl rbind; eauto.
  destruct (py_assert (dim y - dims >=? 0)) as [[]|e]; simpl rbind; eauto.
  destruct (event_pad 0 _ x) as [xp|e]; simpl rbind; eauto.
  destruct (event_pad _ 0 y) as [yp|e]; simpl rbind; eauto.
  destruct (__add__ xp yp) as [s|e]; simpl rbind; eauto.
Qed.

(** C4.  On an instance the constructor accepts, [condition] does not
    return for any observation with one component or more: the factor it
    keeps, [prec_sqrt[..., :n, :]], has [n] rows and [dim()] columns, and
    the constructor asserts an [n x n] one.  So
    [g.condition(x[..., k:])] raises for every split point [k < g.dim()]. *)
Theorem condition_raises (g : GaussianS) (value : tensor1) :
  constructed g ->
  1 <= size1 value ->
  condition g value = Raise AssertionError.
Proof.
  intros Hc Hm. unfold condition.
  destruct (Z.leb_spec (size1 value) (size1 (info_vec g))) as [Hle|Hgt];
    [|reflexivity].
  simpl rbind.
  unfold constructed, shape2 in Hc. injection Hc as Hrows Hcols.
  unfold dim, size1 in *. apply Nat2Z.inj in Hrows, Hcols.
  set (n := Z.of_nat (length (info_vec g)) - Z.of_nat (length value)) in *.
  assert (Hn : 0 <= n <= Z.of_nat (length (info_vec g))) by lia.
  assert (Hn' : 0 <= n <= Z.of_nat (length (rows (prec_sqrt g)))) by lia.
  unfold matmul_1_2, row_slice. cbn [rows cols].
  rewrite (py_slice_suffix_length n _ Hn').
  replace (length value =? _)%nat with true
    by (symmetry; apply Nat.eqb_eq; lia).
  simpl rbind.
  unfold matmul_2_1. cbn [rows cols].
  rewrite length_map, columns_length. cbn [cols].
  rewrite Nat.eqb_refl. simpl rbind.
  rewrite ewise1_same_length
    by (rewrite length_map, (py_slice_prefix_length n _ Hn),
          (py_slice_prefix_length n _ Hn'); reflexivity).
  simpl rbind.
  rewrite ewise1_same_length
    by (rewrite (py_slice_suffix_length n _ Hn); lia).
  simpl rbind.
  unfold GaussianS_init.
  replace (shape_eqb _ _) with false; [reflexivity|].
  symmetry. apply not_true_is_false. rewrite shape_eqb_eq.
  unfold shape2, size1. cbn [rows cols].
  intros E. injection E as E1 E2.
  rewrite map2_length, length_map, (py_slice_prefix_length n _ Hn),
    (py_slice_prefix_length n _ Hn'), Nat.min_id in E2.
  lia.
Qed.

Lemma condition_raises_witness :
  constructed unit2 /\ 1 <= size1 [1%Q] /\
  condition unit2 [1%Q] = Raise AssertionError.
Proof.
  assert (Hc : constructed unit2) by reflexivity.
  assert (Hm : 1 <= size1 [1%Q]) by (vm_compute; discriminate).
  exact (conj Hc (conj Hm (condition_raises unit2 [1%Q] Hc Hm))).
Defined.

(** The failing input of the round trip of C4: the two-dimensional standard
    Gaussian, [x = [1, 1]] and the split point [k = 1].  The left-hand side
    [g.condition(x[..., 1:])] raises, the right-hand side [g.log_density(x)]
    is a number. *)
Lemma condition_round_trip_fails :
  condition unit2 (py_slice (Some 1) None [1%Q; 1%Q]) = Raise AssertionError /\
  exists r, log_density unit2 [1%Q; 1%Q] = Ok r.
Proof.
  split; [reflexivity|]. eexists. vm_compute. reflexivity.
Qed.

(** ** [StudentT] *)

(** C5.  [StudentT.condition] returns on no input: its last statement
    calls the name [GammaGaussian], which [studentt.py] neither imports nor
    defines. *)
Theorem studentt_condition_raises (g : StudentTOps.StudentT) (value : tensor1) :
  raises (StudentTOps.condition g value).
Proof.
  unfold StudentTOps.condition, raises.
  destruct (py_assert _) as [[]|e]; simpl rbind; eauto.
  destruct (matmul_2_2 _ _) as [Pb|e]; simpl rbind; eauto.
  destruct (ewise1 _ _ _) as [iv|e]; simpl rbind; eauto.
Qed.

Lemma lookup_GammaGaussian :
  StudentTOps.lookup_global "GammaGaussian" = Raise (NameError "GammaGaussian").
Proof. reflexivity. Qed.

Lemma col_slice_suffix_cols (n : Z) (m : tensor2) :
  0 <= n <= Z.of_nat (cols m) ->
  cols (col_slice (Some n) None m) = (cols m - Z.to_nat n)%nat.
Proof.
  intros H. unfold col_slice. cbn [cols].
  rewrite py_slice_suffix_length; rewrite repeat_length; auto.
Qed.

(** On an instance the constructor accepts and an observation that is not
    longer than the event, the exception is the [NameError]: the new
    [info_vec], [df + m] and [rank - m] are computed, and then lost. *)
Lemma studentt_condition_name_error (g : StudentTOps.StudentT) (value : tensor1) :
  StudentTOps.constructed g ->
  size1 value <= StudentTOps.dim g ->
  StudentTOps.condition g value = Raise (NameError "GammaGaussian").
Proof.
  intros Hc Hle. unfold StudentTOps.condition.
  unfold StudentTOps.dim in *.
  destruct (Z.leb_spec (size1 value) (size1 (StudentTOps.info_vec g)))
    as [_|Hgt]; [|lia].
  simpl rbind.
  unfold StudentTOps.constructed, shape2 in Hc. injection Hc as Hrows Hcols.
  unfold size1 in *. apply Nat2Z.inj in Hrows, Hcols.
  set (n := Z.of_nat (length (StudentTOps.info_vec g))
            - Z.of_nat (length value)) in *.
  assert (Hn : 0 <= n <= Z.of_nat (length (StudentTOps.info_vec g))) by lia.
  assert (Hn' : 0 <= n <= Z.of_nat (length (rows (StudentTOps.precision g))))
    by lia.
  unfold matmul_2_2.
  rewrite col_slice_suffix_cols by (cbn [cols row_slice]; lia).
  cbn [rows cols row_slice unsqueeze_last]. rewrite length_map.
  replace (_ =? _)%nat with true by (symmetry; apply Nat.eqb_eq; lia).
  simpl rbind.
  rewrite ewise1_same_length.
  - reflexivity.
  - unfold squeeze_last, column. cbn [rows].
    rewrite !length_map, (py_slice_prefix_length n _ Hn),
      (py_slice_prefix_length n _ Hn'). reflexivity.
Qed.

Lemma studentt_condition_name_error_witness :
  StudentTOps.constructed StudentTOps.st1 /\
  size1 [0%Q] <= StudentTOps.dim StudentTOps.st1 /\
  StudentTOps.condition StudentTOps.st1 [0%Q]
  = Raise (NameError "GammaGaussian").
Proof.
  assert (Hc : StudentTOps.constructed StudentTOps.st1) by reflexivity.
  assert (Hle : size1 [0%Q] <= StudentTOps.dim StudentTOps.st1)
    by (vm_compute; discriminate).
  exact (conj Hc (conj Hle
           (studentt_condition_name_error StudentTOps.st1 [0%Q] Hc Hle))).
Defined.

(** ** The HMC kernel *)

Section KernelFacts.

Context {Adapter : Type} `{Collaborators Adapter}.

Lemma bind_inv {A B} (c : M Adapter A) (k : A -> M Adapter B) s r s' :
  bind c k s = Some (r, s') ->
  (exists a s1, c s = Some (Ok a, s1) /\ k a s1 = Some (r, s')) \/
  (exists e, c s = Some (Raise e, s') /\ r = Raise e).
Proof.
  unfold bind. destruct (c s) as [[[a|e] s1]|]; intros E.
  - left. eauto.
  - right. injection E as <- <-. eauto.
  - discriminate.
Qed.

Lemma keeps_counters_bind {A B} (c : M Adapter A) (k : A -> M Adapter B) :
  keeps_counters c -> (forall a, keeps_counters (k a)) ->
  keeps_counters (bind c k).
Proof.
  intros Hc Hk s r s' E.
  destruct (bind_inv _ _ _ _ _ E) as [(a & s1 & E1 & E2)|(e & E1 & _)].
  - destruct (Hc _ _ _ E1) as (A1 & A2 & A3).
    destruct (Hk a _ _ _ E2) as (B1 & B2 & B3).
    repeat split; congruence.
  - exact (Hc _ _ _ E1).
Qed.

Lemma keeps_counters_ret {A} (a : A) : keeps_counters (Adapter := Adapter) (ret a).
Proof. intros s r s' E. injection E as _ <-. auto. Qed.

Lemma keeps_counters_raise {A} (e : exn) : keeps_counters (Adapter := Adapter) (@raise _ A e).
Proof. intros s r s' E. injection E as _ <-. auto. Qed.

Lemma keeps_counters_lift {A} (x : result A) : keeps_counters (Adapter := Adapter) (lift x).
Proof. intros s r s' E. injection E as _ <-. auto. Qed.

Lemma keeps_counters_get {A} (f : HMC Adapter -> A) : keeps_counters (get f).
Proof. intros s r s' E. injection E as _ <-. auto. Qed.

Lemma keeps_counters_cut_off {A} : keeps_counters (Adapter := Adapter) (@cut_off _ A).
Proof. intros s r s' E. discriminate. Qed.

Lemma keeps_counters_modify (f : HMC Adapter -> HMC Adapter) :
  (forall s, _t (f s) = _t s /\ _accept_cnt (f s) = _accept_cnt s /\
             _num_diverging (f s) = _num_diverging s) ->
  keeps_counters (modify f).
Proof. intros Hf s r s' E. injection E as _ <-. apply Hf. Qed.

Lemma only_draws_bind {A B} (c : M Adapter A) (k : A -> M Adapter B) :
  only_draws c -> (forall a, only_draws (k a)) -> only_draws (bind c k).
Proof.
  intros Hc Hk s r s' E.
  destruct (bind_inv _ _ _ _ _ E) as [(a & s1 & E1 & E2)|(e & E1 & _)].
  - destruct (Hc _ _ _ E1) as (k1 & ->).
    destruct (Hk a _ _ _ E2) as (k2 & ->).
    exists k2. destruct s; reflexivity.
  - exact (Hc _ _ _ E1).
Qed.

Lemma only_draws_pure {A} (c : M Adapter A) :
  (forall s, exists r, c s = Some (r, s)) -> only_draws c.
Proof.
  intros Hc s r s' E. destruct (Hc s) as (r0 & E0).
  rewrite E0 in E. injection E as _ <-.
  exists (draws s). destruct s; reflexivity.
Qed.

Lemma only_draws_set_draws (k : nat) :
  only_draws (modify (set_draws (Adapter := Adapter) k)).
Proof. intros s r s' E. injection E as _ <-. eexists. reflexivity. Qed.

Ltac counters :=
  repeat first
    [ apply keeps_counters_bind; [|intros ?]
    | apply keeps_counters_ret
    | apply keeps_counters_raise
    | apply keeps_counters_lift
    | apply keeps_counters_get
    | apply keeps_counters_cut_off
    | apply keeps_counters_modify; intros ?; cbn; auto
    | match goal with
      | |- keeps_counters (match ?x with _ => _ end) => destruct x
      | |- keeps_counters (let _ := _ in _) => cbv zeta
      end ].

Ltac draws_only :=
  repeat first
    [ apply only_draws_bind; [|intros ?]
    | apply only_draws_set_draws
    | apply only_draws_pure; intros ?; eexists; reflexivity
    | match goal with
      | |- only_draws (match ?x with _ => _ end) => destruct x
      | |- only_draws (let _ := _ in _) => cbv zeta
      end ].

Lemma _sample_r_counters : keeps_counters _sample_r.
Proof. unfold _sample_r. counters. Qed.

Lemma _sample_r_draws : only_draws _sample_r.
Proof.
  unfold _sample_r. draws_only.
Qed.

Lemma trial_counters z pe eps : keeps_counters (trial_delta_energy z pe eps).
Proof.
  unfold trial_delta_energy. counters; try apply _sample_r_counters.
Qed.

Lemma trial_draws z pe eps : only_draws (trial_delta_energy z pe eps).
Proof.
  unfold trial_delta_energy. draws_only; try apply _sample_r_draws.
Qed.

Lemma step_size_loop_counters fuel z pe d scale eps :
  keeps_counters (step_size_loop fuel z pe d scale eps).
Proof.
  revert eps. induction fuel as [|fuel IH]; intros eps; simpl.
  - apply keeps_counters_cut_off.
  - counters; try apply trial_counters; try apply IH.
Qed.

Lemma _find_reasonable_step_size_counters fuel z :
  keeps_counters (_find_reasonable_step_size fuel z).
Proof.
  unfold _find_reasonable_step_size.
  counters; try apply trial_counters; try apply step_size_loop_counters.
Qed.

Lemma setup_counters fuel w : keeps_counters (setup fuel w).
Proof.
  unfold setup, _initialize_model_properties, _initialize_adapter, _cache.
  counters; try apply _find_reasonable_step_size_counters;
    try apply step_size_loop_counters.
Qed.

Lemma bind_ok_inv {A B} (c : M Adapter A) (k : A -> M Adapter B) s b s' :
  bind c k s = Some (Ok b, s') ->
  exists a s1, c s = Some (Ok a, s1) /\ k a s1 = Some (Ok b, s').
Proof.
  intros E. destruct (bind_inv _ _ _ _ _ E) as [?|(e & _ & ?)];
    [assumption | discriminate].
Qed.

Lemma comes_back_bind {A B} (c : M Adapter A) (k : A -> M Adapter B) :
  comes_back c -> (forall a, comes_back (k a)) -> comes_back (bind c k).
Proof.
  intros Hc Hk s. unfold bind.
  destruct (Hc s) as ([a|e] & s1 & ->); [apply Hk | eauto].
Qed.

Lemma comes_back_pure {A} (c : M Adapter A) :
  (forall s, exists r s', c s = Some (r, s')) -> comes_back c.
Proof. auto. Qed.

Ltac returns :=
  repeat first
    [ apply comes_back_bind; [|intros ?]
    | apply comes_back_pure; intros ?; eexists; eexists; reflexivity
    | match goal with
      | |- comes_back (match ?x with _ => _ end) => destruct x
      | |- comes_back (let _ := _ in _) => cbv zeta
      end ].

Lemma _sample_r_state s r s' :
  _sample_r s = Some (r, s') -> s' = set_draws (S (draws s)) s.
Proof.
  unfold _sample_r, bind, get, modify, lift, raise, ret. cbn.
  destruct (_initial_params s) as [ip|]; cbn.
  - destruct (unflatten _ _ _) as [rp|e]; cbn.
    + destruct (py_assert _) as [[]|e]; cbn; intros E;
        injection E as _ <-; reflexivity.
    + intros E; injection E as _ <-; reflexivity.
  - intros E; injection E as _ <-; reflexivity.
Qed.

Lemma sample_propose_comes_back params : comes_back (sample_propose params).
Proof.
  unfold sample_propose, propose_from, _fetch_from_cache, _cache, num_steps,
    _sample_r.
  returns.
Qed.

Lemma sample_metropolis_comes_back z z_new zg pe d :
  comes_back (sample_metropolis z z_new zg pe d).
Proof. unfold sample_metropolis, _cache. returns. Qed.

(** [sample] always comes back: it has no loop of its own. *)
Lemma sample_comes_back params : comes_back (sample params).
Proof.
  unfold sample. apply comes_back_bind.
  - apply sample_propose_comes_back.
  - intros [p|z z_new zg pe d];
      [returns | apply sample_metropolis_comes_back].
Qed.

(** When the first part of [sample] gets as far as [delta_energy]:
    [setup] has set the warm-up length, one momentum has been drawn, the
    counters are untouched, and [delta_energy] is
    [(kinetic_new + potential_energy_new) - energy_current]. *)
Lemma propose_from_inv z pe zg s p s1 :
  propose_from z pe zg s = Some (Ok p, s1) ->
  exists z_new zgn pen kn ec w,
    p = Proposed z z_new zgn pen (tf_sub (tf_add kn pen) ec) /\
    s1 = set_draws (S (draws s)) s /\
    _warmup_steps s = Some w.
Proof.
  unfold propose_from. intros E.
  apply bind_ok_inv in E. destruct E as (rr & s2 & Er & E).
  apply _sample_r_state in Er. subst s2.
  unfold bind, get, lift, ret, raise, num_steps in E. cbn in E.
  destruct (_kinetic_energy _ (fst rr)) as [ke|e]; [|discriminate].
  destruct pe as [pe|]; [|discriminate]. cbn in E.
  destruct (_warmup_steps s) as [w|] eqn:Ew; [|discriminate]. cbn in E.
  destruct (Qeq_bool _ 0); [discriminate|].
  destruct (py_float_div _ _) as [quotient| | |]; try discriminate.
  cbn in E.
  destruct (velocity_verlet _ _ _ _ _ _) as [[[z_new r_new] zgn] pen].
  destruct (_kinetic_energy _ r_new) as [kn|e]; [|discriminate].
  injection E as <- <-.
  exists z_new, zgn, pen, kn, (tf_add ke pe), w. auto.
Qed.

Lemma sample_propose_inv params s z z_new zg pen d s1 :
  sample_propose params s = Some (Ok (Proposed z z_new zg pen d), s1) ->
  exists kn ec w,
    d = tf_sub (tf_add kn pen) ec /\
    _warmup_steps s1 = Some w /\ _warmup_steps s = Some w /\
    _t s1 = _t s /\ _accept_cnt s1 = _accept_cnt s /\
    _num_diverging s1 = _num_diverging s /\
    _adapter s1 = _adapter s.
Proof.
  unfold sample_propose, _fetch_from_cache, _cache.
  unfold bind at 1. unfold get at 1. cbn.
  destruct (_z_last s) as [z0|].
  - destruct (length z0 =? 0)%nat.
    + unfold bind, modify, ret. cbn. discriminate.
    + intros E. apply propose_from_inv in E.
      destruct E as (z_new' & zgn & pen' & kn & ec & w & Ep & -> & Ew).
      injection Ep as <- <- <- <- ->.
      exists kn, ec, w. cbn. auto 10.
  - unfold bind at 1. unfold modify at 1. cbn.
    intros E. apply propose_from_inv in E.
    destruct E as (z_new' & zgn & pen' & kn & ec & w & Ep & -> & Ew).
    injection Ep as <- <- <- <- ->.
    exists kn, ec, w. cbn in *. auto 10.
Qed.

(** The second part of [sample], once the warm-up length is set: it
    returns, and this is the state it leaves. *)
Lemma sample_metropolis_spec z z_new zg pen d s w :
  _warmup_steps s = Some w ->
  exists z' s',
    sample_metropolis z z_new zg pen d s = Some (Ok z', s') /\
    _t s' = _t s + 1 /\
    _num_diverging s' =
      _num_diverging s + (if diverges (_t s) w d then 1 else 0) /\
    _warmup_steps s' = Some w /\
    if accepts (draws s) d
    then z' = z_new /\ _accept_cnt s' = _accept_cnt s + 1 /\
         _z_last s' = Some z_new /\ _potential_energy_last s' = Some pen /\
         _z_grads_last s' = Some zg
    else z' = z /\ _accept_cnt s' = _accept_cnt s /\
         _z_last s' = _z_last s /\
         _potential_energy_last s' = _potential_energy_last s /\
         _z_grads_last s' = _z_grads_last s.
Proof.
  intros Ew. unfold sample_metropolis, accepts, diverges, _cache.
  unfold bind, get, modify, ret, raise.
  cbn -[tf_ltb tf_gtb accept_prob_of nan_to_inf Z.add Z.ltb Z.geb].
  rewrite Ew.
  destruct (tf_gtb (nan_to_inf d) (Fin _max_sliced_energy));
    destruct (_t s >=? w);
    cbn -[tf_ltb tf_gtb accept_prob_of nan_to_inf Z.add Z.ltb Z.geb];
    destruct (tf_ltb _ (accept_prob_of (nan_to_inf d)));
    cbn -[tf_ltb tf_gtb accept_prob_of nan_to_inf Z.add Z.ltb Z.geb];
    rewrite ?Ew;
    destruct (_t s <? w);
    cbn -[tf_ltb tf_gtb accept_prob_of nan_to_inf Z.add Z.ltb Z.geb];
    eexists; eexists; (split; [reflexivity|]);
    cbn -[Z.add]; repeat split; auto; lia.
Qed.

Lemma propose_from_counters z pe zg : keeps_counters (propose_from z pe zg).
Proof.
  unfold propose_from, num_steps. counters; try apply _sample_r_counters.
Qed.

(** The outcomes of the first part of [sample]. *)
Lemma sample_propose_cases params s r s' :
  sample_propose params s = Some (r, s') ->
  (r = Ok (EarlyReturn params) /\
   _t s' = _t s + 1 /\ _accept_cnt s' = _accept_cnt s + 1 /\
   _num_diverging s' = _num_diverging s)
  \/
  (((exists e, r = Raise e) \/
    (exists z z_new zg pen d, r = Ok (Proposed z z_new zg pen d))) /\
   _t s' = _t s /\ _accept_cnt s' = _accept_cnt s /\
   _num_diverging s' = _num_diverging s).
Proof.
  assert (Hshape : forall z pe zg s0 r0 s0',
    propose_from z pe zg s0 = Some (r0, s0') ->
    (exists e, r0 = Raise e) \/
    (exists z z_new zg pen d, r0 = Ok (Proposed z z_new zg pen d))).
  { intros z pe zg s0 [p|e] s0' E; [right|left; eauto].
    apply propose_from_inv in E.
    destruct E as (z_new & zgn & pen & kn & ec & w & -> & _). eauto 10. }
  unfold sample_propose, _fetch_from_cache, _cache.
  unfold bind at 1. unfold get at 1. cbn -[Z.add].
  destruct (_z_last s) as [z0|].
  - destruct (length z0 =? 0)%nat.
    + unfold bind, modify, ret. cbn -[Z.add]. intros E.
      injection E as <- <-. left. cbn -[Z.add]. auto.
    + intros E. right. split; [exact (Hshape _ _ _ _ _ _ E)|].
      exact (propose_from_counters _ _ _ _ _ _ E).
  - unfold bind at 1. unfold modify at 1. cbn -[Z.add]. intros E.
    right. split; [exact (Hshape _ _ _ _ _ _ E)|].
    exact (propose_from_counters _ _ _ _ _ _ E).
Qed.

(** One call of [sample]: either it raises before anything is counted, or
    it counts one iteration and at most one acceptance. *)
Lemma sample_step params s r s' :
  sample params s = Some (r, s') ->
  ((exists e, r = Raise e) /\
   _t s' = _t s /\ _accept_cnt s' = _accept_cnt s)
  \/
  ((exists z, r = Ok z) /\
   _t s' = _t s + 1 /\
   (_accept_cnt s' = _accept_cnt s \/ _accept_cnt s' = _accept_cnt s + 1)).
Proof.
  unfold sample. intros E.
  destruct (bind_inv _ _ _ _ _ E) as [(p & s1 & E1 & E2)|(e & E1 & ->)].
  - destruct (sample_propose_cases _ _ _ _ E1)
      as [(Ep & Ht & Ha & _)|([(e & Ee)|(z & z_new & zg & pen & d & Ep)]
                              & Ht & Ha & _)].
    + injection Ep as ->. injection E2 as <- <-. right. eauto.
    + discriminate.
    + injection Ep as ->.
      destruct (sample_propose_inv _ _ _ _ _ _ _ _ E1)
        as (kn & ec & w & _ & Ew & _).
      destruct (sample_metropolis_spec z z_new zg pen d s1 w Ew)
        as (z' & s2 & Em & Ht2 & _ & _ & Hacc).
      rewrite Em in E2. injection E2 as <- <-. right.
      split; [eauto|]. split; [lia|].
      destruct (accepts (draws s1) d);
        destruct Hacc as (_ & Ha2 & _); lia.
  - left. split; [eauto|].
    destruct (sample_propose_cases _ _ _ _ E1)
      as [(Ep & _)|(_ & Ht & Ha & _)]; [discriminate | auto].
Qed.

(** An exception of [sample] is an exception of its first part: once
    [delta_energy] has been computed nothing is raised, whatever its
    value. *)
Lemma sample_raises_before_delta_energy params s e s' :
  sample params s = Some (Raise e, s') ->
  sample_propose params s = Some (Raise e, s').
Proof.
  unfold sample. intros E.
  destruct (bind_inv _ _ _ _ _ E) as [(p & s1 & E1 & E2)|(e' & E1 & Ee)].
  - destruct p as [p|z z_new zg pen d]; [discriminate|].
    destruct (sample_propose_inv _ _ _ _ _ _ _ _ E1)
      as (kn & ec & w & _ & Ew & _).
    destruct (sample_metropolis_spec z z_new zg pen d s1 w Ew)
      as (z' & s2 & Em & _).
    rewrite Em in E2. discriminate.
  - injection Ee as ->. exact E1.
Qed.

(** What [diagnostics] does. *)
Lemma diagnostics_spec (s : HMC Adapter) :
  (_t s = 0 -> diagnostics s = Some (Raise ZeroDivisionError, s)) /\
  (_t s <> 0 ->
   diagnostics s =
     Some (Ok (mkDiagnostics (step_size s)
                 (inject_Z (_accept_cnt s) / inject_Z (_t s))
                 (_num_diverging s)), s)).
Proof.
  unfold diagnostics, bind, get, ret, raise. cbn.
  split; intros Ht.
  - rewrite Ht. reflexivity.
  - destruct (Z.eqb_spec (_t s) 0); [contradiction | reflexivity].
Qed.

Lemma after_call_counted fuel c s s' :
  counted s -> after_call fuel c s = Some s' -> counted s'.
Proof.
  unfold counted. intros Hs E.
  destruct c as [params|w|params| | |]; simpl in E.
  - injection E as <-. exact Hs.
  - destruct (setup fuel w s) as [[r s1]|] eqn:Es; [|discriminate].
    injection E as <-.
    destruct (setup_counters fuel w _ _ _ Es) as (-> & -> & _). exact Hs.
  - destruct (sample params s) as [[r s1]|] eqn:Es; [|discriminate].
    injection E as <-.
    destruct (sample_step _ _ _ _ Es) as [(_ & -> & ->)|(_ & -> & [->| ->])];
      lia.
  - destruct (diagnostics_spec s) as [H0 H1].
    destruct (Z.eq_dec (_t s) 0) as [Ht|Ht];
      [rewrite (H0 Ht) in E | rewrite (H1 Ht) in E];
      injection E as <-; exact Hs.
  - injection E as <-. exact Hs.
  - injection E as <-. cbn. lia.
Qed.

Lemma states_after_counted fuel cs s :
  counted s -> Forall counted (states_after fuel cs s).
Proof.
  revert s. induction cs as [|c cs IH]; intros s Hs; simpl.
  - constructor.
  - destruct (after_call fuel c s) as [s'|] eqn:E; [|constructor].
    assert (Hs' : counted s') by exact (after_call_counted _ _ _ _ Hs E).
    constructor; auto.
Qed.

Lemma acc_rate_in_unit_interval (a t : Z) :
  0 <= a <= t -> t <> 0 ->
  (0 <= inject_Z a / inject_Z t <= 1)%Q.
Proof.
  intros Ha Ht.
  assert (Hpos : (0 < inject_Z t)%Q).
  { change 0%Q with (inject_Z 0). rewrite <- Zlt_Qlt. lia. }
  split.
  - apply Qle_shift_div_l; [exact Hpos|].
    rewrite Qmult_0_l. change 0%Q with (inject_Z 0).
    rewrite <- Zle_Qle. lia.
  - apply Qle_shift_div_r; [exact Hpos|].
    rewrite Qmult_1_l. rewrite <- Zle_Qle. lia.
Qed.

(** Special values of [delta_energy] at the Metropolis test. *)
Lemma nan_to_inf_cases (d : tfloat) :
  nan_to_inf NaN = PInf /\ nan_to_inf PInf = PInf /\
  nan_to_inf NInf = NInf /\ (d <> NaN -> nan_to_inf d = d).
Proof.
  repeat split. intros Hd. destruct d; try reflexivity. contradiction.
Qed.

Lemma accept_prob_of_PInf : accept_prob_of PInf = Fin 0.
Proof. reflexivity. Qed.

Lemma accept_prob_of_NInf : accept_prob_of NInf = Fin 1.
Proof. reflexivity. Qed.

Lemma Qltb_false (a b : Q) : (b <= a)%Q -> Qltb a b = false.
Proof.
  intros Hle. unfold Qltb. apply negb_false_iff.
  now apply Qle_bool_iff.
Qed.

Lemma Qltb_true (a b : Q) : (a < b)%Q -> Qltb a b = true.
Proof.
  intros Hlt. unfold Qltb. apply negb_true_iff.
  apply not_true_is_false. rewrite Qle_bool_iff.
  now apply Qlt_not_le.
Qed.

Lemma rejects_PInf (k : nat) :
  (0 <= pyro_sample_uniform k)%Q -> accepts k NaN = false /\ accepts k PInf = false.
Proof.
  intros Hk. unfold accepts. cbn -[Qltb pyro_sample_uniform].
  split; apply Qltb_false; exact Hk.
Qed.

Lemma accepts_NInf (k : nat) :
  (pyro_sample_uniform k < 1)%Q -> accepts k NInf = true.
Proof.
  intros Hk. unfold accepts. cbn -[Qltb pyro_sample_uniform].
  apply Qltb_true; exact Hk.
Qed.

(** A NaN potential energy of the proposal makes [delta_energy] NaN. *)
Lemma nan_potential_nan_delta (kn ec : tfloat) :
  tf_sub (tf_add kn NaN) ec = NaN.
Proof. destruct kn; reflexivity. Qed.

(** C6 (amended).  When the computed [delta_energy] is not finite, the
    rest of [sample] raises nothing.  NaN is replaced by [+inf] before the
    Metropolis test; with NaN or [+inf] the acceptance probability is 0 and
    the proposal is rejected whatever the uniform draw; [-inf] is left as
    it is, the acceptance probability is 1 and the proposal is
    accepted. *)
Theorem non_finite_delta_energy params s z z_new zg pen d s1 :
  (forall k, 0 <= pyro_sample_uniform k < 1)%Q ->
  sample_propose params s = Some (Ok (Proposed z z_new zg pen d), s1) ->
  is_finite d = false ->
  exists z' s2,
    sample params s = Some (Ok z', s2) /\
    match d with
    | NInf =>
        nan_to_inf d = NInf /\ accept_prob_of (nan_to_inf d) = Fin 1 /\
        z' = z_new /\ _accept_cnt s2 = _accept_cnt s + 1 /\
        _z_last s2 = Some z_new
    | _ =>
        nan_to_inf d = PInf /\ accept_prob_of (nan_to_inf d) = Fin 0 /\
        z' = z /\ _accept_cnt s2 = _accept_cnt s /\
        _z_last s2 = _z_last s1
    end.
Proof.
  intros Hu Ep Hd.
  destruct (sample_propose_inv _ _ _ _ _ _ _ _ Ep)
    as (kn & ec & w & _ & Ew & _ & _ & Ha & _).
  destruct (sample_metropolis_spec z z_new zg pen d s1 w Ew)
    as (z' & s2 & Em & _ & _ & _ & Hacc).
  exists z', s2. split.
  - unfold sample, bind. rewrite Ep. exact Em.
  - destruct d as [q| | |]; [discriminate| | |].
    + destruct (rejects_PInf (draws s1)) as [_ Hr]; [apply Hu|].
      rewrite Hr in Hacc. destruct Hacc as (-> & Ha2 & Hz & _).
      repeat split; auto; congruence.
    + rewrite accepts_NInf in Hacc by apply Hu.
      destruct Hacc as (-> & Ha2 & Hz & _).
      repeat split; auto; congruence.
    + destruct (rejects_PInf (draws s1)) as [Hr _]; [apply Hu|].
      rewrite Hr in Hacc. destruct Hacc as (-> & Ha2 & Hz & _).
      repeat split; auto; congruence.
Qed.

(** C10.  With [_t = 0] the division [_accept_cnt / _t] in
    [diagnostics] raises [ZeroDivisionError]; this is the case of a
    fresh kernel, of a kernel after [_reset], and of a fresh kernel after
    [setup].  With [_t >= 1] [diagnostics] returns.  In both cases the
    kernel state is left as it was. *)
Theorem diagnostics_at_zero (s : HMC Adapter) :
  (_t s = 0 -> diagnostics s = Some (Raise ZeroDivisionError, s)) /\
  (1 <= _t s -> exists d, diagnostics s = Some (Ok d, s)) /\
  (forall adapter : Adapter, _t (HMC_init adapter) = 0) /\
  (forall r s', _reset s = Some (r, s') -> _t s' = 0) /\
  (forall fuel w adapter r s',
     setup fuel w (HMC_init adapter) = Some (r, s') -> _t s' = 0).
Proof.
  destruct (diagnostics_spec s) as [H0 H1].
  split; [exact H0|]. split; [|split; [|split]].
  - intros Ht. eexists. apply H1. lia.
  - reflexivity.
  - intros r s' E. injection E as _ <-. reflexivity.
  - intros fuel w adapter r s' E.
    destruct (setup_counters fuel w _ _ _ E) as (-> & _). reflexivity.
Qed.

(** *** The step-size search *)





Lemma step_size_loop_S fuel z pe dir scale eps :
  step_size_loop (S fuel) z pe dir scale eps =
  bind (trial_delta_energy z pe (scale * eps))
       (fun delta_energy =>
          if direction_of delta_energy =? dir
          then step_size_loop fuel z pe dir scale (scale * eps)%Q
          else ret (scale * eps)%Q).
Proof. reflexivity. Qed.













End KernelFacts.

(** ** The one-site kernel *)

Lemma toy_uniform_in_range :
  forall k, (0 <= pyro_sample_uniform (Adapter := unit) k < 1)%Q.
Proof. intros k. split; [discriminate | reflexivity]. Qed.

Lemma toy_uniform_nonneg :
  forall k, (0 <= pyro_sample_uniform (Adapter := unit) k)%Q.
Proof. intros k. discriminate. Qed.

(** From the site at 2 the integrator reaches 3, where the potential is
    NaN. *)
Lemma toy_nan_proposal :
  sample_propose [] (toy_at (Fin 2))
  = Some (Ok (Proposed (site_at (Fin 2)) (site_at (Fin 3)) (site_at (Fin 2))
                       NaN NaN),
          set_draws 1 (toy_at (Fin 2))).
Proof. vm_compute. reflexivity. Qed.

(** From the site at -1, where the potential is [+inf], the integrator
    reaches 0, where it is 0: [delta_energy] is [-inf]. *)
Lemma toy_neg_inf_proposal :
  sample_propose [] (toy_at (Fin (-1)))
  = Some (Ok (Proposed (site_at (Fin (-1))) (site_at (Fin 0))
                       (site_at (Fin (-1))) (Fin 0) NInf),
          set_draws 1 (toy_at (Fin (-1)))).
Proof. vm_compute. reflexivity. Qed.

Lemma non_finite_delta_energy_witness :
  (forall k, 0 <= pyro_sample_uniform (Adapter := unit) k < 1)%Q /\
  sample_propose [] (toy_at (Fin 2))
  = Some (Ok (Proposed (site_at (Fin 2)) (site_at (Fin 3)) (site_at (Fin 2))
                       NaN NaN),
          set_draws 1 (toy_at (Fin 2))) /\
  is_finite NaN = false /\
  exists z' s2,
    sample [] (toy_at (Fin 2)) = Some (Ok z', s2) /\
    nan_to_inf NaN = PInf /\ accept_prob_of (nan_to_inf NaN) = Fin 0 /\
    z' = site_at (Fin 2) /\ _accept_cnt s2 = _accept_cnt (toy_at (Fin 2)) /\
    _z_last s2 = _z_last (set_draws 1 (toy_at (Fin 2))).
Proof.
  exact (conj toy_uniform_in_range (conj toy_nan_proposal (conj eq_refl
    (non_finite_delta_energy [] (toy_at (Fin 2)) _ _ _ _ _ _
       toy_uniform_in_range toy_nan_proposal eq_refl)))).
Defined.

(** C6 (counterexample).  In the one-site kernel holding the site at -1,
    the computed [delta_energy] is [-inf]: it is not finite, it is not
    replaced by [+inf], and the proposal is accepted: [sample] returns the
    proposed state, which differs from the current one, and counts an
    acceptance. *)
Lemma negative_infinite_delta_energy_accepted :
  (forall k, 0 <= pyro_sample_uniform (Adapter := unit) k < 1)%Q /\
  sample_propose [] (toy_at (Fin (-1)))
  = Some (Ok (Proposed (site_at (Fin (-1))) (site_at (Fin 0))
                       (site_at (Fin (-1))) (Fin 0) NInf),
          set_draws 1 (toy_at (Fin (-1)))) /\
  is_finite NInf = false /\
  nan_to_inf NInf <> PInf /\
  exists s2,
    sample [] (toy_at (Fin (-1))) = Some (Ok (site_at (Fin 0)), s2) /\
    site_at (Fin 0) <> site_at (Fin (-1)) /\
    _accept_cnt s2 = _accept_cnt (toy_at (Fin (-1))) + 1.
Proof.
  split; [exact toy_uniform_in_range|].
  split; [exact toy_neg_inf_proposal|].
  split; [reflexivity|].
  split; [discriminate|].
  eexists. split; [vm_compute; reflexivity|].
  split; [discriminate | reflexivity].
Qed.

(** The run of the NaN trajectory, in full: rejected, and counted as a
    divergence since warm-up is over. *)
Example toy_nan_sample :
  exists s2,
    sample [] (toy_at (Fin 2)) = Some (Ok (site_at (Fin 2)), s2) /\
    _accept_cnt s2 = 0 /\ _num_diverging s2 = 1 /\ _t s2 = 1.
Proof. eexists. split; [vm_compute; reflexivity|]. repeat split. Qed.

Lemma Qltb_iff (a b : Q) : Qltb a b = true <-> (a < b)%Q.
Proof.
  unfold Qltb. rewrite negb_true_iff. split.
  - intros E. apply Qnot_le_lt. intros Hle.
    apply Qle_bool_iff in Hle. congruence.
  - intros Hlt. apply not_true_is_false. rewrite Qle_bool_iff.
    now apply Qlt_not_le.
Qed.

Lemma Qltb_false_iff (a b : Q) : Qltb a b = false <-> (b <= a)%Q.
Proof.
  unfold Qltb. rewrite negb_false_iff. apply Qle_bool_iff.
Qed.

(** The direction the search reads in the one-site kernel, from the site
    at 0: one leapfrog step of size [eps] raises the energy by [eps] as long
    as [eps < 3], and ends in NaN from 3 on. *)
Lemma toy_direction_at (k : nat) (eps : Q) :
  (0 < eps)%Q ->
  direction_at (site_at (Fin 0)) (toy_at (Fin 0)) k eps
  = Some (if Qltb eps 3
          then if Qltb _direction_threshold (- eps) then 1 else -1
          else -1).
Proof.
  intros Heps. unfold direction_at, trial_delta_energy.
  unfold bind, get, lift, ret, _sample_r, modify, raise.
  cbn -[Qltb Qmult Qplus Qopp direction_of _direction_threshold].
  f_equal.
  assert (E0 : Qltb (0 + eps) 0 = false).
  { apply Qltb_false_iff. rewrite Qplus_0_l. now apply Qlt_le_weak. }
  assert (E3 : Qltb (0 + eps) 3 = Qltb eps 3).
  { destruct (Qltb eps 3) eqn:E.
    - apply Qltb_iff. rewrite Qplus_0_l. now apply Qltb_iff.
    - apply Qltb_false_iff. rewrite Qplus_0_l. now apply Qltb_false_iff. }
  rewrite E0, E3.
  change (Qltb 0 0) with false. change (Qltb 0 3) with true.
  cbv beta iota.
  destruct (Qltb eps 3); [|reflexivity].
  unfold direction_of, tf_sub, tf_neg, tf_add, tf_ltb.
  destruct (Qltb _direction_threshold (- eps)) eqn:E.
  - replace (Qltb _ _) with true; [reflexivity|].
    symmetry. apply Qltb_iff. apply Qltb_iff in E.
    unfold _direction_threshold in *. lra.
  - replace (Qltb _ _) with false; [reflexivity|].
    symmetry. apply Qltb_false_iff. apply Qltb_false_iff in E.
    unfold _direction_threshold in *. lra.
Qed.

Lemma toy_step_size_pos : (0 < step_size (toy_at (Fin 0)))%Q.
Proof. reflexivity. Qed.

(** The search in the one-site kernel, run: from step size 1 it halves
    three times and returns 1/8; two iterations are not enough. *)
Example toy_step_size_search :
  (exists s', _find_reasonable_step_size 3 (site_at (Fin 0)) (toy_at (Fin 0))
              = Some (Ok (Nat.iter 3 (Qmult (1 # 2)) 1%Q), s')) /\
  _find_reasonable_step_size 2 (site_at (Fin 0)) (toy_at (Fin 0)) = None.
Proof.
  split; [eexists|]; vm_compute; reflexivity.
Qed.

(** The run [toy_calls]: both proposals (from 0 to 1, raising the energy by
    1) are rejected, the uniform draw not being below the acceptance
    probability. *)
Example toy_run_counts :
  map (fun s => (_t s, _accept_cnt s)) (states_after 10 toy_calls (HMC_init tt))
  = [(0, 0); (1, 0); (2, 0); (2, 0)].
Proof. vm_compute. reflexivity. Qed.

Lemma diagnostics_at_zero_witness :
  _t (HMC_init tt) = 0 /\
  diagnostics (HMC_init tt) = Some (Raise ZeroDivisionError, HMC_init tt) /\
  1 <= _t (set_t 1 (toy_at (Fin 0))) /\
  exists d, diagnostics (set_t 1 (toy_at (Fin 0)))
            = Some (Ok d, set_t 1 (toy_at (Fin 0))).
Proof.
  assert (H0 : _t (HMC_init tt) = 0) by reflexivity.
  assert (H1 : 1 <= _t (set_t 1 (toy_at (Fin 0)))) by (vm_compute; discriminate).
  exact (conj H0
          (conj (proj1 (diagnostics_at_zero (HMC_init tt)) H0)
             (conj H1
                (proj1 (proj2 (diagnostics_at_zero (set_t 1 (toy_at (Fin 0)))))
                       H1)))).
Defined.

(** * Further properties *)

(** ** [GaussianS]: padding, marginalization, densities at the wrong size *)

Lemma event_pad_cases (left right : Z) (g : GaussianS) :
  constructed g ->
  GaussianSqrt.event_pad left right g
  = if 0 <=? GaussianSqrt.dim g + Z.min left 0 + Z.min right 0
    then if left + right =? 0
         then Ok (mkGaussianS (GaussianSqrt.log_normalizer g)
                    (pad1 (Z.to_nat left) (Z.to_nat right)
                       (crop left right (GaussianSqrt.info_vec g)))
                    (pad2 (Z.to_nat left) (Z.to_nat right)
                       (mk2 (cropped_size left right (cols (prec_sqrt g)))
                          (map (crop left right) (rows (prec_sqrt g))))))
         else Raise AssertionError
    else Raise RuntimeError.
Proof.
  intros Hc. unfold constructed, shape2 in Hc. injection Hc as Hrows Hcols.
  unfold size1 in *. apply Nat2Z.inj in Hrows, Hcols.
  unfold GaussianSqrt.event_pad, pad1_int, pad2_int, GaussianSqrt.dim, size1.
  rewrite !check_crop_spec, Hcols.
  set (n := length (GaussianSqrt.info_vec g)) in *.
  destruct (Z.leb_spec 0 (Z.of_nat n + Z.min left 0 + Z.min right 0))
    as [Hv|Hv]; [|reflexivity].
  simpl rbind. unfold GaussianS_init, shape2, size1, shape_eqb, pad1, pad2.
  cbn [rows cols fst snd].
  rewrite !length_map, !length_app, !repeat_length, Hrows.
  pose proof (crop_length left right (GaussianSqrt.info_vec g) Hv) as Hl.
  pose proof (cropped_size_spec left right n Hv) as Hs. fold n in Hl.
  destruct (Z.eqb_spec (left + right) 0) as [E|E].
  - replace (_ && _) with true; [reflexivity|].
    symmetry. rewrite andb_true_iff, !Z.eqb_eq. lia.
  - replace (_ && _) with false; [reflexivity|].
    symmetry. apply not_true_is_false. rewrite andb_true_iff, !Z.eqb_eq. lia.
Qed.

(** [GaussianS.event_pad] returns exactly when the two amounts cancel and
    neither crops more than there is ([left + right = 0] and
    [|left| <= dim()]): the instance it returns has the dimension and the
    normalizer of the one it was given, and is that very instance for
    [left = right = 0].  A call that would change the number of variables
    makes the factor wider or narrower than it is high, which the
    constructor rejects: padding by one variable or more raises
    [AssertionError]. *)
Theorem event_pad_returns_iff_balanced (left right : Z) (g : GaussianS) :
  constructed g ->
  ((exists g', GaussianSqrt.event_pad left right g = Ok g')
   <-> left + right = 0 /\ - GaussianSqrt.dim g <= left <= GaussianSqrt.dim g)
  /\
  (forall g', GaussianSqrt.event_pad left right g = Ok g' ->
     constructed g' /\ GaussianSqrt.dim g' = GaussianSqrt.dim g /\
     GaussianSqrt.log_normalizer g' = GaussianSqrt.log_normalizer g)
  /\
  GaussianSqrt.event_pad 0 0 g = Ok g
  /\
  (0 <= left -> 0 <= right -> 1 <= left + right ->
   GaussianSqrt.event_pad left right g = Raise AssertionError).
Proof.
  intros Hc. split; [|split; [|split]].
  - rewrite (event_pad_cases left right g Hc).
    destruct (Z.leb_spec 0 (GaussianSqrt.dim g + Z.min left 0
                            + Z.min right 0)) as [Hv|Hv];
      [destruct (Z.eqb_spec (left + right) 0) as [E|E]|].
    + split; [intros _; lia | intros _; eauto].
    + split; [intros (g' & H); discriminate | lia].
    + split; [intros (g' & H); discriminate | lia].
  - intros g' E.
    destruct (GaussianS_init_constructed
                (GaussianSqrt.log_normalizer g)
                (pad1 (Z.to_nat left) (Z.to_nat right)
                   (crop left right (GaussianSqrt.info_vec g)))
                (pad2 (Z.to_nat left) (Z.to_nat right)
                   (mk2 (cropped_size left right (cols (prec_sqrt g)))
                      (map (crop left right) (rows (prec_sqrt g)))))
                g') as [Hc' _].
    { revert E. unfold GaussianSqrt.event_pad, pad1_int, pad2_int.
      destruct (check_crop _ _ (length _)) as [[]|e]; [|discriminate].
      destruct (check_crop _ _ (cols _)) as [[]|e]; [|discriminate].
      exact (fun E => E). }
    split; [exact Hc'|].
    rewrite (event_pad_cases left right g Hc) in E.
    destruct (Z.leb_spec 0 (GaussianSqrt.dim g + Z.min left 0
                            + Z.min right 0)) as [Hv|Hv]; [|discriminate].
    destruct (Z.eqb_spec (left + right) 0) as [E0|E0]; [|discriminate].
    injection E as <-. cbn [GaussianSqrt.log_normalizer].
    split; [|reflexivity].
    unfold GaussianSqrt.dim, size1 in *. cbn [GaussianSqrt.info_vec].
    unfold pad1. rewrite !length_app, !repeat_length.
    pose proof (crop_length left right (GaussianSqrt.info_vec g) Hv). lia.
  - rewrite (event_pad_cases 0 0 g Hc).
    replace (0 <=? _) with true
      by (symmetry; apply Z.leb_le; unfold GaussianSqrt.dim, size1; lia).
    cbn [Z.add Z.eqb]. f_equal. destruct g as [ln iv [c rs]].
    unfold constructed, shape2, size1 in Hc. cbn [prec_sqrt
      GaussianSqrt.info_vec GaussianSqrt.log_normalizer rows cols] in *.
    unfold pad1, pad2, cropped_size. cbn [rows cols].
    rewrite !crop_nonneg, repeat_length by lia.
    simpl repeat. simpl app. rewrite app_nil_r, Nat.add_0_r. do 2 f_equal.
    rewrite <- (map_id rs) at 2. rewrite map_map. apply map_ext. intros r.
    rewrite crop_nonneg by lia. apply app_nil_r.
  - intros Hl Hr Hp. now apply event_pad_raises.
Qed.

Lemma event_pad_returns_iff_balanced_witness :
  constructed unit2 /\
  (0 <= 0 -> 0 <= 1 -> 1 <= 0 + 1 ->
   GaussianSqrt.event_pad 0 1 unit2 = Raise AssertionError) /\
  exists g', GaussianSqrt.event_pad 1 (-1) unit2 = Ok g'.
Proof.
  assert (Hc : constructed unit2) by reflexivity.
  assert (Hb : 1 + -1 = 0 /\
               - GaussianSqrt.dim unit2 <= 1 <= GaussianSqrt.dim unit2)
    by (vm_compute; repeat split; discriminate).
  exact (conj Hc
    (conj (proj2 (proj2 (proj2
             (event_pad_returns_iff_balanced 0 1 unit2 Hc))))
          (proj2 (proj1 (event_pad_returns_iff_balanced 1 (-1) unit2 Hc))
             Hb))).
Defined.

Lemma matmul_2_2_shape (a b : tensor2) :
  cols a = length (rows b) ->
  exists c, matmul_2_2 a b = Ok c /\ cols c = cols b /\
            length (rows c) = length (rows a).
Proof.
  intros H. unfold matmul_2_2. rewrite H, Nat.eqb_refl.
  eexists. split; [reflexivity|]. cbn [rows cols].
  now rewrite length_map.
Qed.

Lemma matmul_2_2_mismatch (a b : tensor2) :
  cols a <> length (rows b) -> matmul_2_2 a b = Raise RuntimeError.
Proof.
  intros H. unfold matmul_2_2.
  destruct (Nat.eqb_spec (cols a) (length (rows b))); [contradiction|].
  reflexivity.
Qed.

Lemma ewise2_same_shape (f : Q -> Q -> Q) (a b : tensor2) :
  cols a = cols b -> length (rows a) = length (rows b) ->
  exists c, ewise2 f a b = Ok c /\ cols c = cols a /\
            length (rows c) = length (rows a).
Proof.
  intros Hc Hr. unfold ewise2. rewrite Hc, Hr, !bdim_same. simpl rbind.
  eexists. split; [reflexivity|]. cbn [rows cols]. split; [easy|].
  rewrite map2_length, !expand_to_same by easy. rewrite Hr. apply Nat.min_id.
Qed.

Lemma transpose_shape (m : tensor2) :
  cols (transpose m) = length (rows m) /\
  length (rows (transpose m)) = cols m.
Proof. unfold transpose. cbn [rows cols]. now rewrite columns_length. Qed.

Lemma py_slice_range_length {A} (lo hi : Z) (l : list A) :
  0 <= lo <= hi -> hi <= Z.of_nat (length l) ->
  length (py_slice (Some lo) (Some hi) l) = Z.to_nat (hi - lo).
Proof.
  intros H1 H2. unfold py_slice, slice_bound.
  destruct (Z.ltb_spec lo 0); [lia|]. destruct (Z.ltb_spec hi 0); [lia|].
  rewrite length_firstn, length_skipn. lia.
Qed.

(** [GaussianS.marginalize] of one variable or more, on one side, of a
    Gaussian with [n >= 1] variables, does not return.  When fewer than all
    variables are removed, [Psqrt_a_B.matmul(b_tmp)] multiplies an
    [(n - n_b) x n] tensor with an [n_b x 1] one: [RuntimeError].  When all
    are removed, the factor handed to the constructor is [0 x n]:
    [AssertionError].  The only assumption on [torch] is that the solution
    of a triangular system has the shape of its right-hand side. *)
Theorem marginalize_raises
  (qr_R : tensor2 -> tensor2) (triangular_solve : tensor2 -> tensor2 -> tensor2)
  (tlog : Q -> Q) (log_2pi : Q) (g : GaussianS) (left right : Z) :
  (forall b A, shape2 (triangular_solve b A) = shape2 b) ->
  constructed g ->
  0 <= left -> 0 <= right -> left = 0 \/ right = 0 ->
  1 <= left + right <= GaussianSqrt.dim g ->
  GaussianSqrt.marginalize qr_R triangular_solve tlog log_2pi g left right
  = Raise (if left + right <? GaussianSqrt.dim g
           then RuntimeError else AssertionError).
Proof.
  intros Hts Hc Hl Hr Hside Hnb.
  unfold GaussianSqrt.marginalize.
  replace ((left =? 0) && (right =? 0)) with false
    by (symmetry; apply not_true_is_false;
        rewrite andb_true_iff, !Z.eqb_eq; lia).
  replace ((left >? 0) && (right >? 0)) with false
    by (symmetry; apply not_true_is_false;
        rewrite andb_true_iff, !Z.gtb_lt; lia).
  unfold constructed, shape2 in Hc. injection Hc as Hrows Hcols.
  unfold GaussianSqrt.dim, size1 in *. apply Nat2Z.inj in Hrows, Hcols.
  set (n := Z.of_nat (length (GaussianSqrt.info_vec g))) in *.
  set (P := prec_sqrt g) in *.
  (* the two slices *)
  set (a := (Some left, Some (n - right))).
  set (b := if negb (left =? 0) then (None, Some left)
            else (Some (n - right), None)).
  assert (Ha : forall A (l : list A), Z.of_nat (length l) = n ->
             Z.of_nat (length (py_slice (fst a) (snd a) l))
             = n - (left + right)).
  { intros A l Hlen. unfold a. cbn [fst snd].
    rewrite py_slice_range_length by lia. lia. }
  assert (Hb : forall A (l : list A), Z.of_nat (length l) = n ->
             Z.of_nat (length (py_slice (fst b) (snd b) l)) = left + right).
  { intros A l Hlen. unfold b.
    destruct (Z.eqb_spec left 0) as [E|E]; cbn [negb fst snd].
    - rewrite py_slice_suffix_length by lia. lia.
    - rewrite py_slice_prefix_length by lia. lia. }
  assert (HPn : Z.of_nat (length (rows P)) = n) by (unfold n; lia).
  assert (HIn : Z.of_nat (length (GaussianSqrt.info_vec g)) = n)
    by reflexivity.
  set (Psqrt_a := row_slice (fst a) (snd a) P).
  set (Psqrt_b := row_slice (fst b) (snd b) P).
  set (tril := triangularize qr_R Psqrt_b).
  set (B_sqrt := triangular_solve Psqrt_b tril).
  assert (HBs : shape2 B_sqrt = shape2 Psqrt_b) by apply Hts.
  unfold shape2 in HBs. injection HBs as HBr HBc.
  apply Nat2Z.inj in HBr, HBc.
  unfold Psqrt_b, row_slice in HBr, HBc. cbn [rows cols] in HBr, HBc.
  destruct (transpose_shape B_sqrt) as [Tc Tr].
  destruct (matmul_2_2_shape (transpose B_sqrt) B_sqrt Tc)
    as (B & -> & HBcols & HBrows).
  simpl rbind. rewrite Tr in HBrows.
  assert (HPa : cols Psqrt_a = length (rows B))
    by (rewrite HBrows, HBc; reflexivity).
  destruct (matmul_2_2_shape Psqrt_a B HPa) as (PaB & -> & HPaBc & HPaBr).
  simpl rbind.
  assert (Hc1 : cols Psqrt_a = cols PaB)
    by (rewrite HPaBc, HBcols, HBc; reflexivity).
  destruct (ewise2_same_shape Qminus Psqrt_a PaB Hc1 (eq_sym HPaBr))
    as (ps & -> & Hpsc & Hpsr).
  simpl rbind.
  set (b_tmp := triangular_solve _ tril).
  assert (Hbt : shape2 b_tmp = shape2 (unsqueeze_last
                  (py_slice (fst b) (snd b) (GaussianSqrt.info_vec g))))
    by apply Hts.
  unfold shape2, unsqueeze_last in Hbt. cbn [rows cols] in Hbt.
  rewrite length_map in Hbt. injection Hbt as Hbtr Hbtc.
  apply Nat2Z.inj in Hbtr.
  specialize (Hb _ (GaussianSqrt.info_vec g) HIn).
  assert (HcolsP : Z.of_nat (cols PaB) = n)
    by (rewrite HPaBc, HBcols, HBc, Hcols; reflexivity).
  destruct (Z.ltb_spec (left + right) n) as [Hlt|Hge].
  - rewrite matmul_2_2_mismatch by lia. reflexivity.
  - assert (Hm : cols PaB = length (rows b_tmp)) by lia.
    destruct (matmul_2_2_shape PaB b_tmp Hm) as (Pb & -> & HPbc & HPbr).
    simpl rbind.
    assert (Hrows_a : length (rows Psqrt_a) = 0%nat).
    { unfold Psqrt_a, row_slice. cbn [rows].
      specialize (Ha _ (rows P) HPn). lia. }
    assert (Hinfo_a : length (py_slice (Some left) (Some (n - right))
                                (GaussianSqrt.info_vec g)) = 0%nat).
    { specialize (Ha _ (GaussianSqrt.info_vec g) HIn).
      unfold a in Ha. cbn [fst snd] in Ha. lia. }
    rewrite ewise1_same_length
      by (unfold squeeze_last, column;
          rewrite !length_map, Hinfo_a, HPbr, HPaBr, Hrows_a; reflexivity).
    simpl rbind. unfold GaussianS_init.
    replace (shape_eqb _ _) with false; [reflexivity|].
    symmetry. apply not_true_is_false. rewrite shape_eqb_eq.
    unfold shape2, size1. intros E. injection E as E1 E2.
    rewrite map2_length, Hinfo_a in E2. simpl in E2. lia.
Qed.

Lemma marginalize_raises_witness :
  (forall b A : tensor2, shape2 ((fun b _ => b) b A) = shape2 b) /\
  constructed unit2 /\ 0 <= 0 /\ 0 <= 1 /\ (0 = 0 \/ 1 = 0) /\
  1 <= 0 + 1 <= GaussianSqrt.dim unit2 /\
  GaussianSqrt.marginalize (fun m => m) (fun b _ => b) (fun q => q) 0
    unit2 0 1
  = Raise RuntimeError.
Proof.
  assert (Hts : forall b A : tensor2, shape2 ((fun b _ => b) b A) = shape2 b)
    by reflexivity.
  assert (Hc : constructed unit2) by reflexivity.
  assert (H0 : 0 <= 0) by lia. assert (H1 : 0 <= 1) by lia.
  assert (Hs : 0 = 0 \/ 1 = 0) by (left; reflexivity).
  assert (Hn : 1 <= 0 + 1 <= GaussianSqrt.dim unit2)
    by (vm_compute; split; discriminate).
  exact (conj Hts (conj Hc (conj H0 (conj H1 (conj Hs (conj Hn
    (marginalize_raises (fun m => m) (fun b _ => b) (fun q => q) 0
       unit2 0 1 Hts Hc H0 H1 Hs Hn))))))).
Defined.

(** [GaussianS.log_density] at a value whose size is not the dimension:
    a non-empty value raises (the product with [prec_sqrt] has no matching
    axis); the empty value is let through, whatever the dimension, and
    gives the normalizer. *)
Theorem log_density_wrong_size (g : GaussianS) (value : tensor1) :
  constructed g ->
  size1 value <> GaussianSqrt.dim g ->
  log_density g value
  = if size1 value =? 0 then Ok (GaussianSqrt.log_normalizer g)
    else Raise RuntimeError.
Proof.
  intros Hc Hne. unfold log_density.
  destruct (size1 value =? 0); [reflexivity|].
  unfold constructed, shape2 in Hc. injection Hc as Hrows _.
  unfold GaussianSqrt.dim, size1 in *. unfold matmul_1_2.
  replace (_ =? _)%nat with false; [reflexivity|].
  symmetry. apply Nat.eqb_neq. lia.
Qed.

Lemma log_density_wrong_size_witness :
  constructed unit2 /\ size1 [1%Q] <> GaussianSqrt.dim unit2 /\
  log_density unit2 [1%Q] = Raise RuntimeError.
Proof.
  assert (Hc : constructed unit2) by reflexivity.
  assert (Hne : size1 [1%Q] <> GaussianSqrt.dim unit2)
    by (vm_compute; discriminate).
  exact (conj Hc (conj Hne (log_density_wrong_size unit2 [1%Q] Hc Hne))).
Defined.

(** ** [AffineNormalS] and the conversions to [GaussianS] *)

Lemma expand_to_singleton_length {A} (n : nat) (x : A) :
  length (expand_to n [x]) = n.
Proof.
  unfold expand_to. destruct (Nat.eqb_spec (length [x]) n) as [E|E].
  - exact E.
  - apply repeat_length.
Qed.

Lemma bdim_one_r (a : nat) : bdim a 1 = Ok a.
Proof.
  unfold bdim. destruct (Nat.eqb_spec a 1) as [->|E]; [reflexivity|].
  reflexivity.
Qed.

Lemma affine_condition_factor
  (tlog : Q -> Q) (log_2pi : Q) (a : AffineNormalS) (value : tensor1) :
  cols (matrix a) = length (loc a) ->
  length (scale a) = length (loc a) ->
  length value = length (loc a) ->
  exists ln iv ps,
    AffineNormalS_condition tlog log_2pi a value = GaussianS_init ln iv ps /\
    length iv = length (rows (matrix a)) /\
    length (rows ps) = length (rows (matrix a)) /\
    cols ps = cols (matrix a).
Proof.
  intros Hm Hs Hv.
  unfold AffineNormalS_condition, size1.
  rewrite Hv, Z.eqb_refl. simpl rbind.
  unfold ewise2 at 1. cbn [rows cols]. simpl length at 2.
  rewrite bdim_one_r, Hs, Hm, bdim_same. simpl rbind.
  rewrite ewise1_same_length by exact Hv. simpl rbind.
  rewrite ewise1_same_length
    by (rewrite map2_length, Hv, Hs; apply Nat.min_id).
  simpl rbind.
  set (ps := mk2 _ _).
  set (delta := map2 Qdiv _ _).
  assert (Hpr : length (rows ps) = length (rows (matrix a))).
  { unfold ps. cbn [rows]. rewrite map2_length, expand_to_same by reflexivity.
    rewrite expand_to_singleton_length. apply Nat.min_id. }
  assert (Hpc : cols ps = length (rows (unsqueeze_last delta))).
  { unfold ps, delta, unsqueeze_last. cbn [rows cols].
    rewrite length_map, !map2_length, Hv, Hs, !Nat.min_id. reflexivity. }
  destruct (matmul_2_2_shape ps (unsqueeze_last delta) Hpc)
    as (iv & -> & Hivc & Hivr).
  simpl rbind. eexists _, _, ps. split; [reflexivity|].
  unfold squeeze_last, column. rewrite length_map, Hivr, Hpr.
  repeat split.
Qed.

(** [AffineNormalS.condition] on an instance with the documented shapes
    ([matrix] of shape [(x_dim, y_dim)], [loc] and [scale] of shape
    [(y_dim,)]) and a value of [Y]: the factor it builds,
    [matrix / scale], has shape [(x_dim, y_dim)], so the constructor of
    [GaussianS] lets it through exactly when [x_dim = y_dim]; otherwise the
    call raises [AssertionError]. *)
Theorem affine_condition_returns_iff_square
  (tlog : Q -> Q) (log_2pi : Q) (a : AffineNormalS) (value : tensor1) :
  snd (shape2 (matrix a)) = size1 (loc a) ->
  size1 (scale a) = size1 (loc a) ->
  size1 value = size1 (loc a) ->
  (fst (shape2 (matrix a)) = snd (shape2 (matrix a)) ->
   exists g, AffineNormalS_condition tlog log_2pi a value = Ok g /\
             constructed g /\
             GaussianSqrt.dim g = fst (shape2 (matrix a))) /\
  (fst (shape2 (matrix a)) <> snd (shape2 (matrix a)) ->
   AffineNormalS_condition tlog log_2pi a value = Raise AssertionError).
Proof.
  intros Hm Hs Hv. unfold shape2, size1 in *. cbn [fst snd] in *.
  apply Nat2Z.inj in Hm, Hs, Hv.
  destruct (affine_condition_factor tlog log_2pi a value Hm Hs Hv)
    as (ln & iv & ps & -> & Hiv & Hpr & Hpc).
  unfold GaussianS_init, shape2, size1, shape_eqb. cbn [fst snd].
  rewrite Hiv, Hpr, Hpc, Z.eqb_refl, andb_true_l.
  split; intros E.
  - rewrite <- E, Z.eqb_refl. simpl rbind.
    eexists. split; [reflexivity|]. split.
    + unfold constructed, shape2, size1.
      cbn [GaussianSqrt.info_vec prec_sqrt].
      now rewrite Hiv, Hpr, Hpc, <- E.
    + unfold GaussianSqrt.dim, size1. cbn [GaussianSqrt.info_vec].
      now rewrite Hiv.
  - destruct (Z.eqb_spec (Z.of_nat (cols (matrix a)))
                (Z.of_nat (length (rows (matrix a))))) as [E'|E'];
      [congruence | reflexivity].
Qed.

Lemma affine_condition_returns_iff_square_witness :
  snd (shape2 (matrix affine_1_2)) = size1 (loc affine_1_2) /\
  size1 (scale affine_1_2) = size1 (loc affine_1_2) /\
  size1 [1; 1]%Q = size1 (loc affine_1_2) /\
  AffineNormalS_condition (fun q => q) 0 affine_1_2 [1; 1]%Q
  = Raise AssertionError.
Proof.
  assert (Hm : snd (shape2 (matrix affine_1_2)) = size1 (loc affine_1_2))
    by reflexivity.
  assert (Hs : size1 (scale affine_1_2) = size1 (loc affine_1_2))
    by reflexivity.
  assert (Hv : size1 [1; 1]%Q = size1 (loc affine_1_2)) by reflexivity.
  assert (Hne : fst (shape2 (matrix affine_1_2))
                <> snd (shape2 (matrix affine_1_2)))
    by (vm_compute; discriminate).
  exact (conj Hm (conj Hs (conj Hv
    (proj2 (affine_condition_returns_iff_square (fun q => q) 0 affine_1_2
              [1; 1]%Q Hm Hs Hv) Hne)))).
Defined.

Lemma lookup_tranpose : tensor_getattr "tranpose" = Raise AttributeError.
Proof. reflexivity. Qed.

(** [mvn_to_gaussianS] returns for no multivariate normal: the helper
    [_scale_tril_to_prec_sqrt] solves the triangular system and then reads
    the attribute [tranpose] of the solution, which a tensor does not have
    ([AttributeError]). *)
Theorem mvn_to_gaussianS_attribute_error
  (triangular_solve : tensor2 -> tensor2 -> tensor2)
  (tlog : Q -> Q) (log_2pi : Q) (mvn_loc : tensor1) (scale_tril : tensor2) :
  _scale_tril_to_prec_sqrt triangular_solve scale_tril = Raise AttributeError
  /\ mvn_to_gaussianS triangular_solve tlog log_2pi mvn_loc scale_tril
     = Raise AttributeError.
Proof.
  unfold mvn_to_gaussianS, _scale_tril_to_prec_sqrt.
  rewrite lookup_tranpose. split; reflexivity.
Qed.

(** [matrix_and_mvn_to_gaussianS] never returns a [GaussianS]: with a
    diagonal normal it returns the [AffineNormalS] of its arguments, with a
    multivariate normal of the right event size it raises [AttributeError]
    (through [mvn_to_gaussianS]), and in every other case it fails an
    assertion. *)
Theorem matrix_and_mvn_to_gaussianS_cases
  (triangular_solve : tensor2 -> tensor2 -> tensor2)
  (tlog : Q -> Q) (log_2pi : Q) (m : tensor2) (mvn : distribution) :
  matrix_and_mvn_to_gaussianS triangular_solve tlog log_2pi m mvn
  = match mvn with
    | IndependentNormal l s =>
        if (size1 l =? snd (shape2 m)) && (size1 l =? size1 s)
        then Ok (inl (mkAffineNormalS m l s))
        else Raise AssertionError
    | MultivariateNormal l _ =>
        if size1 l =? snd (shape2 m) then Raise AttributeError
        else Raise AssertionError
    | OtherDistribution => Raise AssertionError
    end.
Proof.
  unfold matrix_and_mvn_to_gaussianS. destruct mvn as [l t|l s|];
    cbn [py_assert rbind event_size].
  - destruct (size1 l =? snd (shape2 m)); cbn [py_assert rbind];
      [|reflexivity].
    unfold mvn_to_gaussianS, _scale_tril_to_prec_sqrt.
    rewrite lookup_tranpose. reflexivity.
  - destruct (size1 l =? snd (shape2 m)); cbn [py_assert rbind andb];
      [|reflexivity].
    unfold AffineNormalS_init.
    destruct (size1 l =? size1 s); reflexivity.
  - reflexivity.
Qed.

(** ** [StudentT]: padding and permutation of the event variables *)

Lemma pad1_length (left right : nat) (v : tensor1) :
  length (pad1 left right v) = (left + length v + right)%nat.
Proof. unfold pad1. rewrite !length_app, !repeat_length. lia. Qed.

Lemma pad1_pad1 (l1 r1 l2 r2 : nat) (v : tensor1) :
  pad1 l2 r2 (pad1 l1 r1 v) = pad1 (l2 + l1) (r1 + r2) v.
Proof. unfold pad1. rewrite !repeat_app, <- !app_assoc. reflexivity. Qed.

Lemma pad1_zeros (left right c : nat) :
  pad1 left right (repeat 0%Q c) = repeat 0%Q (left + c + right).
Proof. unfold pad1. rewrite !repeat_app, <- app_assoc. reflexivity. Qed.

Lemma map_repeat {A B} (f : A -> B) (x : A) (n : nat) :
  map f (repeat x n) = repeat (f x) n.
Proof. induction n as [|n IH]; simpl; [reflexivity | now rewrite IH]. Qed.

Lemma pad2_both_shape (left right : nat) (m : tensor2) :
  shape2 (pad2_both left right m)
  = (Z.of_nat left + fst (shape2 m) + Z.of_nat right,
     Z.of_nat left + snd (shape2 m) + Z.of_nat right).
Proof.
  unfold shape2, pad2_both. cbn [rows cols fst snd].
  rewrite !length_app, length_map, !repeat_length. f_equal; lia.
Qed.

Lemma pad2_both_pad2_both (l1 r1 l2 r2 : nat) (m : tensor2) :
  pad2_both l2 r2 (pad2_both l1 r1 m) = pad2_both (l2 + l1) (r1 + r2) m.
Proof.
  unfold pad2_both. cbn [rows cols].
  replace (l2 + (l1 + cols m + r1) + r2)%nat
    with (l2 + l1 + cols m + (r1 + r2))%nat by lia.
  f_equal.
  rewrite !map_app, !map_repeat, map_map, pad1_zeros.
  replace (l2 + (l1 + cols m + r1) + r2)%nat
    with (l2 + l1 + cols m + (r1 + r2))%nat by lia.
  rewrite !repeat_app, <- !app_assoc. do 2 f_equal.
  f_equal. apply map_ext. intros v. apply pad1_pad1.
Qed.

Lemma studentt_event_pad_unfold (left right : Z) (g : StudentTOps.StudentT) :
  0 <= left -> 0 <= right ->
  StudentTOps.event_pad left right g
  = if shape_eqb (shape2 (StudentTOps.precision g))
         (StudentTOps.dim g, StudentTOps.dim g)
    then Ok (StudentTOps.mkStudentT (StudentTOps.log_normalizer g)
               (pad1 (Z.to_nat left) (Z.to_nat right)
                  (StudentTOps.info_vec g))
               (pad2_both (Z.to_nat left) (Z.to_nat right)
                  (StudentTOps.precision g))
               (StudentTOps.df g) (StudentTOps.rank g))
    else Raise AssertionError.
Proof.
  intros Hl Hr. unfold StudentTOps.event_pad.
  rewrite pad1_int_nonneg, pad2_both_int_nonneg by assumption.
  simpl rbind. unfold StudentTOps.StudentT_init, StudentTOps.dim.
  rewrite pad2_both_shape. unfold size1. rewrite pad1_length.
  unfold shape_eqb, shape2. cbn [fst snd].
  set (r := Z.of_nat (length (rows (StudentTOps.precision g)))).
  set (c := Z.of_nat (cols (StudentTOps.precision g))).
  set (n := Z.of_nat (length (StudentTOps.info_vec g))).
  set (a := Z.of_nat (Z.to_nat left)). set (b := Z.of_nat (Z.to_nat right)).
  replace (Z.of_nat (Z.to_nat left + length (StudentTOps.info_vec g)
                     + Z.to_nat right))
    with (a + n + b) by (unfold n, a, b; lia).
  replace (a + r + b =? a + n + b) with (r =? n).
  2:{ destruct (Z.eqb_spec r n) as [E|E]; symmetry;
        [apply Z.eqb_eq | apply Z.eqb_neq]; lia. }
  replace (a + c + b =? a + n + b) with (c =? n).
  2:{ destruct (Z.eqb_spec c n) as [E|E]; symmetry;
        [apply Z.eqb_eq | apply Z.eqb_neq]; lia. }
  destruct ((r =? n) && (c =? n)); reflexivity.
Qed.

(** [StudentT.event_pad], unlike the one of [GaussianS], pads both axes of
    its matrix.  On a constructed instance with [n] variables it returns
    exactly when the negative amounts crop no more than [n] variables in
    all; the result then has [n + left + right] variables and the same
    normalizer, [df] and [rank].  Otherwise it raises [RuntimeError]. *)
Theorem studentt_event_pad_returns
  (left right : Z) (g : StudentTOps.StudentT) :
  StudentTOps.constructed g ->
  (0 <= StudentTOps.dim g + Z.min left 0 + Z.min right 0 ->
   exists g', StudentTOps.event_pad left right g = Ok g' /\
     StudentTOps.constructed g' /\
     StudentTOps.dim g' = StudentTOps.dim g + left + right /\
     StudentTOps.log_normalizer g' = StudentTOps.log_normalizer g /\
     StudentTOps.df g' = StudentTOps.df g /\
     StudentTOps.rank g' = StudentTOps.rank g) /\
  (StudentTOps.dim g + Z.min left 0 + Z.min right 0 < 0 ->
   StudentTOps.event_pad left right g = Raise RuntimeError).
Proof.
  intros Hc. unfold StudentTOps.constructed, shape2 in Hc.
  injection Hc as Hrows Hcols. unfold size1 in *.
  apply Nat2Z.inj in Hrows, Hcols.
  unfold StudentTOps.event_pad, pad1_int, pad2_both_int, StudentTOps.dim,
    size1.
  rewrite !check_crop_spec, Hrows, Hcols.
  set (n := length (StudentTOps.info_vec g)) in *.
  split; intros Hv.
  - destruct (Z.leb_spec 0 (Z.of_nat n + Z.min left 0 + Z.min right 0));
      [|lia].
    simpl rbind. unfold StudentTOps.StudentT_init.
    pose proof (crop_length left right (StudentTOps.info_vec g) Hv) as Hl.
    pose proof (cropped_size_spec left right n Hv) as Hs.
    assert (Hr : Z.of_nat (length (crop left right
                                     (rows (StudentTOps.precision g))))
                 = Z.of_nat n + Z.min left 0 + Z.min right 0)
      by (rewrite crop_length; rewrite Hrows; [reflexivity | exact Hv]).
    fold n in Hl.
    assert (Hshape : shape2
              (pad2_both (Z.to_nat left) (Z.to_nat right)
                 (mk2 (cropped_size left right n)
                    (map (crop left right)
                       (crop left right (rows (StudentTOps.precision g))))))
            = (size1 (pad1 (Z.to_nat left) (Z.to_nat right)
                        (crop left right (StudentTOps.info_vec g))),
               size1 (pad1 (Z.to_nat left) (Z.to_nat right)
                        (crop left right (StudentTOps.info_vec g))))).
    { rewrite pad2_both_shape. unfold shape2, size1. cbn [rows cols fst snd].
      rewrite length_map, pad1_length. f_equal; lia. }
    replace (shape_eqb _ _) with true
      by (symmetry; apply shape_eqb_eq; exact Hshape).
    simpl rbind. eexists. split; [reflexivity|].
    unfold StudentTOps.constructed, StudentTOps.dim.
    cbn [StudentTOps.precision StudentTOps.info_vec StudentTOps.df
         StudentTOps.rank StudentTOps.log_normalizer].
    split; [exact Hshape|]. split; [|auto].
    unfold size1. rewrite pad1_length. lia.
  - destruct (Z.leb_spec 0 (Z.of_nat n + Z.min left 0 + Z.min right 0));
      [lia | reflexivity].
Qed.

Lemma studentt_event_pad_returns_witness :
  StudentTOps.constructed StudentTOps.st2 /\
  0 <= StudentTOps.dim StudentTOps.st2 + Z.min (-1) 0 + Z.min 2 0 /\
  exists g', StudentTOps.event_pad (-1) 2 StudentTOps.st2 = Ok g' /\
    StudentTOps.constructed g' /\
    StudentTOps.dim g' = StudentTOps.dim StudentTOps.st2 + -1 + 2 /\
    StudentTOps.log_normalizer g'
    = StudentTOps.log_normalizer StudentTOps.st2 /\
    StudentTOps.df g' = StudentTOps.df StudentTOps.st2 /\
    StudentTOps.rank g' = StudentTOps.rank StudentTOps.st2.
Proof.
  assert (Hc : StudentTOps.constructed StudentTOps.st2) by reflexivity.
  assert (Hv : 0 <= StudentTOps.dim StudentTOps.st2 + Z.min (-1) 0
                    + Z.min 2 0) by (vm_compute; discriminate).
  exact (conj Hc (conj Hv
    (proj1 (studentt_event_pad_returns (-1) 2 StudentTOps.st2 Hc) Hv))).
Defined.

(** Cropping is not undone by padding: on the two-variable example,
    [g.event_pad(-1, 0).event_pad(1, 0)] returns an instance that differs
    from [g.event_pad(0, 0)]. *)
Lemma studentt_event_pad_crop_then_pad :
  (g1 <- StudentTOps.event_pad (-1) 0 StudentTOps.st2 ;;
   StudentTOps.event_pad 1 0 g1)
  <> StudentTOps.event_pad (1 + -1) (0 + 0) StudentTOps.st2.
Proof. vm_compute. discriminate. Qed.

(** Two paddings by non-negative amounts are one padding by the sums:
    [g.event_pad(l1, r1).event_pad(l2, r2)] and
    [g.event_pad(l2 + l1, r1 + r2)] have the same outcome, on every
    instance (both raise on one the constructor would not have built). *)
Theorem studentt_event_pad_compose
  (l1 r1 l2 r2 : Z) (g : StudentTOps.StudentT) :
  0 <= l1 -> 0 <= r1 -> 0 <= l2 -> 0 <= r2 ->
  (g1 <- StudentTOps.event_pad l1 r1 g ;; StudentTOps.event_pad l2 r2 g1)
  = StudentTOps.event_pad (l2 + l1) (r1 + r2) g.
Proof.
  intros Hl1 Hr1 Hl2 Hr2.
  rewrite (studentt_event_pad_unfold l1 r1 g),
          (studentt_event_pad_unfold (l2 + l1) (r1 + r2) g) by lia.
  destruct (shape_eqb _ _) eqn:E; [|reflexivity].
  simpl rbind. rewrite studentt_event_pad_unfold by assumption.
  apply shape_eqb_eq in E.
  cbn [StudentTOps.precision StudentTOps.info_vec StudentTOps.df
       StudentTOps.rank StudentTOps.log_normalizer].
  replace (shape_eqb _ _) with true.
  - rewrite pad1_pad1, pad2_both_pad2_both.
    now rewrite !Z2Nat.inj_add by assumption.
  - symmetry. apply shape_eqb_eq. rewrite pad2_both_shape, E.
    unfold StudentTOps.dim, size1.
    cbn [fst snd StudentTOps.info_vec]. rewrite pad1_length.
    f_equal; lia.
Qed.

Lemma studentt_event_pad_compose_witness :
  0 <= 1 /\ 0 <= 0 /\ 0 <= 2 /\ 0 <= 1 /\
  (g1 <- StudentTOps.event_pad 1 0 StudentTOps.st2 ;;
   StudentTOps.event_pad 2 1 g1)
  = StudentTOps.event_pad (2 + 1) (0 + 1) StudentTOps.st2.
Proof.
  assert (H1 : 0 <= 1) by lia. assert (H2 : 0 <= 0) by lia.
  assert (H3 : 0 <= 2) by lia.
  exact (conj H1 (conj H2 (conj H3 (conj H1
    (studentt_event_pad_compose 1 0 2 1 StudentTOps.st2 H1 H2 H3 H1))))).
Defined.

Lemma mapM_ok_map {A B} (f : A -> result B) (h : A -> B) (l : list A) :
  (forall a, In a l -> f a = Ok (h a)) -> mapM f l = Ok (map h l).
Proof.
  induction l as [|a l IH]; intros H; [reflexivity|].
  simpl. rewrite (H a (or_introl eq_refl)). simpl rbind.
  rewrite IH by (intros b Hb; apply H; right; exact Hb). reflexivity.
Qed.

Lemma mapM_raise {A B} (f : A -> result B) (e : exn) (l : list A) :
  (forall a, In a l -> f a = Raise e \/ exists b, f a = Ok b) ->
  (exists a, In a l /\ f a = Raise e) ->
  mapM f l = Raise e.
Proof.
  induction l as [|a l IH]; intros Hall (x & Hin & Hx); [destruct Hin|].
  simpl. destruct (Hall a (or_introl eq_refl)) as [->|(b & Hb)];
    [reflexivity|].
  rewrite Hb. simpl rbind.
  destruct Hin as [<-|Hin]; [congruence|].
  rewrite IH; [reflexivity| |exists x; auto].
  intros y Hy. apply Hall. right. exact Hy.
Qed.

Lemma index_at_in_range {A} (l : list A) (d : A) (i : Z) :
  - Z.of_nat (length l) <= i < Z.of_nat (length l) ->
  index_at l i = Ok (nth (Z.to_nat (i mod Z.of_nat (length l))) l d).
Proof.
  intros H. unfold index_at. set (n := Z.of_nat (length l)) in *.
  assert (Hj : (if i <? 0 then i + n else i) = i mod n).
  { destruct (Z.ltb_spec i 0).
    - apply Z.mod_unique with (q := -1); lia.
    - symmetry. apply Z.mod_small. lia. }
  rewrite Hj.
  assert (Hr : 0 <= i mod n < n) by (apply Z.mod_pos_bound; lia).
  destruct (Z.leb_spec 0 (i mod n)); [|lia].
  destruct (Z.ltb_spec (i mod n) n); [|lia]. cbn [andb].
  destruct (nth_error l (Z.to_nat (i mod n))) as [a|] eqn:E.
  - f_equal. symmetry. now apply nth_error_nth.
  - apply nth_error_None in E. unfold n in *. lia.
Qed.

Lemma index_at_out_of_range {A} (l : list A) (i : Z) :
  ~ (- Z.of_nat (length l) <= i < Z.of_nat (length l)) ->
  index_at l i = Raise IndexError.
Proof.
  intros H. unfold index_at. set (n := Z.of_nat (length l)) in *.
  destruct (Z.ltb_spec i 0).
  - destruct (Z.leb_spec 0 (i + n)); [|reflexivity].
    destruct (Z.ltb_spec (i + n) n); [lia | reflexivity].
  - destruct (Z.leb_spec 0 i); [|reflexivity].
    destruct (Z.ltb_spec i n); [lia | reflexivity].
Qed.

Lemma take_in_range {A} (l : list A) (d : A) (perm : list Z) :
  Forall (fun i => - Z.of_nat (length l) <= i < Z.of_nat (length l)) perm ->
  take l perm
  = Ok (map (fun i => nth (Z.to_nat (i mod Z.of_nat (length l))) l d) perm).
Proof.
  intros H. unfold take. apply mapM_ok_map. intros i Hi.
  apply index_at_in_range. rewrite Forall_forall in H. now apply H.
Qed.

Lemma take_out_of_range {A} (l : list A) (perm : list Z) :
  Exists (fun i => ~ (- Z.of_nat (length l) <= i < Z.of_nat (length l)))
    perm ->
  take l perm = Raise IndexError.
Proof.
  intros H. unfold take. apply mapM_raise.
  - intros i _.
    destruct (Z_le_dec (- Z.of_nat (length l)) i) as [H1|H1];
      [destruct (Z_lt_dec i (Z.of_nat (length l))) as [H2|H2]|].
    + right. destruct l as [|d l']; [simpl in *; lia|].
      eexists. apply (index_at_in_range (d :: l') d). lia.
    + left. apply index_at_out_of_range. lia.
    + left. apply index_at_out_of_range. lia.
  - apply Exists_exists in H. destruct H as (i & Hin & Hi).
    exists i. split; [exact Hin|]. now apply index_at_out_of_range.
Qed.

Lemma arange_length (n : nat) : length (arange 0 (Z.of_nat n)) = n.
Proof.
  unfold arange. rewrite length_map, length_seq. lia.
Qed.

Lemma take_arange {A} (l : list A) :
  take l (arange 0 (Z.of_nat (length l))) = Ok l.
Proof.
  destruct l as [|d l']; [reflexivity|].
  set (l := d :: l').
  rewrite (take_in_range l d).
  - f_equal. unfold arange. rewrite map_map.
    replace (Z.to_nat (Z.of_nat (length l) - 0)) with (length l) by lia.
    apply nth_ext with (d := d) (d' := d).
    + now rewrite length_map, length_seq.
    + intros k Hk. rewrite length_map, length_seq in Hk.
      set (f := fun x : nat => nth _ l d).
      rewrite nth_indep with (d' := f 0%nat)
        by (now rewrite length_map, length_seq).
      rewrite map_nth, seq_nth by exact Hk. unfold f.
      rewrite Z.mod_small by lia. f_equal. lia.
  - apply Forall_forall. intros i Hi. unfold arange in Hi.
    apply in_map_iff in Hi. destruct Hi as (k & <- & Hk).
    apply in_seq in Hk. lia.
Qed.

(** [StudentT.event_permute] with the identity permutation
    [arange(g.dim())] returns the instance it was given. *)
Theorem studentt_event_permute_identity (g : StudentTOps.StudentT) :
  StudentTOps.constructed g ->
  well_shaped (StudentTOps.precision g) ->
  StudentTOps.event_permute (arange 0 (StudentTOps.dim g)) g = Ok g.
Proof.
  intros Hc Hw. destruct g as [ln iv [c rs] df rank].
  unfold StudentTOps.constructed, StudentTOps.dim, shape2, size1,
    well_shaped in *.
  cbn [StudentTOps.precision StudentTOps.info_vec rows cols] in *.
  injection Hc as Hr Hcol. apply Nat2Z.inj in Hr, Hcol.
  unfold StudentTOps.event_permute, StudentTOps.dim, size1.
  cbn [StudentTOps.precision StudentTOps.info_vec StudentTOps.df
       StudentTOps.rank StudentTOps.log_normalizer].
  rewrite arange_length, Z.eqb_refl. simpl rbind.
  rewrite take_arange. simpl rbind.
  unfold col_take. cbn [rows cols].
  assert (Hseq : take (seq 0 c) (arange 0 (Z.of_nat (length iv)))
                 = Ok (seq 0 c)).
  { rewrite <- Hcol. pose proof (take_arange (seq 0 c)) as T.
    now rewrite length_seq in T. }
  rewrite Hseq. simpl rbind.
  rewrite (mapM_ok_map _ (fun r => r)).
  2:{ intros r Hin. rewrite Forall_forall in Hw.
      rewrite <- Hcol, <- (Hw r Hin). apply take_arange. }
  rewrite map_id. simpl rbind. unfold row_take. cbn [rows cols].
  rewrite <- Hr at 1. rewrite take_arange. simpl rbind.
  unfold StudentTOps.StudentT_init, shape2, size1, shape_eqb.
  cbn [rows cols fst snd].
  rewrite arange_length, Hr, !Z.eqb_refl. simpl rbind.
  now rewrite Hcol.
Qed.

Lemma studentt_event_permute_identity_witness :
  StudentTOps.constructed StudentTOps.st2 /\
  well_shaped (StudentTOps.precision StudentTOps.st2) /\
  StudentTOps.event_permute (arange 0 (StudentTOps.dim StudentTOps.st2))
    StudentTOps.st2 = Ok StudentTOps.st2.
Proof.
  assert (Hc : StudentTOps.constructed StudentTOps.st2) by reflexivity.
  assert (Hw : well_shaped (StudentTOps.precision StudentTOps.st2))
    by (repeat constructor).
  exact (conj Hc (conj Hw
    (studentt_event_permute_identity StudentTOps.st2 Hc Hw))).
Defined.

(** [StudentT.event_permute] with an index tensor of the right length
    whose entries all lie in [[-n, n)]: the call returns, the new
    information vector has entry [perm[i]] of the old one at position [i],
    and the new precision has entry [(perm[i], perm[j])] of the old one at
    [(i, j)] (negative entries count from the end); the normalizer, [df]
    and [rank] are kept. *)
Theorem studentt_event_permute_entries
  (perm : list Z) (g : StudentTOps.StudentT) :
  StudentTOps.constructed g ->
  well_shaped (StudentTOps.precision g) ->
  Z.of_nat (length perm) = StudentTOps.dim g ->
  Forall (fun i => - StudentTOps.dim g <= i < StudentTOps.dim g) perm ->
  let at_ := fun i : Z => Z.to_nat (i mod StudentTOps.dim g) in
  StudentTOps.event_permute perm g
  = Ok (StudentTOps.mkStudentT (StudentTOps.log_normalizer g)
          (map (fun i => nth (at_ i) (StudentTOps.info_vec g) 0%Q) perm)
          (mk2 (length perm)
             (map (fun i =>
                     map (fun j =>
                            nth (at_ j)
                              (nth (at_ i)
                                 (rows (StudentTOps.precision g)) [])
                              0%Q)
                       perm)
                perm))
          (StudentTOps.df g) (StudentTOps.rank g)).
Proof.
  intros Hc Hw Hlen Hin at_. destruct g as [ln iv [c rs] df rank].
  unfold StudentTOps.constructed, StudentTOps.dim, shape2, size1,
    well_shaped in *.
  cbn [StudentTOps.precision StudentTOps.info_vec StudentTOps.df
       StudentTOps.rank StudentTOps.log_normalizer rows cols] in *.
  injection Hc as Hr Hcol. apply Nat2Z.inj in Hr, Hcol.
  unfold StudentTOps.event_permute, StudentTOps.dim, size1.
  cbn [StudentTOps.precision StudentTOps.info_vec StudentTOps.df
       StudentTOps.rank StudentTOps.log_normalizer].
  rewrite Hlen, Z.eqb_refl. simpl rbind.
  rewrite (take_in_range iv 0%Q) by exact Hin. simpl rbind.
  unfold col_take. cbn [rows cols].
  rewrite (take_in_range (seq 0 c) 0%nat)
    by (now rewrite length_seq, Hcol).
  simpl rbind.
  rewrite (mapM_ok_map _ (fun r => map (fun j => nth (at_ j) r 0%Q) perm)).
  2:{ intros r Hr'. rewrite Forall_forall in Hw.
      rewrite (take_in_range r 0%Q); rewrite (Hw r Hr'), Hcol;
        [reflexivity | exact Hin]. }
  simpl rbind. unfold row_take. cbn [rows cols].
  rewrite (take_in_range _ []) by (now rewrite length_map, Hr).
  simpl rbind. rewrite length_map, Hr.
  unfold StudentTOps.StudentT_init, shape2, size1, shape_eqb.
  cbn [rows cols fst snd]. rewrite !length_map, !Z.eqb_refl. simpl rbind.
  do 3 f_equal. apply map_ext_in. intros i Hi.
  rewrite Forall_forall in Hin. specialize (Hin i Hi).
  fold (at_ i).
  assert (Hlt : (at_ i < length rs)%nat).
  { unfold at_. rewrite Hr.
    assert (0 <= i mod Z.of_nat (length iv) < Z.of_nat (length iv))
      by (apply Z.mod_pos_bound; lia).
    lia. }
  set (f := fun r : list Q => map (fun j => nth (at_ j) r 0%Q) perm).
  rewrite nth_indep with (d' := f []) by (now rewrite length_map).
  now rewrite map_nth.
Qed.

Lemma studentt_event_permute_entries_witness :
  StudentTOps.constructed StudentTOps.st2 /\
  well_shaped (StudentTOps.precision StudentTOps.st2) /\
  Z.of_nat (length [1; -2]) = StudentTOps.dim StudentTOps.st2 /\
  Forall (fun i => - StudentTOps.dim StudentTOps.st2 <= i
                   < StudentTOps.dim StudentTOps.st2) [1; -2] /\
  StudentTOps.event_permute [1; -2] StudentTOps.st2
  = Ok (StudentTOps.mkStudentT 0 [2; 1]%Q (mk2 2 [[3; 1]; [1; 2]]%Q) 3 2).
Proof.
  assert (Hc : StudentTOps.constructed StudentTOps.st2) by reflexivity.
  assert (Hw : well_shaped (StudentTOps.precision StudentTOps.st2))
    by (repeat constructor).
  assert (Hl : Z.of_nat (length [1; -2]) = StudentTOps.dim StudentTOps.st2)
    by reflexivity.
  assert (Hin : Forall (fun i => - StudentTOps.dim StudentTOps.st2 <= i
                                 < StudentTOps.dim StudentTOps.st2) [1; -2])
    by (repeat constructor; vm_compute; discriminate).
  exact (conj Hc (conj Hw (conj Hl (conj Hin
    (studentt_event_permute_entries [1; -2] StudentTOps.st2
       Hc Hw Hl Hin))))).
Defined.

(** [StudentT.event_permute] checks its index tensor in two steps: a wrong
    length fails the assertion, and an entry outside [[-n, n)] in a tensor
    of the right length raises [IndexError]. *)
Theorem studentt_event_permute_rejects
  (perm : list Z) (g : StudentTOps.StudentT) :
  (Z.of_nat (length perm) <> StudentTOps.dim g ->
   StudentTOps.event_permute perm g = Raise AssertionError) /\
  (Z.of_nat (length perm) = StudentTOps.dim g ->
   Exists (fun i => ~ (- StudentTOps.dim g <= i < StudentTOps.dim g)) perm ->
   StudentTOps.event_permute perm g = Raise IndexError).
Proof.
  unfold StudentTOps.event_permute. split.
  - intros H. apply Z.eqb_neq in H. now rewrite H.
  - intros H Hex. rewrite H, Z.eqb_refl. simpl rbind.
    rewrite take_out_of_range by exact Hex. reflexivity.
Qed.

(** ** [StudentT]: the operations that do not return *)

Lemma rbind_not_ok {A B} (c : result A) (k : A -> result B) (b : B) :
  (forall a, k a <> Ok b) -> rbind c k <> Ok b.
Proof. intros H. destruct c as [a|e]; [apply H | discriminate]. Qed.

(** [StudentT.marginalize] returns in one case only, [left = right = 0],
    where it returns the instance itself.  Every call that marginalizes a
    variable raises, whatever [cholesky] and [triangular_solve] compute:
    the last statement calls [GammaGaussian], a name the module does not
    bind. *)
Theorem studentt_marginalize_returns_iff
  (cholesky : tensor2 -> result tensor2)
  (triangular_solve : tensor2 -> tensor2 -> tensor2)
  (tlog : Q -> Q) (log_2pi : Q)
  (g g' : StudentTOps.StudentT) (left right : Z) :
  StudentTOps.marginalize cholesky triangular_solve tlog log_2pi g left right
  = Ok g'
  <-> left = 0 /\ right = 0 /\ g' = g.
Proof.
  unfold StudentTOps.marginalize. split.
  - destruct (Z.eqb_spec left 0) as [El|El];
      destruct (Z.eqb_spec right 0) as [Er|Er]; cbn [andb];
      try (intros H; injection H as <-; auto).
    all: destruct ((left >? 0) && (right >? 0)); [discriminate|].
    all: intros H; exfalso; revert H.
    all: cbv zeta.
    all: repeat first [ rewrite lookup_GammaGaussian; discriminate
                      | apply rbind_not_ok; intros ? ].
  - intros (-> & -> & ->). reflexivity.
Qed.

(** [StudentT.nonexact_add] returns on no pair of operands:
    [absolute_central_moment_matching] has no [return] statement, so both
    matched potentials are [None] and reading [self_st.log_normalizer]
    raises [AttributeError]; operands of different dimension or rank fail
    the assertions before that. *)
Theorem studentt_nonexact_add_raises (g1 g2 : StudentTOps.StudentT) :
  StudentTOps.nonexact_add g1 g2
  = Raise (if (StudentTOps.dim g1 =? StudentTOps.dim g2)
              && Qeq_bool (StudentTOps.rank g1) (StudentTOps.rank g2)
           then AttributeError else AssertionError).
Proof.
  unfold StudentTOps.nonexact_add.
  destruct (StudentTOps.dim g1 =? StudentTOps.dim g2); [|reflexivity].
  destruct (Qeq_bool (StudentTOps.rank g1) (StudentTOps.rank g2));
    reflexivity.
Qed.

(** [studentt_tensordot] raises [NameError] on every input: its first
    statement is [assert isinstance(x, GammaGaussian)]. *)
Theorem studentt_tensordot_name_error
  (cholesky : tensor2 -> result tensor2)
  (triangular_solve : tensor2 -> tensor2 -> tensor2)
  (tlog : Q -> Q) (log_2pi : Q) (x y : StudentTOps.StudentT) (dims : Z) :
  StudentTOps.studentt_tensordot cholesky triangular_solve tlog log_2pi
    x y dims
  = Raise (NameError "GammaGaussian").
Proof.
  unfold StudentTOps.studentt_tensordot. rewrite lookup_GammaGaussian.
  reflexivity.
Qed.

(** ** The HMC kernel: momenta, kinetic energy, number of steps *)

Lemma insert_item_not_nil (kv : string * list tfloat) (l : Params) :
  insert_item kv l <> [].
Proof.
  destruct l as [|kv' l]; simpl; [discriminate|].
  destruct (String.leb _ _); discriminate.
Qed.

Lemma sorted_items_nil (d : Params) : sorted_items d = [] -> d = [].
Proof.
  destruct d as [|kv d]; [reflexivity|]. simpl. intros E.
  now apply insert_item_not_nil in E.
Qed.

Lemma insert_item_sorted (kv : string * list tfloat) (l : Params) :
  name_sorted l -> name_sorted (insert_item kv l).
Proof.
  induction l as [|kv' l IH]; intros Hs; [simpl; auto|].
  simpl insert_item. destruct (String.leb (fst kv) (fst kv')) eqn:E.
  - split; [exact E | exact Hs].
  - assert (E' : String.leb (fst kv') (fst kv) = true)
      by (destruct (String.leb_total (fst kv) (fst kv')); congruence).
    destruct Hs as [Hh Ht]. specialize (IH Ht).
    split; [|exact IH].
    destruct l as [|kv'' l]; [exact E'|].
    simpl insert_item in *.
    destruct (String.leb (fst kv) (fst kv'')); [exact E' | exact Hh].
Qed.

Lemma sorted_items_sorted (d : Params) : name_sorted (sorted_items d).
Proof.
  induction d as [|kv d IH]; [exact I|]. simpl.
  now apply insert_item_sorted.
Qed.

Lemma sorted_items_of_sorted (d : Params) :
  name_sorted d -> sorted_items d = d.
Proof.
  induction d as [|kv d IH]; intros Hs; [reflexivity|].
  destruct Hs as [Hh Ht]. simpl. rewrite (IH Ht).
  destruct d as [|kv' d]; [reflexivity|]. simpl. now rewrite Hh.
Qed.

Lemma name_sorted_names (r items : Params) :
  map fst r = map fst items -> name_sorted items -> name_sorted r.
Proof.
  revert items. induction r as [|kv r IH]; intros items E Hs; [exact I|].
  destruct items as [|kv' items]; [discriminate|].
  injection E as E1 E2. destruct Hs as [Hh Ht]. split.
  - destruct r as [|kv2 r]; [exact I|].
    destruct items as [|kv2' items]; [discriminate|].
    injection E2 as E2 _. now rewrite E1, E2.
  - exact (IH items E2 Ht).
Qed.

Lemma firstn_plus {A} (a b : nat) (l : list A) :
  firstn (a + b) l = firstn a l ++ firstn b (skipn a l).
Proof.
  revert l. induction a as [|a IH]; intros l; [reflexivity|].
  destruct l as [|x l]; simpl.
  - now rewrite firstn_nil.
  - now rewrite IH.
Qed.

Lemma skipn_plus {A} (a b : nat) (l : list A) :
  skipn (a + b) l = skipn b (skipn a l).
Proof.
  revert l. induction a as [|a IH]; intros l; [reflexivity|].
  destruct l as [|x l]; simpl; [now rewrite skipn_nil | apply IH].
Qed.

(** The loop of [_sample_r] cuts consecutive slices: the names and sizes
    are those of the items, and the slices put back together are the part
    of the flat vector that was read. *)
Lemma unflatten_spec (r_flat : list tfloat) (items : Params) :
  forall pos r pos',
    unflatten r_flat items pos = Ok (r, pos') ->
    map fst r = map fst items /\
    map (fun kv => length (snd kv)) r
    = map (fun kv => length (snd kv)) items /\
    (pos <= pos')%nat /\
    concat (map snd r) = firstn (pos' - pos) (skipn pos r_flat).
Proof.
  induction items as [|[name param] items IH]; intros pos r pos' E.
  - injection E as <- <-. rewrite Nat.sub_diag. repeat split; auto.
  - simpl in E.
    destruct (Nat.eqb_spec
                (length (firstn (pos + length param - pos)
                           (skipn pos r_flat)))
                (length param)) as [El|El]; [|discriminate].
    destruct (unflatten r_flat items (pos + length param))
      as [[r1 p1]|e] eqn:Er; [|discriminate].
    simpl in E. injection E as <- <-.
    destruct (IH _ _ _ Er) as (Hn & Hl & Hp & Hc).
    cbn [map fst snd concat]. rewrite Hn, Hl, El, Hc.
    repeat split; auto; [lia|].
    replace (pos + length param - pos)%nat with (length param) by lia.
    replace (p1 - pos)%nat
      with (length param + (p1 - (pos + length param)))%nat by lia.
    rewrite firstn_plus, <- skipn_plus. reflexivity.
Qed.

(** [_sample_r] and [_kinetic_energy] agree on the layout of the momentum:
    when [_sample_r] returns [(r, r_flat)], the dict [r] has the names and
    the sizes of the initial parameters in sorted order, and the
    flattening that [_kinetic_energy] starts with turns [r] back into
    [r_flat] (for a kernel with at least one site; [torch.cat] rejects an
    empty list). *)
Theorem sample_r_round_trip {Adapter : Type} `{Collaborators Adapter}
  (s s' : HMC Adapter) (r : Params) (r_flat : list tfloat) :
  _sample_r s = Some (Ok (r, r_flat), s') ->
  exists ip,
    _initial_params s = Some ip /\
    map fst r = map fst (sorted_items ip) /\
    map (fun kv => length (snd kv)) r
    = map (fun kv => length (snd kv)) (sorted_items ip) /\
    (ip <> [] -> flatten_sorted r = Ok r_flat).
Proof.
  unfold _sample_r, bind, get, modify, lift, raise, ret. cbn.
  destruct (_initial_params s) as [ip|]; cbn; [|discriminate].
  destruct (unflatten _ (sorted_items ip) 0) as [[r0 p0]|e] eqn:Eu; cbn;
    [|discriminate].
  destruct (Nat.eqb_spec p0 (length (pyro_sample_r (draws s) (_adapter s))))
    as [Ep|Ep]; cbn; [|discriminate].
  intros E. injection E as <- <- _.
  destruct (unflatten_spec _ _ _ _ _ Eu) as (Hn & Hl & _ & Hc).
  exists ip. repeat split; auto.
  intros Hne. unfold flatten_sorted.
  destruct r0 as [|kv r0].
  - destruct (sorted_items ip) eqn:Es; [|discriminate].
    now apply sorted_items_nil in Es.
  - rewrite sorted_items_of_sorted
      by (apply (name_sorted_names _ _ Hn), sorted_items_sorted).
    rewrite Hc, Nat.sub_0_r, Ep. simpl skipn. now rewrite firstn_all.
Qed.

Lemma sample_r_round_trip_witness :
  _sample_r (toy_at (Fin 0))
  = Some (Ok (site_at (Fin 1), [Fin 1]),
          set_draws 1 (toy_at (Fin 0))) /\
  exists ip,
    _initial_params (toy_at (Fin 0)) = Some ip /\
    map fst (site_at (Fin 1)) = map fst (sorted_items ip) /\
    map (fun kv => length (snd kv)) (site_at (Fin 1))
    = map (fun kv => length (snd kv)) (sorted_items ip) /\
    (ip <> [] -> flatten_sorted (site_at (Fin 1)) = Ok [Fin 1]).
Proof.
  assert (E : _sample_r (toy_at (Fin 0))
              = Some (Ok (site_at (Fin 1), [Fin 1]),
                      set_draws 1 (toy_at (Fin 0)))) by reflexivity.
  exact (conj E (sample_r_round_trip _ _ _ _ E)).
Defined.

Lemma py_int_nonneg (q : Q) :
  (0 <= q)%Q ->
  (inject_Z (py_int q) <= q)%Q /\ (q < inject_Z (py_int q) + 1)%Q /\
  0 <= py_int q.
Proof.
  destruct q as [a b]. unfold Qle, Qlt, py_int, inject_Z, Qplus.
  cbn [Qnum Qden]. intros Ha. rewrite Z.mul_1_r in Ha. simpl in Ha.
  rewrite Z.quot_div_nonneg by lia.
  pose proof (Z.mul_div_le a (Zpos b) ltac:(lia)).
  pose proof (Z.mul_succ_div_gt a (Zpos b) ltac:(lia)).
  pose proof (Z.div_pos a (Zpos b) Ha ltac:(lia)).
  cbn [Pos.mul]. nia.
Qed.

Lemma py_int_neg (q : Q) : (q < 0)%Q -> py_int q <= 0.
Proof.
  destruct q as [a b]. unfold Qlt, py_int. cbn [Qnum Qden]. intros Ha.
  rewrite Z.mul_1_r in Ha. simpl in Ha.
  replace a with (- (- a)) by lia.
  rewrite Z.quot_opp_l by lia.
  rewrite Z.quot_div_nonneg by lia.
  pose proof (Z.div_pos (- a) (Zpos b) ltac:(lia) ltac:(lia)). lia.
Qed.

(** [HMC.num_steps] never changes the kernel.  A zero step size raises
    [ZeroDivisionError].  Otherwise the outcome goes by the float quotient
    [q] of [trajectory_length] by the step size: an infinite [q] raises
    [OverflowError], a NaN raises [ValueError], and a finite [q] gives
    [n >= 1] steps, where [n] is the whole part of [q]
    ([n <= q < n + 1]) or [n = 1] when [q < 1]. *)
Theorem num_steps_bounds {Adapter : Type} `{Collaborators Adapter}
  (s : HMC Adapter) :
  ((step_size s == 0)%Q -> num_steps s = Some (Raise ZeroDivisionError, s)) /\
  (~ (step_size s == 0)%Q ->
   match py_float_div trajectory_length (step_size s) with
   | Fin q =>
       exists n, num_steps s = Some (Ok n, s) /\ 1 <= n /\
         (n = 1 \/ (inject_Z n <= q)%Q) /\ (q < inject_Z n + 1)%Q
   | NaN => num_steps s = Some (Raise ValueError, s)
   | _ => num_steps s = Some (Raise OverflowError, s)
   end).
Proof.
  unfold num_steps, bind, get, ret, raise. cbn -[Z.max]. split.
  - intros E. apply Qeq_bool_iff in E. now rewrite E.
  - intros Hne.
    destruct (Qeq_bool (step_size s) 0) eqn:E;
      [apply Qeq_bool_iff in E; contradiction|].
    destruct (py_float_div trajectory_length (step_size s)) as [q| | |];
      try reflexivity.
    eexists. split; [reflexivity|]. split; [lia|].
    destruct (Qlt_le_dec q 0) as [Hneg|Hnn].
    + pose proof (py_int_neg _ Hneg) as Hi.
      replace (Z.max 1 (py_int q)) with 1 by lia.
      split; [left; reflexivity|]. change (inject_Z 1) with 1%Q. lra.
    + destruct (py_int_nonneg _ Hnn) as (Hlo & Hhi & Hi).
      destruct (Z.max_spec 1 (py_int q)) as [[Hlt ->]|[Hge ->]].
      * split; [right; exact Hlo | exact Hhi].
      * split; [left; reflexivity|].
        assert (Hle1 : (inject_Z (py_int q) <= 1)%Q).
        { change 1%Q with (inject_Z 1). rewrite <- Zle_Qle. exact Hge. }
        change (inject_Z 1) with 1%Q. lra.
Qed.

Lemma num_steps_bounds_witness :
  ~ (step_size (toy_at (Fin 0)) == 0)%Q /\
  exists n, num_steps (toy_at (Fin 0)) = Some (Ok n, toy_at (Fin 0)) /\
    1 <= n /\ (n = 1 \/ (inject_Z n <= 1 / 1)%Q) /\
    (1 / 1 < inject_Z n + 1)%Q.
Proof.
  assert (Hne : ~ (step_size (toy_at (Fin 0)) == 0)%Q) by discriminate.
  exact (conj Hne (proj2 (num_steps_bounds (toy_at (Fin 0))) Hne)).
Defined.

(** ** The HMC kernel: what [setup] and [sample] do to the cache *)

Section KernelInvariants.

Context {Adapter : Type} `{Collaborators Adapter}.

Lemma draws_set_draws (k : nat) (s : HMC Adapter) : draws (set_draws k s) = k.
Proof. reflexivity. Qed.

Lemma set_draws_set_draws (j k : nat) (s : HMC Adapter) :
  set_draws j (set_draws k s) = set_draws j s.
Proof. reflexivity. Qed.

Lemma step_size_loop_draws fuel z pe d scale eps :
  only_draws (step_size_loop fuel z pe d scale eps).
Proof.
  revert eps. induction fuel as [|fuel IH]; intros eps.
  - intros s r s' E. discriminate.
  - rewrite step_size_loop_S. apply only_draws_bind; [apply trial_draws|].
    intros delta. destruct (_ =? _); [apply IH|].
    apply only_draws_pure. intros s. eexists. reflexivity.
Qed.

Lemma _find_reasonable_step_size_draws fuel z :
  only_draws (_find_reasonable_step_size fuel z).
Proof.
  unfold _find_reasonable_step_size. apply only_draws_bind.
  - apply only_draws_pure. intros s. eexists. reflexivity.
  - intros eps. cbv zeta. apply only_draws_bind; [apply trial_draws|].
    intros delta. apply step_size_loop_draws.
Qed.

(** [_initialize_adapter] touches the adapter and draws momenta, nothing
    else. *)
Lemma _initialize_adapter_frame fuel ip s r s' :
  _initialize_adapter fuel ip s = Some (r, s') ->
  exists a k, s' = set_adapter a (set_draws k s).
Proof.
  unfold _initialize_adapter. cbv zeta.
  unfold bind at 1. unfold get at 1. cbv beta iota.
  unfold bind at 1. unfold modify at 1. cbv beta iota.
  unfold bind at 1. unfold get at 1. cbv beta iota.
  set (s0 := set_adapter _ s).
  destruct (adapter_adapt_step_size (_adapter s0)).
  - intros E.
    destruct (bind_inv _ _ _ _ _ E) as [(eps & s1 & E1 & E2)|(e & E1 & _)];
      apply _find_reasonable_step_size_draws in E1; destruct E1 as (k & ->).
    + injection E2 as _ <-. eexists _, k. destruct s; reflexivity.
    + exists (_adapter s0), k. destruct s; reflexivity.
  - intros E. injection E as _ <-. exists (_adapter s0), (draws s).
    destruct s; reflexivity.
Qed.

(** The outcomes of [setup]. *)
Lemma setup_outcome fuel w s r s' :
  setup fuel w s = Some (r, s') ->
  _warmup_steps s' = Some w /\
  ((r = Raise TypeError /\ _initial_params s = None /\
    model_init_params = None /\ s' = set_warmup_steps (Some w) s)
   \/
   (exists ip,
      (_initial_params s = Some ip \/
       (_initial_params s = None /\ model_init_params = Some ip)) /\
      _initial_params s' = Some ip /\
      _z_last s' = Some ip /\
      _potential_energy_last s' = Some (potential_fn ip) /\
      _z_grads_last s' = None)).
Proof.
  unfold setup. unfold bind at 1. unfold modify at 1. cbv beta iota.
  set (s0 := set_warmup_steps (Some w) s).
  assert (Hinit : exists s1,
    (match model_init_params with
     | Some init_params => _initialize_model_properties init_params
     | None => ret tt
     end) s0 = Some (Ok tt, s1) /\
    _warmup_steps s1 = Some w /\
    _z_last s1 = _z_last s /\
    _potential_energy_last s1 = _potential_energy_last s /\
    ((_initial_params s1 = _initial_params s /\
      (_initial_params s = None -> model_init_params = None) /\
      (_initial_params s = None -> s1 = s0)) \/
     (exists ip, _initial_params s = None /\ model_init_params = Some ip /\
                 _initial_params s1 = Some ip))).
  { destruct model_init_params as [mp|].
    - unfold _initialize_model_properties, bind, get, modify, ret. cbn.
      destruct (_initial_params s) as [ip|] eqn:Ei.
      + eexists. split; [reflexivity|]. cbn. repeat split; auto.
        left. repeat split; auto; discriminate.
      + eexists. split; [reflexivity|]. cbn. repeat split; auto.
        right. exists mp. auto.
    - eexists. split; [reflexivity|]. cbn. repeat split; auto. }
  destruct Hinit as (s1 & E1 & Hw1 & Hz1 & Hp1 & Hip).
  unfold bind at 1. rewrite E1.
  unfold bind at 1. unfold get at 1. cbv beta iota.
  destruct (_initial_params s1) as [ip|] eqn:Ei1.
  - unfold _cache. unfold bind at 1. unfold modify at 1. cbv beta iota.
    set (s2 := set_cache (Some ip) (Some (potential_fn ip)) None s1).
    assert (Hfrom : _initial_params s = Some ip \/
                    (_initial_params s = None /\
                     model_init_params = Some ip)).
    { destruct Hip as [(E & _)|(ip' & En & Em & E')].
      - left. congruence.
      - right. split; [exact En|]. congruence. }
    destruct (negb (length ip =? 0)%nat).
    + intros E. apply _initialize_adapter_frame in E.
      destruct E as (a & k & ->). cbn. split; [exact Hw1|].
      right. exists ip. cbn. auto.
    + intros E. injection E as _ <-. cbn. split; [exact Hw1|].
      right. exists ip. cbn. auto.
  - intros E. injection E as <- <-. split; [exact Hw1|]. left.
    destruct Hip as [(E & Hm & Hs)|(ip' & _ & _ & E')]; [|discriminate].
    symmetry in E. auto.
Qed.

(** [setup] that returns has fixed the warm-up length and cached the
    initial point with its potential energy and no gradients.  The initial
    point is the one assigned to [initial_params] before the call when
    there is one, and the one found for the model otherwise; the counters
    are left alone. *)
Theorem setup_caches_initial_point fuel w (s s' : HMC Adapter) :
  setup fuel w s = Some (Ok tt, s') ->
  exists ip,
    (_initial_params s = Some ip \/
     (_initial_params s = None /\ model_init_params = Some ip)) /\
    _initial_params s' = Some ip /\
    _z_last s' = Some ip /\
    _potential_energy_last s' = Some (potential_fn ip) /\
    _z_grads_last s' = None /\
    _warmup_steps s' = Some w /\
    _t s' = _t s /\ _accept_cnt s' = _accept_cnt s /\
    _num_diverging s' = _num_diverging s.
Proof.
  intros E. destruct (setup_counters _ _ _ _ _ E) as (Ht & Ha & Hd).
  destruct (setup_outcome _ _ _ _ _ E)
    as (Hw & [(Hr & _)|(ip & Hfrom & Hi & Hz & Hp & Hg)]); [discriminate|].
  exists ip. auto 10.
Qed.

End KernelInvariants.

Lemma setup_caches_initial_point_witness :
  exists s',
    setup 3 0 (HMC_init tt) = Some (Ok tt, s') /\
    exists ip,
      (_initial_params (HMC_init tt) = Some ip \/
       (_initial_params (HMC_init tt) = None /\
        model_init_params = Some ip)) /\
      _initial_params s' = Some ip /\
      _z_last s' = Some ip /\
      _potential_energy_last s' = Some (potential_fn ip) /\
      _z_grads_last s' = None /\
      _warmup_steps s' = Some 0 /\
      _t s' = _t (HMC_init tt) /\
      _accept_cnt s' = _accept_cnt (HMC_init tt) /\
      _num_diverging s' = _num_diverging (HMC_init tt).
Proof.
  eexists.
  refine ((fun E => conj E (setup_caches_initial_point 3 0 _ _ E)) _).
  vm_compute. reflexivity.
Defined.

Section KernelSampling.

Context {Adapter : Type} `{Collaborators Adapter}.

(** With a non-empty cached point, the first part of [sample] is the
    proposal from the cache. *)
Lemma sample_propose_cached params (s : HMC Adapter) z :
  _z_last s = Some z -> z <> [] ->
  sample_propose params s
  = propose_from z (_potential_energy_last s) (_z_grads_last s) s.
Proof.
  intros Ez Hz. unfold sample_propose, _fetch_from_cache.
  unfold bind at 1. unfold get at 1. cbv beta iota. rewrite Ez.
  destruct z as [|kv z]; [contradiction | reflexivity].
Qed.

(** With a cleared cache it caches the argument and proposes from it. *)
Lemma sample_propose_cleared params (s : HMC Adapter) :
  _z_last s = None ->
  sample_propose params s
  = propose_from params (Some (potential_fn params)) (_z_grads_last s)
      (set_cache (Some params) (Some (potential_fn params)) None s).
Proof.
  intros Ez. unfold sample_propose, _fetch_from_cache, _cache.
  unfold bind at 1. unfold get at 1. cbv beta iota. rewrite Ez.
  reflexivity.
Qed.

Lemma sample_propose_empty params (s : HMC Adapter) :
  _z_last s = Some [] ->
  sample_propose params s
  = Some (Ok (EarlyReturn params),
          set_t (_t s + 1) (set_accept_cnt (_accept_cnt s + 1) s)).
Proof.
  intros Ez. unfold sample_propose, _fetch_from_cache.
  unfold bind at 1. unfold get at 1. cbv beta iota. rewrite Ez.
  reflexivity.
Qed.

(** The first part of [sample], from the point [z]: one draw whatever
    the outcome; a proposal starts at [z] and is what the integrator
    returns for some momentum and number of steps. *)
Lemma propose_from_outcome z pe zg (s : HMC Adapter) r s1 :
  propose_from z pe zg s = Some (r, s1) ->
  s1 = set_draws (S (draws s)) s /\
  forall p, r = Ok p ->
    exists mom r_new n z_new zgn pen d w,
      p = Proposed z z_new zgn pen d /\
      velocity_verlet z mom (inverse_mass_matrix s) (step_size s) n zg
      = (z_new, r_new, zgn, pen) /\
      _warmup_steps s = Some w.
Proof.
  unfold propose_from. intros E.
  destruct (bind_inv _ _ _ _ _ E) as [(rr & s2 & Er & E2)|(e & Er & ->)].
  2:{ apply _sample_r_state in Er. split; [exact Er | discriminate]. }
  apply _sample_r_state in Er. subst s2.
  revert E2. unfold bind, get, lift, ret, raise, num_steps. cbn.
  destruct (_kinetic_energy _ (fst rr)) as [ke|e];
    [|intros E2; injection E2 as <- <-; split; [reflexivity|discriminate]].
  destruct pe as [pe|];
    [|intros E2; injection E2 as <- <-; split; [reflexivity|discriminate]].
  cbn.
  destruct (_warmup_steps s) as [w|] eqn:Ew;
    [|intros E2; injection E2 as <- <-; split; [reflexivity|discriminate]].
  cbn.
  destruct (Qeq_bool _ 0);
    [intros E2; injection E2 as <- <-; split; [reflexivity|discriminate]|].
  destruct (py_float_div _ _) as [quotient| | |];
    try (intros E2; injection E2 as <- <-; split;
         [reflexivity|discriminate]).
  cbn.
  destruct (velocity_verlet _ _ _ _ _ _) as [[[z_new r_new] zgn] pen] eqn:Ev.
  destruct (_kinetic_energy _ r_new) as [kn|e];
    [|intros E2; injection E2 as <- <-; split; [reflexivity|discriminate]].
  intros E2. injection E2 as <- <-. split; [reflexivity|].
  intros p Ep. injection Ep as <-.
  eexists (fst rr), r_new, _, z_new, zgn, pen, _, w.
  split; [reflexivity|]. split; [exact Ev | reflexivity].
Qed.

Lemma sample_metropolis_frame z z_new zg pen d (s : HMC Adapter) w r s' :
  _warmup_steps s = Some w ->
  sample_metropolis z z_new zg pen d s = Some (r, s') ->
  draws s' = S (draws s) /\ _initial_params s' = _initial_params s.
Proof.
  intros Ew. unfold sample_metropolis, _cache.
  unfold bind, get, modify, ret, raise.
  cbn -[tf_ltb tf_gtb accept_prob_of nan_to_inf Z.add Z.ltb Z.geb].
  rewrite Ew.
  destruct (tf_gtb (nan_to_inf d) (Fin _max_sliced_energy));
    destruct (_t s >=? w);
    cbn -[tf_ltb tf_gtb accept_prob_of nan_to_inf Z.add Z.ltb Z.geb];
    destruct (tf_ltb _ (accept_prob_of (nan_to_inf d)));
    cbn -[tf_ltb tf_gtb accept_prob_of nan_to_inf Z.add Z.ltb Z.geb];
    rewrite ?Ew;
    destruct (_t s <? w);
    cbn -[tf_ltb tf_gtb accept_prob_of nan_to_inf Z.add Z.ltb Z.geb];
    intros E; injection E as _ <-; split; reflexivity.
Qed.

(** The three ways in which [sample] comes back. *)
Lemma sample_outcome params (s : HMC Adapter) r s' :
  sample params s = Some (r, s') ->
  (* the early return *)
  (_z_last s = Some [] /\ r = Ok params /\
   s' = set_t (_t s + 1) (set_accept_cnt (_accept_cnt s + 1) s))
  \/
  exists z0 s0,
    ((exists z, _z_last s = Some z /\ z <> [] /\ z0 = z /\ s0 = s) \/
     (_z_last s = None /\ z0 = params /\
      s0 = set_cache (Some params) (Some (potential_fn params)) None s)) /\
    _z_last s0 = Some z0 /\
    ((* an exception, after at most one draw *)
     ((exists e, r = Raise e) /\ s' = set_draws (S (draws s)) s0)
     \/
     (* a proposal and the Metropolis test *)
     (exists mom r_new n z_new zgn pen d w zr,
        velocity_verlet z0 mom (inverse_mass_matrix s0) (step_size s0) n
          (_z_grads_last s)
        = (z_new, r_new, zgn, pen) /\
        _warmup_steps s = Some w /\
        r = Ok zr /\
        draws s' = S (S (draws s)) /\
        _initial_params s' = _initial_params s /\
        if accepts (S (draws s)) d
        then zr = z_new /\ _z_last s' = Some z_new /\
             _potential_energy_last s' = Some pen /\
             _z_grads_last s' = Some zgn
        else zr = z0 /\ _z_last s' = Some z0 /\
             _potential_energy_last s' = _potential_energy_last s0 /\
             _z_grads_last s' = _z_grads_last s0)).
Proof.
  intros E.
  assert (Hfrom : forall z0 pe0 s0,
    _z_last s0 = Some z0 -> _warmup_steps s0 = _warmup_steps s ->
    draws s0 = draws s -> _initial_params s0 = _initial_params s ->
    sample_propose params s = propose_from z0 pe0 (_z_grads_last s) s0 ->
    ((exists e, r = Raise e) /\ s' = set_draws (S (draws s)) s0)
     \/
     (exists mom r_new n z_new zgn pen d w zr,
        velocity_verlet z0 mom (inverse_mass_matrix s0) (step_size s0) n
          (_z_grads_last s)
        = (z_new, r_new, zgn, pen) /\
        _warmup_steps s = Some w /\
        r = Ok zr /\
        draws s' = S (S (draws s)) /\
        _initial_params s' = _initial_params s /\
        if accepts (S (draws s)) d
        then zr = z_new /\ _z_last s' = Some z_new /\
             _potential_energy_last s' = Some pen /\
             _z_grads_last s' = Some zgn
        else zr = z0 /\ _z_last s' = Some z0 /\
             _potential_energy_last s' = _potential_energy_last s0 /\
             _z_grads_last s' = _z_grads_last s0)).
  { intros z0 pe0 s0 Hz0 Hw0 Hd0 Hi0 Ep. unfold sample in E.
    destruct (bind_inv _ _ _ _ _ E) as [(p & s1 & E1 & E2)|(e & E1 & ->)];
      rewrite Ep in E1;
      destruct (propose_from_outcome _ _ _ _ _ _ E1) as (Hs1 & Hp).
    - destruct (Hp p eq_refl)
        as (mom & r_new & n & z_new & zgn & pen & d & w & -> & Ev & Ew).
      assert (Ew1 : _warmup_steps s1 = Some w) by (subst s1; exact Ew).
      destruct (sample_metropolis_spec z0 z_new zgn pen d s1 w Ew1)
        as (zr & s2 & Em & _ & _ & _ & Hacc).
      rewrite Em in E2. injection E2 as <- <-.
      destruct (sample_metropolis_frame _ _ _ _ _ _ _ _ _ Ew1 Em)
        as (Hdr & Hin).
      right. exists mom, r_new, n, z_new, zgn, pen, d, w, zr.
      split; [exact Ev|]. split; [congruence|]. split; [reflexivity|].
      split; [rewrite Hdr; subst s1; cbn; congruence|].
      split; [rewrite Hin; subst s1; cbn; congruence|].
      replace (draws s1) with (S (draws s)) in Hacc
        by (subst s1; cbn; congruence).
      destruct (accepts (S (draws s)) d).
      + destruct Hacc as (-> & _ & Hz & Hpe & Hzg). auto.
      + destruct Hacc as (-> & _ & Hz & Hpe & Hzg).
        subst s1. cbn in *. rewrite Hz, Hpe, Hzg. auto.
    - left. split; [eauto|]. rewrite Hs1, Hd0. reflexivity. }
  destruct (_z_last s) as [[|kv z]|] eqn:Ez.
  - left. unfold sample in E. unfold bind in E.
    rewrite (sample_propose_empty params s Ez) in E.
    injection E as <- <-. auto.
  - right. exists (kv :: z), s. split.
    + left. exists (kv :: z). repeat split; auto. discriminate.
    + split; [exact Ez|].
      apply (Hfrom (kv :: z) (_potential_energy_last s) s); auto.
      apply sample_propose_cached; [exact Ez | discriminate].
  - right. exists params, (set_cache (Some params)
                             (Some (potential_fn params)) None s).
    split; [right; auto|]. split; [reflexivity|].
    apply (Hfrom params (Some (potential_fn params))); auto.
    apply sample_propose_cleared. exact Ez.
Qed.

End KernelSampling.

Section KernelCache.

Context {Adapter : Type} `{Collaborators Adapter}.

(** [sample] reads its argument only when the cache is empty: with a
    non-empty cached point, two calls with different arguments have the
    same outcome and leave the same state. *)
Theorem sample_ignores_params_when_cached
  (s : HMC Adapter) (z params1 params2 : Params) :
  _z_last s = Some z -> z <> [] ->
  sample params1 s = sample params2 s.
Proof.
  intros Ez Hz. unfold sample, bind.
  now rewrite !(sample_propose_cached _ s z Ez Hz).
Qed.

(** After [clear_cache], [sample(params)] with a non-empty [params]
    recomputes the potential energy: the call behaves as on a kernel whose
    cache holds [params], the potential energy of [params] and no
    gradients. *)
Theorem sample_after_clear_cache (s : HMC Adapter) (params : Params) :
  params <> [] ->
  bind clear_cache (fun _ => sample params) s
  = sample params
      (set_cache (Some params) (Some (potential_fn params)) None s).
Proof.
  intros Hp. unfold bind at 1. unfold clear_cache, modify.
  unfold sample, bind.
  rewrite (sample_propose_cleared params (set_cache None None None s))
    by reflexivity.
  rewrite (sample_propose_cached params
             (set_cache (Some params) (Some (potential_fn params)) None s)
             params) by (auto; reflexivity).
  reflexivity.
Qed.

(** A call of [sample] that returns is the early return of a kernel
    without sample sites, which hands its argument back and draws nothing,
    or it has drawn twice (a momentum and a uniform variate) and returns
    the point that its cache holds afterwards. *)
Theorem sample_returns_cached_point
  (params : Params) (s s' : HMC Adapter) (zr : Params) :
  sample params s = Some (Ok zr, s') ->
  (_z_last s = Some [] /\ zr = params /\ draws s' = draws s /\
   _z_last s' = Some [])
  \/
  (_z_last s <> Some [] /\ _z_last s' = Some zr /\
   draws s' = S (S (draws s))).
Proof.
  intros E. destruct (sample_outcome _ _ _ _ E)
    as [(Ez & Er & ->)|(z0 & s0 & Hs0 & Hz0 & [((e & Er) & _)|Hp])].
  - left. injection Er as ->. cbn. auto.
  - discriminate.
  - right. destruct Hp as (mom & r_new & n & z_new & zgn & pen & d & w & zr'
                           & _ & _ & Er & Hd & _ & Hacc).
    injection Er as ->. split.
    + destruct Hs0 as [(z & Ez & Hz & _)|(Ez & _)]; rewrite Ez;
        [congruence | discriminate].
    + split; [|exact Hd].
      destruct (accepts (S (draws s)) d);
        destruct Hacc as (-> & Hz & _); exact Hz.
Qed.

Lemma sample_cache_coherent params (s : HMC Adapter) r s' :
  integrator_reports_potential ->
  cache_coherent s ->
  sample params s = Some (r, s') ->
  cache_coherent s'.
Proof.
  intros Hint Hc E. unfold cache_coherent in *.
  destruct (sample_outcome _ _ _ _ E)
    as [(Ez & Er & ->)|(z0 & s0 & Hs0 & Hz0 & Hcases)].
  - exact Hc.
  - assert (Hc0 : match _z_last s0, _potential_energy_last s0 with
                  | Some z, Some pe => pe = potential_fn z
                  | None, None => True
                  | _, _ => False
                  end).
    { destruct Hs0 as [(z & Ez & Hz & -> & ->)|(Ez & -> & ->)];
        [exact Hc | reflexivity]. }
    destruct Hcases as [(_ & ->)|Hp]; [exact Hc0|].
    destruct Hp as (mom & r_new & n & z_new & zgn & pen & d & w & zr
                    & Ev & _ & _ & _ & _ & Hacc).
    destruct (accepts (S (draws s)) d).
    + destruct Hacc as (_ & -> & -> & _).
      specialize (Hint z0 mom (inverse_mass_matrix s0) (step_size s0) n
                       (_z_grads_last s)).
      rewrite Ev in Hint. exact Hint.
    + destruct Hacc as (_ & -> & -> & _). rewrite Hz0 in Hc0. exact Hc0.
Qed.

Lemma after_call_cache_coherent fuel c (s s' : HMC Adapter) :
  integrator_reports_potential ->
  cache_coherent s -> after_call fuel c s = Some s' -> cache_coherent s'.
Proof.
  intros Hint Hc E.
  destruct c as [params|w|params| | |]; simpl in E.
  - injection E as <-. exact Hc.
  - destruct (setup fuel w s) as [[r s1]|] eqn:Es; [|discriminate].
    injection E as <-.
    destruct (setup_outcome _ _ _ _ _ Es)
      as (_ & [(_ & _ & _ & ->)|(ip & _ & _ & Hz & Hp & _)]).
    + exact Hc.
    + unfold cache_coherent. now rewrite Hz, Hp.
  - destruct (sample params s) as [[r s1]|] eqn:Es; [|discriminate].
    injection E as <-. exact (sample_cache_coherent _ _ _ _ Hint Hc Es).
  - destruct (diagnostics_spec s) as [H0 H1].
    destruct (Z.eq_dec (_t s) 0) as [Ht|Ht];
      [rewrite (H0 Ht) in E | rewrite (H1 Ht) in E];
      injection E as <-; exact Hc.
  - injection E as <-. exact I.
  - injection E as <-. exact I.
Qed.

(** The cache never goes stale: when the integrator returns the potential
    energy of the point it returns, then after every call of every
    sequence of calls on a fresh kernel (also after those that raise) the
    cache is empty or holds a point with the potential energy of that
    point. *)
Theorem cache_stays_coherent (adapter : Adapter) (fuel : nat)
  (cs : list call) :
  integrator_reports_potential ->
  Forall cache_coherent (states_after fuel cs (HMC_init adapter)).
Proof.
  intros Hint.
  assert (Hgen : forall s, cache_coherent s ->
                           Forall cache_coherent (states_after fuel cs s)).
  { induction cs as [|c cs IH]; intros s Hs; simpl; [constructor|].
    destruct (after_call fuel c s) as [s1|] eqn:E; [|constructor].
    assert (Hs1 : cache_coherent s1)
      by exact (after_call_cache_coherent _ _ _ _ Hint Hs E).
    constructor; auto. }
  apply Hgen. exact I.
Qed.

Lemma after_call_diverging fuel c (s s' : HMC Adapter) :
  0 <= _num_diverging s <= _t s ->
  after_call fuel c s = Some s' ->
  0 <= _num_diverging s' <= _t s'.
Proof.
  intros Hs E.
  destruct c as [params|w|params| | |]; simpl in E.
  - injection E as <-. exact Hs.
  - destruct (setup fuel w s) as [[r s1]|] eqn:Es; [|discriminate].
    injection E as <-.
    destruct (setup_counters fuel w _ _ _ Es) as (-> & _ & ->). exact Hs.
  - destruct (sample params s) as [[r s1]|] eqn:Es; [|discriminate].
    injection E as <-. unfold sample in Es.
    destruct (bind_inv _ _ _ _ _ Es) as [(p & s2 & E1 & E2)|(e & E1 & _)].
    + destruct (sample_propose_cases _ _ _ _ E1)
        as [(Ep & Ht & _ & Hd)|([(e & Ee)|(z & z_new & zg & pen & d & Ep)]
                                & Ht & _ & Hd)].
      * injection Ep as ->. injection E2 as _ <-. lia.
      * discriminate.
      * injection Ep as ->.
        destruct (sample_propose_inv _ _ _ _ _ _ _ _ E1)
          as (kn & ec & w & _ & Ew & _).
        destruct (sample_metropolis_spec z z_new zg pen d s2 w Ew)
          as (z' & s3 & Em & Ht3 & Hd3 & _).
        rewrite Em in E2. injection E2 as _ <-.
        destruct (diverges (_t s2) w d); lia.
    + destruct (sample_propose_cases _ _ _ _ E1)
        as [(Ep & _)|(_ & Ht & _ & Hd)]; [discriminate | lia].
  - destruct (diagnostics_spec s) as [H0 H1].
    destruct (Z.eq_dec (_t s) 0) as [Ht|Ht];
      [rewrite (H0 Ht) in E | rewrite (H1 Ht) in E];
      injection E as <-; exact Hs.
  - injection E as <-. exact Hs.
  - injection E as <-. cbn. lia.
Qed.

(** The divergence counter stays between 0 and the number of iterations:
    after every call of every sequence of calls on a fresh kernel,
    [0 <= _num_diverging <= _t]. *)
Theorem diverging_count_bounded (adapter : Adapter) (fuel : nat)
  (cs : list call) :
  Forall (fun s => 0 <= _num_diverging s <= _t s)
         (states_after fuel cs (HMC_init adapter)).
Proof.
  assert (Hgen : forall s, 0 <= _num_diverging s <= _t s ->
    Forall (fun s => 0 <= _num_diverging s <= _t s)
           (states_after fuel cs s)).
  { induction cs as [|c cs IH]; intros s Hs; simpl; [constructor|].
    destruct (after_call fuel c s) as [s1|] eqn:E; [|constructor].
    pose proof (after_call_diverging _ _ _ _ Hs E). constructor; auto. }
  apply Hgen. cbn. lia.
Qed.

End KernelCache.

Lemma toy_integrator_reports_potential :
  integrator_reports_potential (Adapter := unit).
Proof. intros z r Minv eps n zg. reflexivity. Qed.

Lemma sample_ignores_params_when_cached_witness :
  _z_last (toy_at (Fin 0)) = Some (site_at (Fin 0)) /\
  site_at (Fin 0) <> [] /\
  sample [] (toy_at (Fin 0)) = sample (site_at (Fin 2)) (toy_at (Fin 0)).
Proof.
  assert (Ez : _z_last (toy_at (Fin 0)) = Some (site_at (Fin 0)))
    by reflexivity.
  assert (Hz : site_at (Fin 0) <> []) by discriminate.
  exact (conj Ez (conj Hz
    (sample_ignores_params_when_cached (toy_at (Fin 0)) (site_at (Fin 0))
       [] (site_at (Fin 2)) Ez Hz))).
Defined.

Lemma sample_after_clear_cache_witness :
  site_at (Fin 1) <> [] /\
  bind clear_cache (fun _ => sample (site_at (Fin 1))) (toy_at (Fin 0))
  = sample (site_at (Fin 1))
      (set_cache (Some (site_at (Fin 1)))
         (Some (potential_fn (site_at (Fin 1)))) None (toy_at (Fin 0))).
Proof.
  assert (Hp : site_at (Fin 1) <> []) by discriminate.
  exact (conj Hp (sample_after_clear_cache (toy_at (Fin 0))
                    (site_at (Fin 1)) Hp)).
Defined.

Lemma sample_returns_cached_point_witness :
  exists zr s',
    sample [] (toy_at (Fin 0)) = Some (Ok zr, s') /\
    ((_z_last (toy_at (Fin 0)) = Some [] /\ zr = [] /\
      draws s' = draws (toy_at (Fin 0)) /\ _z_last s' = Some [])
     \/
     (_z_last (toy_at (Fin 0)) <> Some [] /\ _z_last s' = Some zr /\
      draws s' = S (S (draws (toy_at (Fin 0)))))).
Proof.
  eexists. eexists.
  refine ((fun E => conj E
             (sample_returns_cached_point [] (toy_at (Fin 0)) _ _ E)) _).
  vm_compute. reflexivity.
Defined.

Lemma cache_stays_coherent_witness :
  integrator_reports_potential (Adapter := unit) /\
  Forall cache_coherent (states_after 3 toy_calls (HMC_init tt)).
Proof.
  exact (conj toy_integrator_reports_potential
           (cache_stays_coherent tt 3 toy_calls
              toy_integrator_reports_potential)).
Defined.

(** ** The step-size search, whenever it returns *)

Section StepSizeSearch.

Context {Adapter : Type} `{Collaborators Adapter}.




End StepSizeSearch.


(** ** [GaussianS.precision] *)

Lemma dot_comm (u v : tensor1) : dot u v = dot v u.
Proof.
  unfold dot. f_equal. revert v.
  induction u as [|a u IH]; intros [|b v]; simpl; try reflexivity.
  rewrite IH. f_equal. destruct a as [an ad], b as [bn bd].
  unfold Qmult. cbn [Qnum Qden]. now rewrite Z.mul_comm, Pos.mul_comm.
Qed.

Lemma dot_nil_r (u : tensor1) : dot u [] = 0%Q.
Proof. destruct u; reflexivity. Qed.

Lemma map_nth_seq {A} (l : list A) (d : A) :
  map (fun i => nth i l d) (seq 0 (length l)) = l.
Proof.
  apply nth_ext with (d := d) (d' := d).
  - now rewrite length_map, length_seq.
  - intros k Hk. rewrite length_map, length_seq in Hk.
    set (f := fun i : nat => nth i l d).
    rewrite nth_indep with (d' := f 0%nat)
      by (now rewrite length_map, length_seq).
    rewrite map_nth, seq_nth by exact Hk. reflexivity.
Qed.

(** The columns of the transpose are the rows. *)
Lemma columns_transpose (m : tensor2) :
  well_shaped m -> columns (transpose m) = rows m.
Proof.
  intros Hw. unfold columns, transpose, column. cbn [rows cols].
  rewrite <- (map_nth_seq (rows m) []) at 2.
  apply map_ext_in. intros j Hj. apply in_seq in Hj.
  unfold columns, column. rewrite map_map.
  assert (Hlen : length (nth j (rows m) []) = cols m).
  { unfold well_shaped in Hw. rewrite Forall_forall in Hw.
    apply Hw. apply nth_In. lia. }
  rewrite <- (map_nth_seq (nth j (rows m) []) 0%Q) at 1.
  rewrite Hlen. apply map_ext. intros i.
  set (f := fun r : list Q => nth i r 0%Q).
  rewrite nth_indep with (d' := f []) by (rewrite length_map; lia).
  rewrite map_nth. reflexivity.
Qed.

(** [GaussianS.precision] of an instance with [n] variables is an
    [n x n] matrix that equals its transpose, with the inner product of
    rows [i] and [j] of [prec_sqrt] at [(i, j)]. *)
Theorem precision_symmetric (g : GaussianS) :
  constructed g ->
  well_shaped (prec_sqrt g) ->
  exists p,
    GaussianSqrt.precision g = Ok p /\
    shape2 p = (GaussianSqrt.dim g, GaussianSqrt.dim g) /\
    rows p = map (fun ri => map (dot ri) (rows (prec_sqrt g)))
                 (rows (prec_sqrt g)) /\
    transpose p = p.
Proof.
  intros Hc Hw. unfold constructed, shape2 in Hc.
  injection Hc as Hr Hcol. unfold size1 in *. apply Nat2Z.inj in Hr, Hcol.
  unfold GaussianSqrt.precision, matmul_2_2.
  destruct (transpose_shape (prec_sqrt g)) as [Tc Tr].
  rewrite Tr, Nat.eqb_refl, columns_transpose by exact Hw. rewrite Tc.
  set (R := rows (prec_sqrt g)) in *.
  eexists. split; [reflexivity|]. split; [|split; [reflexivity|]].
  - unfold shape2, GaussianSqrt.dim, size1. cbn [rows cols].
    now rewrite length_map, Hr.
  - unfold transpose. cbn [rows cols]. rewrite length_map.
    f_equal. unfold columns, column. cbn [rows cols].
    transitivity (map (fun j => map (dot (nth j R [])) R)
                      (seq 0 (length R))).
    + apply map_ext. intros j. rewrite map_map. apply map_ext. intros ri.
      set (f := dot ri).
      replace 0%Q with (f []) by apply dot_nil_r.
      rewrite map_nth. unfold f. apply dot_comm.
    + rewrite <- (map_map (fun j => nth j R [])
                          (fun rj => map (dot rj) R)).
      now rewrite map_nth_seq.
Qed.

Lemma precision_symmetric_witness :
  constructed unit2 /\ well_shaped (prec_sqrt unit2) /\
  exists p,
    GaussianSqrt.precision unit2 = Ok p /\
    shape2 p = (GaussianSqrt.dim unit2, GaussianSqrt.dim unit2) /\
    rows p = map (fun ri => map (dot ri) (rows (prec_sqrt unit2)))
                 (rows (prec_sqrt unit2)) /\
    transpose p = p.
Proof.
  assert (Hc : constructed unit2) by reflexivity.
  assert (Hw : well_shaped (prec_sqrt unit2)) by (repeat constructor).
  exact (conj Hc (conj Hw (precision_symmetric unit2 Hc Hw))).
Defined.

Lemma studentt_event_permute_rejects_witness :
  Z.of_nat (length [0; 2]) = StudentTOps.dim StudentTOps.st2 /\
  Exists (fun i => ~ (- StudentTOps.dim StudentTOps.st2 <= i
                      < StudentTOps.dim StudentTOps.st2)) [0; 2] /\
  StudentTOps.event_permute [0; 2] StudentTOps.st2 = Raise IndexError.
Proof.
  assert (Hl : Z.of_nat (length [0; 2]) = StudentTOps.dim StudentTOps.st2)
    by reflexivity.
  assert (Hex : Exists (fun i => ~ (- StudentTOps.dim StudentTOps.st2 <= i
                                    < StudentTOps.dim StudentTOps.st2))
                       [0; 2]).
  { apply Exists_cons_tl, Exists_cons_hd. vm_compute. intros [_ Hlt].
    discriminate. }
  exact (conj Hl (conj Hex
    (proj2 (studentt_event_permute_rejects [0; 2] StudentTOps.st2)
       Hl Hex))).
Defined.

Lemma studentt_marginalize_returns_iff_witness :
  StudentTOps.marginalize (fun m => Ok m) (fun b _ => b) (fun q => q) 0
    StudentTOps.st2 0 0 = Ok StudentTOps.st2.
Proof.
  exact (proj2 (studentt_marginalize_returns_iff (fun m => Ok m)
                  (fun b _ => b) (fun q => q) 0
                  StudentTOps.st2 StudentTOps.st2 0 0)
           (conj eq_refl (conj eq_refl eq_refl))).
Defined.

(** ** [sample] on a kernel that has been set up *)

Lemma numel_insert_item (kv : string * list tfloat) (d : Params) :
  numel (insert_item kv d) = (length (snd kv) + numel d)%nat.
Proof.
  induction d as [|kv' d IH]; [reflexivity|].
  simpl insert_item. destruct (String.leb (fst kv) (fst kv')).
  - reflexivity.
  - unfold numel in *. cbn [map fold_right]. rewrite IH. lia.
Qed.

Lemma numel_sorted_items (d : Params) : numel (sorted_items d) = numel d.
Proof.
  induction d as [|kv d IH]; [reflexivity|].
  change (sorted_items (kv :: d)) with (insert_item kv (sorted_items d)).
  rewrite numel_insert_item, IH. reflexivity.
Qed.

(** The loop of [_sample_r] goes through when the flat momentum is long
    enough. *)
Lemma unflatten_ok (r_flat : list tfloat) (items : Params) :
  forall pos, (pos + numel items <= length r_flat)%nat ->
    exists r, unflatten r_flat items pos = Ok (r, (pos + numel items)%nat).
Proof.
  induction items as [|[name param] items IH]; intros pos Hlen.
  - exists []. simpl. now rewrite Nat.add_0_r.
  - unfold numel in Hlen. cbn [map fold_right snd] in Hlen.
    fold (numel items) in Hlen. simpl unflatten.
    replace (length (firstn (pos + length param - pos) (skipn pos r_flat))
             =? length param)%nat with true
      by (symmetry; apply Nat.eqb_eq;
          rewrite length_firstn, length_skipn; lia).
    destruct (IH (pos + length param)%nat) as (r & ->); [lia|].
    simpl rbind. eexists. f_equal. f_equal.
    unfold numel. cbn [map fold_right snd fst]. fold (numel items). lia.
Qed.

Section SampleReturns.

Context {Adapter : Type} `{Collaborators Adapter}.

Lemma _sample_r_returns (s : HMC Adapter) ip :
  _initial_params s = Some ip -> ip <> [] ->
  length (pyro_sample_r (draws s) (_adapter s)) = numel ip ->
  exists r,
    _sample_r s
    = Some (Ok (r, pyro_sample_r (draws s) (_adapter s)),
            set_draws (S (draws s)) s) /\
    flatten_sorted r = Ok (pyro_sample_r (draws s) (_adapter s)).
Proof.
  intros Ei Hne Hlen.
  set (r_flat := pyro_sample_r (draws s) (_adapter s)) in *.
  destruct (unflatten_ok r_flat (sorted_items ip) 0) as (r & Eu).
  { rewrite numel_sorted_items. lia. }
  rewrite numel_sorted_items, Nat.add_0_l in Eu.
  exists r. split.
  - unfold _sample_r, bind, get, modify, lift, raise, ret. cbn.
    rewrite Ei. cbn. fold r_flat. rewrite Eu. cbn.
    rewrite <- Hlen, Nat.eqb_refl. reflexivity.
  - destruct (unflatten_spec _ _ _ _ _ Eu) as (Hn & _ & _ & Hc).
    unfold flatten_sorted. destruct r as [|kv r].
    + destruct (sorted_items ip) eqn:Es; [|discriminate].
      now apply sorted_items_nil in Es.
    + rewrite sorted_items_of_sorted
        by (apply (name_sorted_names _ _ Hn), sorted_items_sorted).
      rewrite Hc, Nat.sub_0_r, <- Hlen. simpl skipn.
      now rewrite firstn_all.
Qed.

Lemma _kinetic_energy_returns (Minv : MassMatrix) (r : Params) r_flat :
  flatten_sorted r = Ok r_flat ->
  mass_matrix_fits Minv (length r_flat) ->
  exists kinetic, _kinetic_energy Minv r = Ok kinetic.
Proof.
  intros Ef Hfit. unfold _kinetic_energy. rewrite Ef. simpl rbind.
  destruct Minv as [v|c m]; cbn in Hfit.
  - unfold tf_dot. rewrite length_map, Hfit, Nat.eqb_refl.
    eexists. reflexivity.
  - destruct Hfit as [-> Hm]. unfold tf_matmul. rewrite Nat.eqb_refl.
    simpl rbind. unfold tf_dot. rewrite length_map, Hm, Nat.eqb_refl.
    eexists. reflexivity.
Qed.

(** On a kernel that has been set up, with an integrator that keeps the
    layout of the momentum, the first part of [sample] gets as far as
    [delta_energy], from the cached point and after one draw. *)
Lemma sample_propose_returns params (s : HMC Adapter) :
  integrator_keeps_layout ->
  ready s ->
  exists z w z_new zg pen d,
    _z_last s = Some z /\ z <> [] /\ _warmup_steps s = Some w /\
    sample_propose params s
    = Some (Ok (Proposed z z_new zg pen d), set_draws (S (draws s)) s).
Proof.
  intros Hint (ip & z & pe & w & q & Ei & Hip & Ez & Hz & Ep & Ew & Hs & Hq
               & Hfit & Hlen).
  destruct (_sample_r_returns s ip Ei Hip Hlen) as (r & Er & Ef).
  set (r_flat := pyro_sample_r (draws s) (_adapter s)) in *.
  rewrite <- Hlen in Hfit.
  destruct (_kinetic_energy_returns _ r r_flat Ef Hfit) as (ke & Eke).
  exists z, w.
  rewrite (sample_propose_cached params s z Ez Hz).
  unfold propose_from. unfold bind at 1. rewrite Er.
  unfold num_steps. unfold bind, get, lift, ret, raise.
  unfold inverse_mass_matrix, step_size in *.
  cbn -[Z.max py_int Qeq_bool tf_add tf_sub Z.ltb].
  rewrite Eke. cbn -[Z.max py_int Qeq_bool tf_add tf_sub Z.ltb].
  rewrite Ep. cbn -[Z.max py_int Qeq_bool tf_add tf_sub Z.ltb].
  rewrite Ew. cbn -[Z.max py_int Qeq_bool tf_add tf_sub Z.ltb].
  replace (Qeq_bool (adapter_step_size (_adapter s)) 0) with false
    by (symmetry; apply not_true_is_false; intros E;
        apply Qeq_bool_iff in E; contradiction).
  rewrite Hq. cbn -[Z.max py_int Qeq_bool tf_add tf_sub Z.ltb].
  specialize (Hint z r (adapter_inverse_mass_matrix (_adapter s))
                   (adapter_step_size (_adapter s))
                   (Z.max 1 (py_int q)) (_z_grads_last s) r_flat Ef).
  destruct (velocity_verlet z r (adapter_inverse_mass_matrix (_adapter s))
              (adapter_step_size (_adapter s))
              (Z.max 1 (py_int q)) (_z_grads_last s))
    as [[[z_new r_new] zgn] pen].
  destruct Hint as (f & Ef' & Hl').
  rewrite <- Hl' in Hfit.
  destruct (_kinetic_energy_returns _ r_new f Ef' Hfit) as (kn & ->).
  eexists z_new, zgn, pen, _. repeat split; auto.
Qed.

End SampleReturns.

Lemma toy_keeps_layout : integrator_keeps_layout (Adapter := unit).
Proof.
  intros z r Minv eps n zg r_flat Ef. cbn. exists r_flat. auto.
Qed.

Lemma toy_ready (x : tfloat) : ready (toy_at x).
Proof.
  exists (site_at (Fin 0)), (site_at x), (toy_potential (site_at x)), 0,
    (1 / 1)%Q.
  repeat split; try reflexivity; discriminate.
Qed.

Section SampleClaims.

Context {Adapter : Type} `{Collaborators Adapter}.

(** C7.  Whatever the potential function returns, NaN included, [sample]
    does not raise on a kernel that has been set up: it gets as far as
    [delta_energy] and returns, having counted one iteration.  The
    divergence counter goes up by one exactly when [delta_energy] is NaN
    or greater than 1000 and [_t >= _warmup_steps], and stays as it is
    otherwise.  When the integrator reports a NaN potential energy for
    the proposal, when the potential function is NaN at the proposal, or
    when [delta_energy] itself is NaN, then [delta_energy] is NaN and the
    proposal is rejected: the returned point is the current one, the
    acceptance counter and the cache stay, and the divergence counter
    goes up exactly when warm-up is over. *)
Theorem nan_trajectory_rejected (params : Params) (s : HMC Adapter) :
  integrator_keeps_layout ->
  (forall k, 0 <= pyro_sample_uniform k)%Q ->
  ready s ->
  exists z z_new zg pen d s1 w zr s',
    _z_last s = Some z /\ _warmup_steps s = Some w /\
    sample_propose params s = Some (Ok (Proposed z z_new zg pen d), s1) /\
    sample params s = Some (Ok zr, s') /\
    _t s' = _t s + 1 /\
    _num_diverging s'
    = _num_diverging s
      + (if (torch_isnan d || tf_gtb d (Fin 1000)) && (_t s >=? w)
         then 1 else 0) /\
    (pen = NaN \/ d = NaN \/
     (integrator_reports_potential /\ potential_fn z_new = NaN) ->
     d = NaN /\ zr = z /\ _accept_cnt s' = _accept_cnt s /\
     _z_last s' = Some z /\
     _potential_energy_last s' = _potential_energy_last s /\
     _num_diverging s'
     = _num_diverging s + (if _t s >=? w then 1 else 0)).
Proof.
  intros Hlay Hu Hr.
  destruct (sample_propose_returns params s Hlay Hr)
    as (z & w & z_new & zg & pen & d & Ez & Hz & Ew & Ep).
  set (s1 := set_draws (S (draws s)) s) in *.
  assert (Ew1 : _warmup_steps s1 = Some w) by exact Ew.
  destruct (sample_metropolis_spec z z_new zg pen d s1 w Ew1)
    as (zr & s' & Em & Ht & Hdiv & _ & Hacc).
  exists z, z_new, zg, pen, d, s1, w, zr, s'.
  split; [exact Ez|]. split; [exact Ew|]. split; [exact Ep|].
  split; [unfold sample, bind; rewrite Ep; exact Em|].
  split; [exact Ht|].
  assert (Hgt : tf_gtb (nan_to_inf d) (Fin _max_sliced_energy)
                = torch_isnan d || tf_gtb d (Fin 1000))
    by (destruct d; reflexivity).
  unfold diverges in Hdiv. rewrite Hgt in Hdiv.
  change (_num_diverging s1) with (_num_diverging s) in Hdiv.
  change (_t s1) with (_t s) in Hdiv.
  split; [exact Hdiv|].
  intros Hnan.
  assert (Ed : d = NaN).
  { destruct (sample_propose_inv _ _ _ _ _ _ _ _ Ep)
      as (kn & ec & w' & Hd & _).
    destruct Hnan as [->|[Hd'|[Hrep Hpot]]].
    - rewrite Hd. apply nan_potential_nan_delta.
    - exact Hd'.
    - rewrite (sample_propose_cached params s z Ez Hz) in Ep.
      destruct (propose_from_outcome _ _ _ _ _ _ Ep) as (_ & Hp).
      destruct (Hp _ eq_refl)
        as (mom & r_new & n & z_new' & zgn & pen' & d' & w'' & Epr & Ev & _).
      injection Epr as <- <- <- <-.
      specialize (Hrep z mom (inverse_mass_matrix s) (step_size s) n
                       (_z_grads_last s)).
      rewrite Ev in Hrep. rewrite Hd, Hrep, Hpot.
      apply nan_potential_nan_delta. }
  subst d. split; [reflexivity|].
  destruct (rejects_PInf (draws s1)) as [Hrej _]; [apply Hu|].
  rewrite Hrej in Hacc. destruct Hacc as (-> & Ha & Hzl & Hpl & _).
  split; [reflexivity|]. split; [exact Ha|].
  split; [rewrite Hzl; exact Ez|]. split; [exact Hpl|].
  exact Hdiv.
Qed.

(** C9 (amended).  Starting from a fresh kernel, after every call of any
    sequence of calls ([setup], [sample], and also the [initial_params]
    setter, [diagnostics], [clear_cache], [cleanup]) the counters satisfy
    [0 <= _accept_cnt <= _t].  A [sample] call that returns adds exactly
    1 to [_t] and 0 or 1 to [_accept_cnt]; a [sample] call that raises
    leaves both as they were.  On a kernel that has been set up [sample]
    does return, and counts an acceptance exactly when the uniform draw
    is below the acceptance probability.  The acceptance rate that
    [diagnostics] reports in any of the states of the run lies in
    [[0, 1]]. *)
Theorem accept_count_bounded (adapter : Adapter) (fuel : nat)
  (cs : list call) :
  Forall (fun s => 0 <= _accept_cnt s <= _t s)
         (states_after fuel cs (HMC_init adapter)) /\
  (forall params s r s',
     sample params s = Some (r, s') ->
     ((exists z, r = Ok z) /\ _t s' = _t s + 1 /\
      (_accept_cnt s' = _accept_cnt s \/
       _accept_cnt s' = _accept_cnt s + 1))
     \/
     ((exists e, r = Raise e) /\ _t s' = _t s /\
      _accept_cnt s' = _accept_cnt s)) /\
  (integrator_keeps_layout ->
   forall params s, ready s ->
     exists z z_new zg pen d s1 zr s',
       sample_propose params s
       = Some (Ok (Proposed z z_new zg pen d), s1) /\
       sample params s = Some (Ok zr, s') /\
       _t s' = _t s + 1 /\
       _accept_cnt s'
       = _accept_cnt s + (if accepts (draws s1) d then 1 else 0)) /\
  (forall s d s',
     In s (states_after fuel cs (HMC_init adapter)) ->
     diagnostics s = Some (Ok d, s') ->
     (diag_acc_rate d == inject_Z (_accept_cnt s) / inject_Z (_t s))%Q /\
     (0 <= diag_acc_rate d <= 1)%Q).
Proof.
  assert (Hall : Forall counted (states_after fuel cs (HMC_init adapter))).
  { apply states_after_counted. unfold counted. cbn. lia. }
  split; [exact Hall|]. split; [|split].
  - intros params s r s' E.
    destruct (sample_step _ _ _ _ E) as [(He & Ht & Ha)|(Hz & Ht & Ha)];
      [right | left]; auto.
  - intros Hlay params s Hr.
    destruct (sample_propose_returns params s Hlay Hr)
      as (z & w & z_new & zg & pen & d & Ez & Hz & Ew & Ep).
    set (s1 := set_draws (S (draws s)) s) in *.
    assert (Ew1 : _warmup_steps s1 = Some w) by exact Ew.
    destruct (sample_metropolis_spec z z_new zg pen d s1 w Ew1)
      as (zr & s' & Em & Ht & _ & _ & Hacc).
    exists z, z_new, zg, pen, d, s1, zr, s'.
    split; [exact Ep|].
    split; [unfold sample, bind; rewrite Ep; exact Em|].
    split; [exact Ht|].
    change (_accept_cnt s) with (_accept_cnt s1).
    destruct (accepts (draws s1) d);
      destruct Hacc as (_ & Ha & _); lia.
  - intros s d s' Hin E.
    rewrite Forall_forall in Hall. specialize (Hall s Hin).
    destruct (diagnostics_spec s) as [H0 H1].
    destruct (Z.eq_dec (_t s) 0) as [Ht|Ht].
    + rewrite (H0 Ht) in E. discriminate.
    + rewrite (H1 Ht) in E. injection E as <- _. cbn [diag_acc_rate].
      split; [reflexivity|].
      apply acc_rate_in_unit_interval; assumption.
Qed.

End SampleClaims.

Lemma nan_trajectory_rejected_witness :
  integrator_keeps_layout (Adapter := unit) /\
  (forall k, 0 <= pyro_sample_uniform (Adapter := unit) k)%Q /\
  ready (toy_at (Fin 2)) /\
  exists z z_new zg pen d s1 w zr s',
    _z_last (toy_at (Fin 2)) = Some z /\
    _warmup_steps (toy_at (Fin 2)) = Some w /\
    sample_propose [] (toy_at (Fin 2))
    = Some (Ok (Proposed z z_new zg pen d), s1) /\
    sample [] (toy_at (Fin 2)) = Some (Ok zr, s') /\
    _t s' = _t (toy_at (Fin 2)) + 1 /\
    _num_diverging s'
    = _num_diverging (toy_at (Fin 2))
      + (if (torch_isnan d || tf_gtb d (Fin 1000))
            && (_t (toy_at (Fin 2)) >=? w)
         then 1 else 0) /\
    (pen = NaN \/ d = NaN \/
     (integrator_reports_potential /\ potential_fn z_new = NaN) ->
     d = NaN /\ zr = z /\
     _accept_cnt s' = _accept_cnt (toy_at (Fin 2)) /\
     _z_last s' = Some z /\
     _potential_energy_last s' = _potential_energy_last (toy_at (Fin 2)) /\
     _num_diverging s'
     = _num_diverging (toy_at (Fin 2))
       + (if _t (toy_at (Fin 2)) >=? w then 1 else 0)).
Proof.
  exact (conj toy_keeps_layout (conj toy_uniform_nonneg
    (conj (toy_ready (Fin 2))
       (nan_trajectory_rejected [] (toy_at (Fin 2)) toy_keeps_layout
          toy_uniform_nonneg (toy_ready (Fin 2)))))).
Defined.

(** C9 (counterexample).  On a fresh kernel, on which [setup] has not
    run, [sample] raises, and [_t] is what it was: this call of [sample]
    does not increase [_t] by 1. *)
Lemma sample_before_setup_raises :
  exists e s',
    sample (site_at (Fin 0)) (HMC_init tt) = Some (Raise e, s') /\
    _t s' = _t (HMC_init tt) /\ _t s' <> _t (HMC_init tt) + 1.
Proof.
  eexists. eexists. split; [vm_compute; reflexivity|].
  split; [reflexivity | discriminate].
Qed.

Lemma accept_count_bounded_witness :
  integrator_keeps_layout (Adapter := unit) /\
  ready (toy_at (Fin (-1))) /\
  (exists z z_new zg pen d s1 zr s',
     sample_propose [] (toy_at (Fin (-1)))
     = Some (Ok (Proposed z z_new zg pen d), s1) /\
     sample [] (toy_at (Fin (-1))) = Some (Ok zr, s') /\
     _t s' = _t (toy_at (Fin (-1))) + 1 /\
     _accept_cnt s'
     = _accept_cnt (toy_at (Fin (-1)))
       + (if accepts (draws s1) d then 1 else 0)) /\
  (exists s', sample [] (toy_at (Fin (-1)))
              = Some (Ok (site_at (Fin 0)), s') /\
              _t s' = 1 /\ _accept_cnt s' = 1) /\
  Forall (fun s => 0 <= _accept_cnt s <= _t s)
         (states_after 10 toy_calls (HMC_init tt)).
Proof.
  refine (conj toy_keeps_layout (conj (toy_ready (Fin (-1)))
    (conj (proj1 (proj2 (proj2
             (accept_count_bounded (H := toy) tt 10 toy_calls)))
             toy_keeps_layout [] (toy_at (Fin (-1)))
             (toy_ready (Fin (-1))))
       (conj _ (proj1 (accept_count_bounded (H := toy) tt 10
                         toy_calls)))))).
  eexists. split; [vm_compute; reflexivity|]. split; reflexivity.
Defined.

(** ** The step-size search on a well-posed potential *)

Section StepSizeClaim.

Context {Adapter : Type} `{Collaborators Adapter}.





End StepSizeClaim.







